(** * rhythmlist: the audio engine

    A shallow embedding of the parts of the application that carry its
    audio logic:

    - [Waveform]: the Web Worker of [src/workers/waveformWorker.ts], which
      reduces one channel of decoded samples to a normalised RMS envelope;
    - [LoopEditor]: the loop-point handlers of [src/components/LoopEditor.tsx];
    - [Playback]: the [AudioPlaybackProvider] (play, stop, tick, history);
    - [Envelope], [LoopEditorSession], [Session]: the same three parts over
      whole inputs and whole sequences of events (the chunks of a signal,
      what a user does in the editor, what happens to a mounted provider up
      to its unmount);
    - [AudioPlayerWithLoop]: what the player of a recording shows of the
      provider's state.

    Numbers.  JavaScript numbers are IEEE 754 binary64 values.  The worker
    and the loop editor are modelled on Rocq's primitive floats, which are
    that format, so NaN, infinities, signed zeros and rounding are those of
    the program.  The clock readings of the provider and the loop points it
    plays are modelled as exact rationals: what is proved about them is
    about the order of times, not about rounding.

    Effects.  The provider is a state ([Provider]: its React state, its refs,
    and the browser objects it drives) and each of its functions is a function
    on states.  State setters take effect at once, a function reads the state
    as it is when it is called, and an [async] function runs as one step: no
    other call comes in between its [await]s. *)

From Stdlib Require Import ZArith QArith Qminmax Lqa Lia Bool String List.
From Stdlib Require Import Floats.
From Stdlib Require Uint63.
Import ListNotations.

(* ===================================================================== *)
(** ** The waveform worker *)
(* ===================================================================== *)

Module Waveform.

Local Open Scope float_scope.

(** A JavaScript integer (an array length, a difference of indices) used as
    a number.  The conversion is exact below 2^53. *)
Definition number_of_Z (z : Z) : float :=
  match z with
  | Z0 => 0
  | Zpos _ => of_uint63 (Uint63.of_Z z)
  | Zneg p => - of_uint63 (Uint63.of_Z (Zpos p))
  end.

(** [Math.max(a, b)]: NaN if either is NaN, and +0 counts as larger
    than -0. *)
Definition max2 (a b : float) : float :=
  if is_nan a || is_nan b then nan
  else if a <? b then b
  else if (a =? b) && get_sign a then b
  else a.

(** [Math.max(...values)]; with no argument the result is -Infinity. *)
Definition Math_max (values : list float) : float :=
  fold_left max2 values neg_infinity.

(** The inner loop: [sum += channelData[j] * channelData[j]] for
    [j] from [start] up to [end]. *)
Definition sumSquares (channelData : list float) (start end_ : nat) : float :=
  fold_left (fun sum x => sum + x * x)
            (firstn (end_ - start) (skipn start channelData)) 0.

(** One iteration of the outer loop: the value pushed for chunk [i]. *)
Definition rms (channelData : list float) (samplesPerPoint i : nat) : float :=
  let start := (i * samplesPerPoint)%nat in
  let end_ := Nat.min (start + samplesPerPoint) (length channelData) in
  let sum := sumSquares channelData start end_ in
  PrimFloat.sqrt (sum / number_of_Z (Z.of_nat end_ - Z.of_nat start)).

(** [waveformData] after the outer loop.  [Math.floor(length / targetPoints)]
    is the integer quotient: the float quotient of two array lengths never
    rounds up to the next integer. *)
Definition waveformData (channelData : list float) (targetPoints : nat)
  : list float :=
  let samplesPerPoint := (length channelData / targetPoints)%nat in
  map (rms channelData samplesPerPoint) (seq 0 targetPoints).

Definition maxAmplitude (channelData : list float) (targetPoints : nat) : float :=
  Math_max (waveformData channelData targetPoints).

Definition normalizedData (channelData : list float) (targetPoints : nat)
  : list float :=
  let maxAmplitude := maxAmplitude channelData targetPoints in
  if 0 <? maxAmplitude
  then map (fun val => val / maxAmplitude) (waveformData channelData targetPoints)
  else waveformData channelData targetPoints.

Record WaveformResponse := {
  response_waveformData : list float;
  response_error : option string
}.

(** The engine that runs the worker takes a bounded number of arguments in
    one call: [Math.max(...waveformData)] throws a RangeError when
    [waveformData] holds more than [maxArguments] values, and the error
    carries the engine's [rangeErrorMessage].  Both differ between
    engines. *)
Record Engine := {
  maxArguments : nat;
  rangeErrorMessage : string
}.

(** An engine with the limit documented for JavaScriptCore: 65536
    arguments. *)
Definition engine_65536 : Engine :=
  {| maxArguments := Z.to_nat 65536;
     rangeErrorMessage := "Maximum call stack size exceeded." |}.

(** The message handler, on a request [{channelData, targetPoints}].  The
    one call of the [try] block that can throw on such a request is
    [Math.max(...waveformData)], after the loop has filled [waveformData];
    the [catch] block then answers with no value and the message of the
    error. *)
Definition onmessage (engine : Engine) (channelData : list float)
    (targetPoints : nat) : WaveformResponse :=
  let waveformData := waveformData channelData targetPoints in
  if (maxArguments engine <? length waveformData)%nat
  then {| response_waveformData := [];
          response_error := Some (rangeErrorMessage engine) |}
  else {| response_waveformData := normalizedData channelData targetPoints;
          response_error := None |}.

End Waveform.

(* ===================================================================== *)
(** ** The loop editor *)
(* ===================================================================== *)

Module LoopEditor.

Import Waveform.
Local Open Scope float_scope.

(** [interface LoopPoints { start: number; end: number }], in seconds, as
    the component holds them: two binary64 numbers. *)
Record LoopPoints := { start : float; end_ : float }.

(** [const MIN_LOOP_DURATION = 0.1]: the literal is the binary64 number
    closest to one tenth, 0.1000000000000000055... *)
Definition MIN_LOOP_DURATION : float := 0x1.999999999999ap-4.

(** [Math.min(a, b)]: NaN if either is NaN, and -0 counts as smaller
    than +0. *)
Definition min2 (a b : float) : float :=
  if is_nan a || is_nan b then nan
  else if a <? b then a
  else if (a =? b) && get_sign a then a
  else b.

(** The marker being dragged: ['start' | 'end']. *)
Inductive Marker := StartMarker | EndMarker.

(** Each handler returns [Some updated] when it stores a pair (it calls
    [setTempLoopPoints(updated)] and [onLoopPointsChange(updated)]) and [None]
    when it returns before storing anything. *)

(** [handleSetLoop]: the pair stored by the "Set Loop" button. *)
Definition handleSetLoop (duration : float) : LoopPoints :=
  {| start := 0; end_ := duration |}.

(** [newTime] in [handleMouseMove] and [handleTouchMove]: the time under the
    pointer, from its [clientX] and the container's bounding rectangle. *)
Definition newTime (duration clientX rect_left rect_width : float) : float :=
  let x := clientX - rect_left in
  let clickPosition := max2 0 (min2 1 (x / rect_width)) in
  clickPosition * duration.

(** The body shared by [handleMouseMove] and [handleTouchMove]. *)
Definition drag (duration : float) (dragging : Marker) (tempLoopPoints : LoopPoints)
    (clientX rect_left rect_width : float) : LoopPoints :=
  let newTime := newTime duration clientX rect_left rect_width in
  let newStart :=
    match dragging with
    | StartMarker => min2 newTime (end_ tempLoopPoints - MIN_LOOP_DURATION)
    | EndMarker => start tempLoopPoints
    end in
  let newEnd :=
    match dragging with
    | StartMarker => end_ tempLoopPoints
    | EndMarker => max2 newTime (start tempLoopPoints + MIN_LOOP_DURATION)
    end in
  {| start := newStart; end_ := newEnd |}.

Definition handleMouseMove (duration : float) (dragging : option Marker)
    (tempLoopPoints : option LoopPoints) (clientX rect_left rect_width : float)
  : option LoopPoints :=
  match dragging, tempLoopPoints with
  | Some marker, Some points =>
      Some (drag duration marker points clientX rect_left rect_width)
  | _, _ => None
  end.

(** [touches] holds the [clientX] of each touch of the event. *)
Definition handleTouchMove (duration : float) (dragging : option Marker)
    (tempLoopPoints : option LoopPoints) (touches : list float)
    (rect_left rect_width : float) : option LoopPoints :=
  match dragging, tempLoopPoints, touches with
  | Some marker, Some points, clientX :: _ =>
      Some (drag duration marker points clientX rect_left rect_width)
  | _, _, _ => None
  end.

(** [parsed || 0], where [parsed] is what [parseFloat] read from an input
    field: NaN (nothing to read) and both zeros are falsy. *)
Definition or_zero (parsed : float) : float :=
  if is_nan parsed || (parsed =? 0) then 0 else parsed.

(** [startMinInput] and [startSecInput] stand for what [parseFloat] reads
    from the two fields. *)
Definition applyStartTime (duration : float) (tempLoopPoints : option LoopPoints)
    (startMinInput startSecInput : float) : option LoopPoints :=
  match tempLoopPoints with
  | None => None
  | Some points =>
      let mins := or_zero startMinInput in
      let secs := or_zero startSecInput in
      let newStart := mins * 60 + secs in
      if is_nan newStart || (newStart <? 0) || (duration <? newStart) then None
      else
        let validStart := min2 newStart (end_ points - MIN_LOOP_DURATION) in
        Some {| start := validStart; end_ := end_ points |}
  end.

Definition applyEndTime (duration : float) (tempLoopPoints : option LoopPoints)
    (endMinInput endSecInput : float) : option LoopPoints :=
  match tempLoopPoints with
  | None => None
  | Some points =>
      let mins := or_zero endMinInput in
      let secs := or_zero endSecInput in
      let newEnd := mins * 60 + secs in
      if is_nan newEnd || (newEnd <? 0) || (duration <? newEnd) then None
      else
        let validEnd := max2 newEnd (start points + MIN_LOOP_DURATION) in
        Some {| start := start points; end_ := validEnd |}
  end.

(** The loop-point edits of the component. *)
Inductive Edit :=
| MouseMove (clientX rect_left rect_width : float)
| TouchMove (touches : list float) (rect_left rect_width : float)
| ApplyStart (startMinInput startSecInput : float)
| ApplyEnd (endMinInput endSecInput : float).

Definition handle (duration : float) (dragging : option Marker)
    (tempLoopPoints : option LoopPoints) (e : Edit) : option LoopPoints :=
  match e with
  | MouseMove clientX l w => handleMouseMove duration dragging tempLoopPoints clientX l w
  | TouchMove touches l w => handleTouchMove duration dragging tempLoopPoints touches l w
  | ApplyStart mins secs => applyStartTime duration tempLoopPoints mins secs
  | ApplyEnd mins secs => applyEndTime duration tempLoopPoints mins secs
  end.

(** [tempLoopPoints] after the handler has run. *)
Definition stored (tempLoopPoints updated : option LoopPoints) : option LoopPoints :=
  match updated with
  | Some u => Some u
  | None => tempLoopPoints
  end.

(** The bound an edit moves, if it moves one. *)
Definition moved (dragging : option Marker) (e : Edit) : option Marker :=
  match e with
  | MouseMove _ _ _ | TouchMove _ _ _ => dragging
  | ApplyStart _ _ => Some StartMarker
  | ApplyEnd _ _ => Some EndMarker
  end.

(** The time an edit asks for: the time under the pointer, or the time
    typed. *)
Definition asked (duration : float) (e : Edit) : float :=
  match e with
  | MouseMove clientX l w => newTime duration clientX l w
  | TouchMove touches l w => newTime duration (hd nan touches) l w
  | ApplyStart mins secs | ApplyEnd mins secs => or_zero mins * 60 + or_zero secs
  end.

(** [x] lies in [[lo, hi]], as the comparisons of the program see it. *)
Definition between (lo hi x : float) : Prop :=
  (lo <=? x) = true /\ (x <=? hi) = true.

(** Both bounds lie in the buffer. *)
Definition within (duration : float) (p : LoopPoints) : Prop :=
  between 0 duration (start p) /\ between 0 duration (end_ p).


(** [u] is the point of [[lo, hi]] nearest to [t]: [t] itself when it lies
    in the interval (up to the sign of a zero), the end of the interval on
    its side otherwise. *)
Definition nearest (lo hi t u : float) : Prop :=
  between lo hi u
  /\ ((t <? lo) = true -> u = lo)
  /\ (between lo hi t -> (u =? t) = true)
  /\ ((hi <? t) = true -> u = hi).

(** A finite number: neither NaN nor an infinity. *)
Definition finite (x : float) : Prop :=
  (neg_infinity <? x) = true /\ (x <? infinity) = true.

(** A pointer event with finite coordinates over a container that has a
    width.  (With a width of 0 the quotient [x / rect.width] is infinite or
    NaN.) *)
Definition over_container (e : Edit) : Prop :=
  match e with
  | MouseMove clientX rect_left rect_width =>
      finite clientX /\ finite rect_left /\ finite rect_width
      /\ (0 <? rect_width) = true
  | TouchMove touches rect_left rect_width =>
      Forall finite touches /\ finite rect_left /\ finite rect_width
      /\ (0 <? rect_width) = true
  | ApplyStart _ _ | ApplyEnd _ _ => True
  end.

End LoopEditor.

(* ===================================================================== *)
(** ** The loop editor as the user drives it *)
(* ===================================================================== *)

Module LoopEditorSession.

Import LoopEditor.
Local Open Scope float_scope.

(** The state of the component that the handlers read and write. *)
Record State := {
  dragging : option Marker;
  tempLoopPoints : option LoopPoints
}.

(** What the user does: the two buttons ([confirmed] is the answer to
    [window.confirm]), pressing and releasing a marker, and the loop-point
    edits. *)
Inductive Action :=
| SetLoop
| ResetLoop (confirmed : bool)
| MouseDown (marker : Marker)
| MouseUp
| Change (e : Edit).

Definition handleResetLoop (confirmed : bool) (st : State) : State :=
  if confirmed
  then {| dragging := dragging st; tempLoopPoints := None |}
  else st.

(** [handleMouseDown(marker)] and [handleTouchStart(marker)]. *)
Definition handleMouseDown (marker : Marker) (st : State) : State :=
  {| dragging := Some marker; tempLoopPoints := tempLoopPoints st |}.

(** [handleMouseUp], also the listener of [touchend]. *)
Definition handleMouseUp (st : State) : State :=
  {| dragging := None; tempLoopPoints := tempLoopPoints st |}.

Definition perform (duration : float) (st : State) (a : Action) : State :=
  match a with
  | SetLoop =>
      {| dragging := dragging st; tempLoopPoints := Some (handleSetLoop duration) |}
  | ResetLoop confirmed => handleResetLoop confirmed st
  | MouseDown marker => handleMouseDown marker st
  | MouseUp => handleMouseUp st
  | Change e =>
      {| dragging := dragging st;
         tempLoopPoints :=
           stored (tempLoopPoints st)
                  (handle duration (dragging st) (tempLoopPoints st) e) |}
  end.

(** The actions in the order the user does them. *)
Definition session (duration : float) (actions : list Action) (st : State) : State :=
  fold_left (perform duration) actions st.

(** The actions with which the user works on one marker: pressing and
    releasing it, moving the pointer over the container, typing a time for
    its bound, and declining to reset. *)
Definition on_marker (m : Marker) (a : Action) : Prop :=
  match a with
  | SetLoop => False
  | ResetLoop confirmed => confirmed = false
  | MouseDown marker => marker = m
  | MouseUp => True
  | Change (ApplyStart _ _) => m = StartMarker
  | Change (ApplyEnd _ _) => m = EndMarker
  | Change e => over_container e
  end.

(** The bound of marker [m] has room: the end is at least 0.1 for the
    start marker, [start + 0.1], as the handler computes it, is at most the
    duration for the end marker. *)
Definition ready (duration : float) (p : LoopPoints) (m : Marker) : Prop :=
  match m with
  | StartMarker => (MIN_LOOP_DURATION <=? end_ p) = true
  | EndMarker => (start p + MIN_LOOP_DURATION <=? duration) = true
  end.

(** What working on marker [m] has made of the pair [p]: the other bound is
    where it was, and the bound of [m] is where it was or within the limit
    computed from the other one. *)
Definition reworked (duration : float) (m : Marker) (p u : LoopPoints) : Prop :=
  within duration u
  /\ match m with
     | StartMarker =>
         end_ u = end_ p
         /\ (start u = start p
             \/ (start u <=? end_ p - MIN_LOOP_DURATION) = true)
     | EndMarker =>
         start u = start p
         /\ (end_ u = end_ p
             \/ (start p + MIN_LOOP_DURATION <=? end_ u) = true)
     end.

End LoopEditorSession.

(* ===================================================================== *)
(** ** Loop points and times of the provider *)
(* ===================================================================== *)

(** [interface LoopPoints { start: number; end: number }], in seconds, as
    the playback provider declares it. *)
Record LoopPoints := { start : Q; end_ : Q }.

(** [x < y] and [x >= y] on numbers, as tests. *)
Definition Qltb (x y : Q) : bool := negb (Qle_bool y x).
Definition Qgeb (x y : Q) : bool := Qle_bool y x.

(* ===================================================================== *)
(** ** The playback provider *)
(* ===================================================================== *)

Module Playback.

Local Open Scope Q_scope.

Record PlayHistoryEntry := { recordingId : string; timestamp : Z }.

(** *** The browser objects the provider drives *)

(** [AudioContext.state]. *)
Inductive AudioContextState := running | suspended | closed.

(** A decoded [AudioBuffer]; the provider reads its [duration] only. *)
Record AudioBuffer := { buffer_duration : Q }.

(** An [AudioBufferSourceNode] after [source.start(0, offset, playDuration)];
    [stopped] records a later [source.stop()]. *)
Record AudioBufferSourceNode := {
  source_buffer : AudioBuffer;
  offset : Q;
  playDuration : option Q;
  stopped : bool
}.

(** A [GainNode]: the value set at creation time and the linear ramp
    scheduled after it, as (target value, end time). *)
Record GainNode := { gain_value : Q; gain_ramp : option (Q * Q) }.

(** A call of [startPlayback] waiting in [await audioContext.resume()], with
    the locals it captured before the wait. *)
Record Suspension := {
  held_context : nat;
  held_buffer : AudioBuffer;
  held_gain : nat;
  held_startFrom : Q;
  held_fadeIn : bool
}.

(** Objects are named by their position in the list that allocated them;
    animation frame handles are positive. *)
Record Browser := {
  contexts : list AudioContextState;
  sources : list AudioBufferSourceNode;
  gains : list GainNode;
  frames : list nat;
  lastFrame : nat;
  suspensions : list Suspension;
  console : list string
}.

Fixpoint update {A : Type} (i : nat) (f : A -> A) (l : list A) : list A :=
  match l, i with
  | [], _ => []
  | x :: t, O => f x :: t
  | x :: t, S j => x :: update j f t
  end.

(** *** The provider's state: React state, then refs, then the browser *)

Record Provider := {
  playingRecordingId : option string;
  isLooping : bool;
  currentTime : Q;
  duration : Q;
  playHistory : list PlayHistoryEntry;
  audioContextRef : option nat;
  audioBufferRef : option AudioBuffer;
  sourceNodeRef : option nat;
  gainNodeRef : option nat;
  crossfadeGainNodeRef : option nat;
  startTimeRef : Q;
  pauseTimeRef : Q;
  animationFrameRef : nat;
  loopPointsRef : option LoopPoints;
  isLoopingRef : bool;
  crossfadeScheduledRef : bool;
  nextSourceRef : option nat;
  browser : Browser
}.

Definition setPlayingRecordingId v (s : Provider) : Provider :=
  let '(Build_Provider _ b c d e f g h i j k l m n o p q r) := s in
  Build_Provider v b c d e f g h i j k l m n o p q r.
Definition setIsLooping v (s : Provider) : Provider :=
  let '(Build_Provider a _ c d e f g h i j k l m n o p q r) := s in
  Build_Provider a v c d e f g h i j k l m n o p q r.
Definition setCurrentTime v (s : Provider) : Provider :=
  let '(Build_Provider a b _ d e f g h i j k l m n o p q r) := s in
  Build_Provider a b v d e f g h i j k l m n o p q r.
Definition setDuration v (s : Provider) : Provider :=
  let '(Build_Provider a b c _ e f g h i j k l m n o p q r) := s in
  Build_Provider a b c v e f g h i j k l m n o p q r.
Definition setPlayHistory (u : list PlayHistoryEntry -> list PlayHistoryEntry)
    (s : Provider) : Provider :=
  let '(Build_Provider a b c d e f g h i j k l m n o p q r) := s in
  Build_Provider a b c d (u e) f g h i j k l m n o p q r.
Definition set_audioContextRef v (s : Provider) : Provider :=
  let '(Build_Provider a b c d e _ g h i j k l m n o p q r) := s in
  Build_Provider a b c d e v g h i j k l m n o p q r.
Definition set_audioBufferRef v (s : Provider) : Provider :=
  let '(Build_Provider a b c d e f _ h i j k l m n o p q r) := s in
  Build_Provider a b c d e f v h i j k l m n o p q r.
Definition set_sourceNodeRef v (s : Provider) : Provider :=
  let '(Build_Provider a b c d e f g _ i j k l m n o p q r) := s in
  Build_Provider a b c d e f g v i j k l m n o p q r.
Definition set_gainNodeRef v (s : Provider) : Provider :=
  let '(Build_Provider a b c d e f g h _ j k l m n o p q r) := s in
  Build_Provider a b c d e f g h v j k l m n o p q r.
Definition set_crossfadeGainNodeRef v (s : Provider) : Provider :=
  let '(Build_Provider a b c d e f g h i _ k l m n o p q r) := s in
  Build_Provider a b c d e f g h i v k l m n o p q r.
Definition set_startTimeRef v (s : Provider) : Provider :=
  let '(Build_Provider a b c d e f g h i j _ l m n o p q r) := s in
  Build_Provider a b c d e f g h i j v l m n o p q r.
Definition set_pauseTimeRef v (s : Provider) : Provider :=
  let '(Build_Provider a b c d e f g h i j k _ m n o p q r) := s in
  Build_Provider a b c d e f g h i j k v m n o p q r.
Definition set_animationFrameRef v (s : Provider) : Provider :=
  let '(Build_Provider a b c d e f g h i j k l _ n o p q r) := s in
  Build_Provider a b c d e f g h i j k l v n o p q r.
Definition set_loopPointsRef v (s : Provider) : Provider :=
  let '(Build_Provider a b c d e f g h i j k l m _ o p q r) := s in
  Build_Provider a b c d e f g h i j k l m v o p q r.
Definition set_isLoopingRef v (s : Provider) : Provider :=
  let '(Build_Provider a b c d e f g h i j k l m n _ p q r) := s in
  Build_Provider a b c d e f g h i j k l m n v p q r.
Definition set_crossfadeScheduledRef v (s : Provider) : Provider :=
  let '(Build_Provider a b c d e f g h i j k l m n o _ q r) := s in
  Build_Provider a b c d e f g h i j k l m n o v q r.
Definition set_nextSourceRef v (s : Provider) : Provider :=
  let '(Build_Provider a b c d e f g h i j k l m n o p _ r) := s in
  Build_Provider a b c d e f g h i j k l m n o p v r.
Definition on_browser (u : Browser -> Browser) (s : Provider) : Provider :=
  let '(Build_Provider a b c d e f g h i j k l m n o p q r) := s in
  Build_Provider a b c d e f g h i j k l m n o p q (u r).

(** Statements in program order: [s |> f |> g] runs [f], then [g]. *)
Notation "s |> f" := (f s) (at level 45, left associativity, only parsing).

(** *** Browser operations *)

(** [source.stop()]; the provider ignores the exception of a second stop. *)
Definition mark_stopped (src : AudioBufferSourceNode) : AudioBufferSourceNode :=
  {| source_buffer := source_buffer src;
     offset := offset src;
     playDuration := playDuration src;
     stopped := true |}.

Definition source_stop (n : nat) (b : Browser) : Browser :=
  let '(Build_Browser cs ss gs fs lf su co) := b in
  Build_Browser cs (update n mark_stopped ss) gs fs lf su co.

Definition cancelAnimationFrame (h : nat) (b : Browser) : Browser :=
  let '(Build_Browser cs ss gs fs lf su co) := b in
  Build_Browser cs ss gs (filter (fun h' => negb (Nat.eqb h' h)) fs) lf su co.

(** [requestAnimationFrame(updatePlayback)] returns the next handle. *)
Definition requestAnimationFrame (b : Browser) : Browser :=
  let '(Build_Browser cs ss gs fs lf su co) := b in
  Build_Browser cs ss gs (S lf :: fs) (S lf) su co.

Definition set_context_state (c : nat) (st : AudioContextState) (b : Browser)
  : Browser :=
  let '(Build_Browser cs ss gs fs lf su co) := b in
  Build_Browser (update c (fun _ => st) cs) ss gs fs lf su co.

(** [new AudioContext()]: the new context is the last of the list. *)
Definition new_AudioContext (b : Browser) : Browser :=
  let '(Build_Browser cs ss gs fs lf su co) := b in
  Build_Browser (cs ++ [running]) ss gs fs lf su co.

Definition createGain (g : GainNode) (b : Browser) : Browser :=
  let '(Build_Browser cs ss gs fs lf su co) := b in
  Build_Browser cs ss (gs ++ [g]) fs lf su co.

Definition source_start (src : AudioBufferSourceNode) (b : Browser) : Browser :=
  let '(Build_Browser cs ss gs fs lf su co) := b in
  Build_Browser cs (ss ++ [src]) gs fs lf su co.

Definition suspend_call (k : Suspension) (b : Browser) : Browser :=
  let '(Build_Browser cs ss gs fs lf su co) := b in
  Build_Browser cs ss gs fs lf (su ++ [k]) co.

Definition console_error (msg : string) (b : Browser) : Browser :=
  let '(Build_Browser cs ss gs fs lf su co) := b in
  Build_Browser cs ss gs fs lf su (co ++ [msg]).

Definition context_state (c : nat) (s : Provider) : option AudioContextState :=
  nth_error (contexts (browser s)) c.

(** [if (audioContextRef.current && audioContextRef.current.state !== 'closed')
       await audioContextRef.current.close()]. *)
Definition close_current_context (s : Provider) : Provider :=
  match audioContextRef s with
  | Some c =>
      match context_state c s with
      | Some closed => s
      | _ => s |> on_browser (set_context_state c closed)
      end
  | None => s
  end.

(** *** The provider's functions *)

Definition CROSSFADE_DURATION : Q := 0.

Definition stopPlayback (s : Provider) : Provider :=
  let s :=
    match sourceNodeRef s with
    | Some n => s |> on_browser (source_stop n) |> set_sourceNodeRef None
    | None => s
    end in
  let s :=
    match nextSourceRef s with
    | Some n => s |> on_browser (source_stop n) |> set_nextSourceRef None
    | None => s
    end in
  let s :=
    match animationFrameRef s with
    | O => s
    | h => s |> on_browser (cancelAnimationFrame h) |> set_animationFrameRef O
    end in
  s |> set_crossfadeScheduledRef false.

(** How an [async] call has come back: its promise is fulfilled or
    rejected, or the call waits in [await audioContext.resume()] with the
    locals it holds. *)
Inductive Completion := Fulfilled | Rejected | Waiting (k : Suspension).

(** [startPlayback] from [stopPlayback()] on, with the locals [audioContext],
    [audioBuffer] and [gainNode] read before; [now] is
    [audioContext.currentTime].  [source.start] throws a RangeError on a
    negative offset or duration; the statements before it have run by then. *)
Definition startPlayback_run (audioBuffer : AudioBuffer) (startFrom : Q)
    (fadeIn : bool) (now : Q) (s : Provider) : Provider * Completion :=
  let s := stopPlayback s in
  let crossfadeGain :=
    if fadeIn
    then {| gain_value := 0; gain_ramp := Some (1, now + CROSSFADE_DURATION) |}
    else {| gain_value := 1; gain_ramp := None |} in
  let s := s |> set_crossfadeGainNodeRef (Some (List.length (gains (browser s))))
             |> on_browser (createGain crossfadeGain) in
  let '(offset, playDuration) :=
    match isLoopingRef s, loopPointsRef s with
    | true, Some points =>
        let offset := if Qgeb startFrom (start points) then startFrom
                      else start points in
        (offset, Some (end_ points - offset))
    | _, _ => (startFrom, None)
    end in
  if Qltb offset 0 || match playDuration with
                      | Some d => Qltb d 0
                      | None => false
                      end
  then (s, Rejected)
  else
    let source := List.length (sources (browser s)) in
    (s |> on_browser (source_start {| source_buffer := audioBuffer;
                                      offset := offset;
                                      playDuration := playDuration;
                                      stopped := false |})
       |> set_sourceNodeRef (Some source)
       |> set_startTimeRef now
       |> set_pauseTimeRef offset
       |> set_crossfadeScheduledRef false,
     Fulfilled).

Definition startPlayback (startFrom : Q) (fadeIn : bool) (now : Q) (s : Provider)
  : Provider * Completion :=
  match audioContextRef s, audioBufferRef s, gainNodeRef s with
  | Some audioContext, Some audioBuffer, Some gainNode =>
      match context_state audioContext s with
      | Some running => startPlayback_run audioBuffer startFrom fadeIn now s
      | Some suspended =>
          (s, Waiting {| held_context := audioContext;
                         held_buffer := audioBuffer;
                         held_gain := gainNode;
                         held_startFrom := startFrom;
                         held_fadeIn := fadeIn |})
      | _ => (s |> on_browser (console_error "AudioContext is closed"), Fulfilled)
      end
  | _, _, _ => (s |> on_browser (console_error "Audio not initialized"), Fulfilled)
  end.

(** [audioContext.resume()] settles and the waiting call goes on; [now] is
    the [currentTime] of the context by then. *)
Definition resume (k : Suspension) (now : Q) (s : Provider)
  : Provider * Completion :=
  startPlayback_run (held_buffer k) (held_startFrom k) (held_fadeIn k) now
    (s |> on_browser (set_context_state (held_context k) running)).

(** The same for the oldest of the calls nobody awaits. *)
Definition resumed (now : Q) (s : Provider) : Provider * Completion :=
  match suspensions (browser s) with
  | [] => (s, Fulfilled)
  | k :: rest =>
      resume k now
        (s |> on_browser (fun b =>
                let '(Build_Browser cs ss gs fs lf _ co) := b in
                Build_Browser cs ss gs fs lf rest co))
  end.

(** The tracked position: [pauseTimeRef.current + (currentTime - startTimeRef.current)]. *)
Definition position (now : Q) (s : Provider) : Q :=
  let elapsed := now - startTimeRef s in
  pauseTimeRef s + elapsed.

(** [startPlayback(...)] called without [await]: a call that waits is left
    to the browser, and a rejection is dropped. *)
Definition startPlayback_detached (startFrom : Q) (fadeIn : bool) (now : Q)
    (s : Provider) : Provider :=
  match startPlayback startFrom fadeIn now s with
  | (s, Waiting k) => s |> on_browser (suspend_call k)
  | (s, _) => s
  end.

(** One tick; [now] is [audioContext.currentTime]. *)
Definition updatePlayback (now : Q) (s : Provider) : Provider :=
  match audioContextRef s, audioBufferRef s with
  | Some audioContext, Some audioBuffer =>
      let newTime := position now s in
      let s := s |> setCurrentTime newTime in
      match isLoopingRef s, loopPointsRef s with
      | true, Some points =>
          let s :=
            if Qgeb newTime (end_ points)
            then startPlayback_detached (start points) false now (stopPlayback s)
            else s in
          s |> on_browser requestAnimationFrame
            |> set_animationFrameRef (S (lastFrame (browser s)))
      | true, None =>
          s |> on_browser requestAnimationFrame
            |> set_animationFrameRef (S (lastFrame (browser s)))
      | false, _ =>
          if Qgeb newTime (buffer_duration audioBuffer)
          then s |> stopPlayback
                 |> setPlayingRecordingId None
                 |> setIsLooping false
                 |> setCurrentTime 0
                 |> set_isLoopingRef false
          else s |> on_browser requestAnimationFrame
                 |> set_animationFrameRef (S (lastFrame (browser s)))
      end
  | _, _ => s
  end.

(** The browser runs the callback of the pending request [h]. *)
Definition animationFrame (h : nat) (now : Q) (s : Provider) : Provider :=
  if existsb (Nat.eqb h) (frames (browser s))
  then updatePlayback now (s |> on_browser (cancelAnimationFrame h))
  else s.

Section PlayRecording.

(** The blob and its decoding belong to the browser:
    [audioContext.decodeAudioData(await audioBlob.arrayBuffer())] gives a
    buffer or throws. *)
Variable Blob : Type.
Variable decodeAudioData : Blob -> option AudioBuffer.

(** The [catch] block of [playRecording]. *)
Definition playRecording_catch (s : Provider) : Provider :=
  s |> on_browser (console_error "Error playing audio:")
    |> set_isLoopingRef false
    |> setPlayingRecordingId None
    |> setIsLooping false.

(** [dateNow] is [Date.now()] and [now] the [currentTime] of the new context.
    The result also tells how the returned promise settles. *)
Definition playRecording (recordingId' : string) (audioBlob : Blob) (loop : bool)
    (loopPoints : option LoopPoints) (dateNow : Z) (now : Q) (s : Provider)
  : Provider * Completion :=
  if match playingRecordingId s with
     | Some id => String.eqb id recordingId'
     | None => false
     end && Bool.eqb (isLooping s) loop
  then
    (s |> stopPlayback
       |> close_current_context
       |> set_audioContextRef None
       |> set_audioBufferRef None
       |> set_gainNodeRef None
       |> setPlayingRecordingId None
       |> setIsLooping false
       |> setCurrentTime 0
       |> setDuration 0
       |> set_isLoopingRef false,
     Fulfilled)
  else
    let s := s |> stopPlayback |> close_current_context in
    let audioContext := List.length (contexts (browser s)) in
    let s := s |> on_browser new_AudioContext
               |> set_audioContextRef (Some audioContext) in
    match decodeAudioData audioBlob with
    | None => (playRecording_catch s, Fulfilled)
    | Some audioBuffer =>
        let s := s |> set_audioBufferRef (Some audioBuffer) in
        let gainNode := List.length (gains (browser s)) in
        let s := s |> on_browser (createGain {| gain_value := 1; gain_ramp := None |})
                   |> set_gainNodeRef (Some gainNode)
                   |> set_loopPointsRef loopPoints
                   |> set_isLoopingRef loop
                   |> setPlayingRecordingId (Some recordingId')
                   |> setIsLooping loop
                   |> setDuration (buffer_duration audioBuffer)
                   |> setCurrentTime 0
                   |> setPlayHistory (fun prev =>
                        let filtered :=
                          filter (fun e => negb (String.eqb (recordingId e) recordingId'))
                                 prev in
                        let newEntry := {| recordingId := recordingId';
                                           timestamp := dateNow |} in
                        firstn 1000 (newEntry :: filtered)) in
        let startFrom :=
          match loop, loopPoints with
          | true, Some points => start points
          | _, _ => 0
          end in
        let '(s, settled) :=
          match startPlayback startFrom false now s with
          | (s, Waiting k) => resume k now s
          | r => r
          end in
        match settled with
        | Rejected => (playRecording_catch s, Fulfilled)
        | _ => (s |> on_browser requestAnimationFrame
                  |> set_animationFrameRef (S (lastFrame (browser s))),
                Fulfilled)
        end
    end.

End PlayRecording.

Definition isPlaying (recordingId' : string) (checkLoop : option bool)
    (s : Provider) : bool :=
  match checkLoop with
  | Some loop =>
      match playingRecordingId s with
      | Some id => String.eqb id recordingId' && Bool.eqb (isLooping s) loop
      | None => false
      end
  | None =>
      match playingRecordingId s with
      | Some id => String.eqb id recordingId'
      | None => false
      end
  end.

(** [Array.from(new Set(ids))]: the first occurrence of each id, in order. *)
Fixpoint unique (ids : list string) : list string :=
  match ids with
  | [] => []
  | id :: rest => id :: filter (fun id' => negb (String.eqb id' id)) (unique rest)
  end.

(** [dateNow] is the [Date.now()] read when the memo is computed. *)
Definition recentlyPlayedRecordings (dateNow : Z) (s : Provider) : list string :=
  let sevenDaysAgo := (dateNow - 7 * 24 * 60 * 60 * 1000)%Z in
  let recentEntries :=
    filter (fun entry => (sevenDaysAgo <? timestamp entry)%Z) (playHistory s) in
  unique (map recordingId recentEntries).

(** *** Notions used to state the properties *)

(** A source node that has been stopped. *)
Definition is_stopped (n : nat) (s : Provider) : Prop :=
  forall src, nth_error (sources (browser s)) n = Some src -> stopped src = true.


(** A decoder for the examples: the empty blob does not decode, any other
    blob decodes to a buffer of 10 s. *)
Definition decode_example (blob : list nat) : option AudioBuffer :=
  match blob with
  | [] => None
  | _ => Some {| buffer_duration := 10 |}
  end.

Definition play_example := playRecording (list nat) decode_example.

(** The provider when it mounts. *)
Definition mount : Provider :=
  {| playingRecordingId := None; isLooping := false; currentTime := 0;
     duration := 0; playHistory := [];
     audioContextRef := None; audioBufferRef := None; sourceNodeRef := None;
     gainNodeRef := None; crossfadeGainNodeRef := None;
     startTimeRef := 0; pauseTimeRef := 0; animationFrameRef := O;
     loopPointsRef := None; isLoopingRef := false;
     crossfadeScheduledRef := false; nextSourceRef := None;
     browser := {| contexts := []; sources := []; gains := []; frames := [];
                   lastFrame := O; suspensions := []; console := [] |} |}.

(** After mounting: recording "A" played without loop, and recording "B"
    played in loop mode between 2 s and 5 s. *)
Definition playing_A : Provider :=
  fst (play_example "A" [1%nat] false None 1000 0 mount).

Definition looping_B : Provider :=
  fst (play_example "B" [1%nat] true (Some {| start := 2; end_ := 5 |}) 1000 0 mount).

(** After mounting: a play of recording "A" whose bytes do not decode. *)
Definition failed_A : Provider * Completion :=
  play_example "A" [] false None 1000 0 mount.

End Playback.

(* ===================================================================== *)
(** ** The envelope, chunk by chunk *)
(* ===================================================================== *)

Module Envelope.

Import Waveform.
Local Open Scope float_scope.

(** The RMS of one chunk of samples, computed as the worker does: the
    squares are added from the left, starting from 0, and the sum is divided
    by the number of samples. *)
Definition chunk_rms (chunk : list float) : float :=
  PrimFloat.sqrt (fold_left (fun sum x => sum + x * x) chunk 0
                  / number_of_Z (Z.of_nat (length chunk))).

End Envelope.

(* ===================================================================== *)
(** ** The provider from mount to unmount *)
(* ===================================================================== *)

Module Session.

Import Playback.
Local Open Scope Q_scope.

(** The cleanup of the provider's last effect, run when it unmounts
    ([close()] is not awaited there). *)
Definition unmount (s : Provider) : Provider :=
  s |> stopPlayback
    |> close_current_context
    |> set_audioContextRef None
    |> set_audioBufferRef None
    |> set_gainNodeRef None
    |> set_crossfadeGainNodeRef None.

(** The browser suspends a context that runs (an interruption of the
    audio device, for instance). *)
Definition context_suspended (c : nat) (s : Provider) : Provider :=
  match context_state c s with
  | Some running => s |> on_browser (set_context_state c suspended)
  | _ => s
  end.

(** The oldest [audioContext.resume()] that nobody awaits settles.  On a
    context closed in the meantime [resume()] rejects and the call of
    [startPlayback] that waited for it is over; otherwise the context runs
    again and the call goes on. *)
Definition resume_settled (now : Q) (s : Provider) : Provider :=
  match suspensions (browser s) with
  | [] => s
  | k :: rest =>
      let s := s |> on_browser (fun b =>
                      let '(Build_Browser cs ss gs fs lf _ co) := b in
                      Build_Browser cs ss gs fs lf rest co) in
      match context_state (held_context k) s with
      | Some closed => s
      | _ => fst (resume k now s)
      end
  end.

Section Events.

Variable Blob : Type.
Variable decodeAudioData : Blob -> option AudioBuffer.

(** What happens to a mounted provider: a consumer calls [playRecording]
    or [stopPlayback], and the browser runs a requested frame, suspends a
    context or settles a [resume()]. *)
Inductive Event :=
| PlayRecording (recordingId' : string) (audioBlob : Blob) (loop : bool)
                (loopPoints : option LoopPoints) (dateNow : Z) (now : Q)
| StopPlayback
| AnimationFrame (h : nat) (now : Q)
| ContextSuspended (c : nat)
| ResumeSettled (now : Q).

Definition react (s : Provider) (ev : Event) : Provider :=
  match ev with
  | PlayRecording recordingId' audioBlob loop loopPoints dateNow now =>
      fst (playRecording Blob decodeAudioData recordingId' audioBlob loop
                         loopPoints dateNow now s)
  | StopPlayback => stopPlayback s
  | AnimationFrame h now => animationFrame h now s
  | ContextSuspended c => context_suspended c s
  | ResumeSettled now => resume_settled now s
  end.

(** The events in the order they happen, one handled after the other. *)
Definition run (events : list Event) (s : Provider) : Provider :=
  fold_left react events s.

End Events.

(** *** What the provider holds at any time *)

(** In a list of sources: all are stopped; one that is not stopped is at
    the position [r] refers to. *)
Definition all_stopped (srcs : list AudioBufferSourceNode) : Prop :=
  forall n src, nth_error srcs n = Some src -> stopped src = true.

Definition live_at (r : option nat) (srcs : list AudioBufferSourceNode) : Prop :=
  forall n src, nth_error srcs n = Some src -> stopped src = false -> r = Some n.

(** The same for contexts and [closed]. *)
Definition all_closed (ctxs : list AudioContextState) : Prop :=
  forall c st, nth_error ctxs c = Some st -> st = closed.

Definition open_at (r : option nat) (ctxs : list AudioContextState) : Prop :=
  forall c st, nth_error ctxs c = Some st -> st <> closed -> r = Some c.

(** A requested frame is the one [r] names. *)
Definition frames_at (r : nat) (fs : list nat) : Prop :=
  forall h, In h fs -> h = r /\ h <> O.

(** A source that has not been stopped is the one in [sourceNodeRef]. *)
Definition one_source (s : Provider) : Prop :=
  live_at (sourceNodeRef s) (sources (browser s)).

(** A requested frame that has not run is the one in [animationFrameRef]. *)
Definition one_frame (s : Provider) : Prop :=
  frames_at (animationFrameRef s) (frames (browser s)).

(** A context that has not been closed is the one in [audioContextRef]. *)
Definition one_context (s : Provider) : Prop :=
  open_at (audioContextRef s) (contexts (browser s)).

(** The React state agrees with the refs: the two loop flags are equal, and
    a recording reported as playing has its context and its buffer, whose
    duration is the one reported. *)
Definition state_agrees (s : Provider) : Prop :=
  isLooping s = isLoopingRef s
  /\ (forall id, playingRecordingId s = Some id ->
        exists c buf, audioContextRef s = Some c
                      /\ audioBufferRef s = Some buf
                      /\ duration s = buffer_duration buf).

Definition invariant (s : Provider) : Prop :=
  one_source s /\ one_frame s /\ one_context s /\ state_agrees s.

(** Nothing is left: every source stopped, every context closed, no frame
    requested. *)
Definition released (s : Provider) : Prop :=
  all_stopped (sources (browser s))
  /\ all_closed (contexts (browser s))
  /\ frames (browser s) = [].

(** After [stopPlayback]: no source and no frame is held, every source is
    stopped and no frame is requested. *)
Definition quiet (s : Provider) : Prop :=
  sourceNodeRef s = None /\ nextSourceRef s = None /\ animationFrameRef s = O
  /\ all_stopped (sources (browser s)) /\ frames (browser s) = [].

(** An invariant state with no frame requested. *)
Definition calm (s : Provider) : Prop :=
  invariant s /\ frames (browser s) = [].

(** *** The play history *)

(** The entries a play puts in place of the history [prev]. *)
Definition played (id : string) (dateNow : Z) (prev : list PlayHistoryEntry)
  : list PlayHistoryEntry :=
  firstn 1000 ({| recordingId := id; timestamp := dateNow |}
               :: filter (fun e => negb (String.eqb (recordingId e) id)) prev).

(** At most one entry for a recording. *)
Definition distinct (history : list PlayHistoryEntry) : Prop :=
  NoDup (map recordingId history).

(** *** The source of a play *)

(** The offset and the duration of the source a play starts. *)
Definition first_offset (loop : bool) (loopPoints : option LoopPoints) : Q :=
  match loop, loopPoints with
  | true, Some p => start p
  | _, _ => 0
  end.

Definition first_duration (loop : bool) (loopPoints : option LoopPoints)
  : option Q :=
  match loop, loopPoints with
  | true, Some p => Some (end_ p - start p)
  | _, _ => None
  end.

(** *** Ticks *)

(** The browser runs the frame that the provider requested last; [now] is
    the [currentTime] of the context at that moment. *)
Definition tick (now : Q) (s : Provider) : Provider :=
  animationFrame (animationFrameRef s) now s.

(** One tick at each of the times, in that order. *)
Definition ticks (times : list Q) (s : Provider) : Provider :=
  fold_left (fun s now => tick now s) times s.

(** The position read at [now] is before the point where a tick acts: the
    loop end in loop mode with loop points, the end of the buffer in normal
    mode; in loop mode without loop points there is no such point. *)
Definition before_boundary (audioBuffer : AudioBuffer) (now : Q) (s : Provider)
  : Prop :=
  match isLoopingRef s, loopPointsRef s with
  | true, Some points => position now s < end_ points
  | true, None => True
  | false, _ => position now s < buffer_duration audioBuffer
  end.

End Session.

(* ===================================================================== *)
(** ** The player of a recording *)
(* ===================================================================== *)

(** [AudioPlayerWithLoop], which reads the provider and renders the
    [LoopEditor]. *)
Module AudioPlayerWithLoop.

Import Playback.
Local Open Scope Q_scope.

(** What the player of a recording shows, from the state of the provider and
    the duration stored with the recording ([propDuration]). *)

(** [playingRecordingId === recordingId]. *)
Definition playing_here (recordingId' : string) (s : Provider) : bool :=
  match playingRecordingId s with
  | Some id => String.eqb id recordingId'
  | None => false
  end.

(** [playingRecordingId === recordingId ? contextCurrentTime : 0]. *)
Definition currentTime (recordingId' : string) (s : Provider) : Q :=
  if playing_here recordingId' s then Playback.currentTime s else 0.

(** [playingRecordingId === recordingId && contextDuration > 0
       ? contextDuration : propDuration]. *)
Definition duration (recordingId' : string) (propDuration : Q) (s : Provider) : Q :=
  if playing_here recordingId' s && Qltb 0 (Playback.duration s)
  then Playback.duration s
  else propDuration.

(** The width of the progress bar, in percent:
    [duration > 0 ? (currentTime / duration) * 100 : 0]. *)
Definition progress (recordingId' : string) (propDuration : Q) (s : Provider) : Q :=
  if Qltb 0 (duration recordingId' propDuration s)
  then currentTime recordingId' s / duration recordingId' propDuration s * 100
  else 0.

End AudioPlayerWithLoop.


(* ===================================================================== *)
(** ** Definitions used to state and prove the properties *)
(* ===================================================================== *)

Module FloatOrder.

Local Open Scope Z_scope.

(** The order of [SFcompare] is the lexicographic order of a rank. *)
Definition rank (x : spec_float) : option (Z * Z * Z) :=
  match x with
  | S754_nan => None
  | S754_infinity true => Some (-2, 0, 0)
  | S754_infinity false => Some (2, 0, 0)
  | S754_zero _ => Some (0, 0, 0)
  | S754_finite true m e => Some (-1, - e, Zneg m)
  | S754_finite false m e => Some (1, e, Zpos m)
  end.

Definition lex (a b : Z * Z * Z) : comparison :=
  let '(a1, a2, a3) := a in
  let '(b1, b2, b3) := b in
  match a1 ?= b1 with
  | Eq => match a2 ?= b2 with
          | Eq => a3 ?= b3
          | c => c
          end
  | c => c
  end.

Definition frank (x : float) := rank (Prim2SF x).

(** [num x]: [x] is a number, not NaN. *)
Definition num (x : float) : Prop := is_nan x = false.

(** The specification of the float [1]. *)
Definition SFone : spec_float := S754_finite false 4503599627370496 (-52).

(** [x] is a zero or a finite float. *)
Definition bounded_value (x : spec_float) : Prop :=
  match x with
  | S754_zero _ | S754_finite _ _ _ => True
  | _ => False
  end.

End FloatOrder.

(* ===================================================================== *)
(** ** Facts about binary64 floats *)
(* ===================================================================== *)

Module FloatOrderFacts.

Import FloatOrder.
Local Open Scope Z_scope.

Lemma SFcompare_lex x y :
  SFcompare x y =
  match rank x, rank y with
  | Some a, Some b => Some (lex a b)
  | _, _ => None
  end.
Proof.
  destruct x as [[|]|[|]| |[|] m1 e1], y as [[|]|[|]| |[|] m2 e2]; try reflexivity;
    cbn [SFcompare rank lex].
  rewrite Z.compare_opp, (Z.compare_antisym e1 e2).
  destruct (e1 ?= e2); reflexivity.
Qed.

Ltac lex_cases :=
  repeat match goal with
  | |- context [?a ?= ?b] => destruct (Z.compare_spec a b)
  | H : context [?a ?= ?b] |- _ => destruct (Z.compare_spec a b)
  end; try congruence; try lia.

Lemma lex_trans a b c : lex a b <> Gt -> lex b c <> Gt -> lex a c <> Gt.
Proof.
  destruct a as [[a1 a2] a3], b as [[b1 b2] b3], c as [[c1 c2] c3]; unfold lex.
  lex_cases.
Qed.

Lemma lex_antisym a b : lex b a = CompOpp (lex a b).
Proof.
  destruct a as [[a1 a2] a3], b as [[b1 b2] b3]; unfold lex.
  rewrite (Z.compare_antisym a1 b1), (Z.compare_antisym a2 b2), (Z.compare_antisym a3 b3).
  destruct (a1 ?= b1), (a2 ?= b2), (a3 ?= b3); reflexivity.
Qed.

Lemma lex_refl a : lex a a = Eq.
Proof. destruct a as [[a1 a2] a3]; unfold lex. now rewrite !Z.compare_refl. Qed.

Lemma lex_eq a b : lex a b = Eq -> a = b.
Proof.
  destruct a as [[a1 a2] a3], b as [[b1 b2] b3]; unfold lex.
  lex_cases.
Qed.

Local Open Scope float_scope.

(** Comparisons of floats through the rank of their specification. *)

Lemma leb_rank x y :
  (x <=? y) = match frank x, frank y with
              | Some a, Some b => match lex a b with Gt => false | _ => true end
              | _, _ => false
              end.
Proof.
  rewrite leb_spec. unfold SFleb, frank. rewrite SFcompare_lex.
  destruct (rank (Prim2SF x)), (rank (Prim2SF y)); reflexivity.
Qed.

Lemma ltb_rank x y :
  (x <? y) = match frank x, frank y with
             | Some a, Some b => match lex a b with Lt => true | _ => false end
             | _, _ => false
             end.
Proof.
  rewrite ltb_spec. unfold SFltb, frank. rewrite SFcompare_lex.
  destruct (rank (Prim2SF x)), (rank (Prim2SF y)); reflexivity.
Qed.

Lemma eqb_rank x y :
  (x =? y) = match frank x, frank y with
             | Some a, Some b => match lex a b with Eq => true | _ => false end
             | _, _ => false
             end.
Proof.
  rewrite eqb_spec. unfold SFeqb, frank. rewrite SFcompare_lex.
  destruct (rank (Prim2SF x)), (rank (Prim2SF y)); reflexivity.
Qed.

Lemma is_nan_rank x :
  is_nan x = match frank x with Some _ => false | None => true end.
Proof.
  unfold is_nan. rewrite eqb_rank. destruct (frank x); [|reflexivity].
  now rewrite lex_refl.
Qed.

Lemma leb_num x y : (x <=? y) = true -> num x /\ num y.
Proof.
  unfold num. rewrite leb_rank, !is_nan_rank.
  destruct (frank x), (frank y); intuition congruence.
Qed.

Lemma leb_refl x : num x -> (x <=? x) = true.
Proof.
  unfold num. rewrite leb_rank, is_nan_rank.
  destruct (frank x); [|congruence]. now rewrite lex_refl.
Qed.

Lemma leb_trans x y z : (x <=? y) = true -> (y <=? z) = true -> (x <=? z) = true.
Proof.
  rewrite !leb_rank.
  destruct (frank x) as [a|], (frank y) as [b|], (frank z) as [c|]; try congruence.
  intros H1 H2. pose proof (lex_trans a b c).
  destruct (lex a b), (lex b c), (lex a c); try reflexivity; try congruence;
    exfalso; apply H; congruence.
Qed.

Lemma ltb_leb x y : (x <? y) = true -> (x <=? y) = true.
Proof.
  rewrite ltb_rank, leb_rank.
  destruct (frank x), (frank y); try congruence. destruct (lex _ _); congruence.
Qed.

Lemma eqb_leb x y : (x =? y) = true -> (x <=? y) = true.
Proof.
  rewrite eqb_rank, leb_rank.
  destruct (frank x), (frank y); try congruence. destruct (lex _ _); congruence.
Qed.

Lemma not_ltb_leb x y : num x -> num y -> (x <? y) = false -> (y <=? x) = true.
Proof.
  unfold num. rewrite ltb_rank, leb_rank, !is_nan_rank.
  destruct (frank x) as [a|], (frank y) as [b|]; try congruence.
  rewrite (lex_antisym a b). destruct (lex a b); cbn; congruence.
Qed.

Lemma leb_antisym x y : (x <=? y) = true -> (y <=? x) = true -> (x =? y) = true.
Proof.
  rewrite !leb_rank, eqb_rank.
  destruct (frank x) as [a|], (frank y) as [b|]; try congruence.
  rewrite (lex_antisym a b). destruct (lex a b); cbn; congruence.
Qed.

Lemma ltb_not_leb x y : (x <? y) = true -> (y <=? x) = false.
Proof.
  rewrite ltb_rank, leb_rank.
  destruct (frank x) as [a|], (frank y) as [b|]; try congruence.
  rewrite (lex_antisym a b). destruct (lex a b); cbn; congruence.
Qed.

(** Numeric equality with a nonzero finite float is equality. *)
Lemma eqb_finite_eq x y s m e :
  Prim2SF y = S754_finite s m e -> (x =? y) = true -> x = y.
Proof.
  intros Hy. rewrite eqb_rank. unfold frank. rewrite Hy.
  destruct (rank (Prim2SF x)) as [a|] eqn:Hx; [|congruence].
  destruct (rank (S754_finite s m e)) as [b|] eqn:Hb; [|congruence].
  destruct (lex a b) eqn:Hl; try congruence. intros _.
  apply lex_eq in Hl. subst b. apply Prim2SF_inj. rewrite Hy.
  destruct (Prim2SF x) as [[|]|[|]| |[|] m1 e1], s; cbn in Hx, Hb; try congruence.
  injection Hx as <-. injection Hb as H1 H2. f_equal; [congruence|lia].
Qed.

End FloatOrderFacts.

Module RoundingFacts.

Import FloatOrder.
Local Open Scope Z_scope.

Lemma digits2_pos_size p : digits2_pos p = Pos.size p.
Proof. induction p; cbn; congruence. Qed.

Lemma Zdigits2_log2 q : 0 < q -> Zdigits2 q = Z.log2 q + 1.
Proof.
  destruct q as [|p|p]; try lia. intros _. cbn [Zdigits2].
  rewrite digits2_pos_size. destruct p; cbn [Pos.size Z.log2]; lia.
Qed.

(** A number of at most [2 ^ k] has at most [k + 1] digits. *)
Lemma Zdigits2_le q k : 0 <= q -> 0 <= k -> q <= 2 ^ k -> Zdigits2 q <= k + 1.
Proof.
  intros Hq Hk Hle. destruct (Z.eq_dec q 0) as [-> | Hne].
  - cbn. lia.
  - rewrite Zdigits2_log2 by lia.
    assert (Z.log2 q <= Z.log2 (2 ^ k)) by (apply Z.log2_le_mono; lia).
    rewrite Z.log2_pow2 in H by lia. lia.
Qed.

Lemma shr_1_m mrs : 0 <= shr_m mrs -> shr_m (shr_1 mrs) = shr_m mrs / 2.
Proof.
  destruct mrs as [m r s]. cbn [shr_m]. intros Hm.
  destruct m as [|p|p]; [reflexivity| |lia].
  destruct p as [p|p|]; cbn [shr_1 shr_m].
  - rewrite Pos2Z.inj_xI. apply Z.div_unique with (r := 1); lia.
  - rewrite Pos2Z.inj_xO. apply Z.div_unique with (r := 0); lia.
  - reflexivity.
Qed.

Lemma shr_1_nonneg mrs : 0 <= shr_m mrs -> 0 <= shr_m (shr_1 mrs).
Proof. intros H. rewrite shr_1_m by assumption. apply Z.div_pos; lia. Qed.

Lemma shr_1_exact m :
  0 <= m -> m mod 2 = 0 ->
  shr_1 (Build_shr_record m false false) = Build_shr_record (m / 2) false false.
Proof.
  intros Hm Hev.
  pose proof (shr_1_m (Build_shr_record m false false) Hm) as Hs. cbn [shr_m] in Hs.
  destruct m as [|p|p]; [reflexivity| |lia].
  destruct p as [p|p|]; cbn [shr_1 shr_m orb] in *.
  - rewrite Pos2Z.inj_xI in Hev. rewrite Z.add_comm, Z.mul_comm, Z.mod_add in Hev by lia.
    discriminate Hev.
  - now rewrite Hs.
  - discriminate Hev.
Qed.

Lemma iter_pos_nat {A} (f : A -> A) p x :
  iter_pos f p x = Nat.iter (Pos.to_nat p) f x.
Proof.
  revert x. induction p as [p IH|p IH|]; intros x; cbn [iter_pos].
  - rewrite !IH, Pos2Nat.inj_xI, <- Nat.iter_succ_r.
    rewrite <- Nat.iter_add. f_equal. lia.
  - rewrite !IH, Pos2Nat.inj_xO, <- Nat.iter_add. f_equal. lia.
  - reflexivity.
Qed.

Lemma iter_shr_1_m n : forall mrs,
  0 <= shr_m mrs ->
  shr_m (Nat.iter n shr_1 mrs) = shr_m mrs / 2 ^ Z.of_nat n.
Proof.
  induction n as [|n IH]; intros mrs Hm.
  - cbn. now rewrite Z.div_1_r.
  - rewrite Nat.iter_succ_r, IH by now apply shr_1_nonneg.
    rewrite shr_1_m by assumption.
    rewrite Nat2Z.inj_succ, Z.pow_succ_r by lia.
    rewrite Z.div_div by lia. reflexivity.
Qed.

Lemma iter_shr_1_exact n : forall m,
  0 <= m -> m mod 2 ^ Z.of_nat n = 0 ->
  Nat.iter n shr_1 (Build_shr_record m false false) =
  Build_shr_record (m / 2 ^ Z.of_nat n) false false.
Proof.
  induction n as [|n IH]; intros m Hm Hdiv.
  - cbn. now rewrite Z.div_1_r.
  - rewrite Nat2Z.inj_succ, Z.pow_succ_r in * by lia.
    assert (H2 : m mod 2 = 0).
    { apply Z.mod_divide in Hdiv; [|lia]. apply Z.mod_divide; [lia|].
      destruct Hdiv as [k ->]. exists (k * 2 ^ Z.of_nat n). lia. }
    rewrite Nat.iter_succ_r, shr_1_exact by assumption.
    rewrite IH.
    + now rewrite Z.div_div by lia.
    + apply Z.div_pos; lia.
    + apply Z.mod_divide in Hdiv; [|lia]. apply Z.mod_divide; [lia|].
      destruct Hdiv as [k ->]. exists k.
      replace (k * (2 * 2 ^ Z.of_nat n)) with (k * 2 ^ Z.of_nat n * 2) by lia.
      now rewrite Z.div_mul by lia.
Qed.

(** What [shr] computes on a nonnegative mantissa: a division by a power of
    two, and an exact one stays exact. *)
Lemma shr_spec mrs e n :
  0 <= shr_m mrs ->
  let k := Z.max 0 n in
  snd (shr mrs e n) = e + k /\
  shr_m (fst (shr mrs e n)) = shr_m mrs / 2 ^ k /\
  (shr_r mrs = false -> shr_s mrs = false -> shr_m mrs mod 2 ^ k = 0 ->
   loc_of_shr_record (fst (shr mrs e n)) = loc_Exact).
Proof.
  intros Hm k. unfold shr. destruct n as [|p|p]; cbn [fst snd].
  - subst k. cbn [Z.max Z.compare]. rewrite Z.div_1_r. repeat split; try lia.
    destruct mrs as [m [|] [|]]; cbn; congruence.
  - subst k. replace (Z.max 0 (Zpos p)) with (Zpos p) by lia.
    rewrite iter_pos_nat, <- (positive_nat_Z p).
    repeat split.
    + now apply iter_shr_1_m.
    + intros Hr Hs Hdiv. destruct mrs as [m r s]. cbn [shr_m shr_r shr_s] in *. subst r s.
      rewrite iter_shr_1_exact; [reflexivity | assumption | assumption].
  - subst k. replace (Z.max 0 (Zneg p)) with 0 by lia. rewrite Z.div_1_r.
    repeat split; try lia.
    destruct mrs as [m [|] [|]]; cbn; congruence.
Qed.

Lemma fexp_eq x : fexp prec emax x = Z.max (x - 53) (-1074).
Proof. reflexivity. Qed.

Lemma round_nearest_even_bounds m l :
  (round_nearest_even m l = m \/ round_nearest_even m l = m + 1) /\
  (l = loc_Exact -> round_nearest_even m l = m).
Proof.
  destruct l as [|[| |]]; cbn;
    (split; [|intros H; try discriminate H; try reflexivity]); auto.
  destruct (Z.even m); auto.
Qed.

(** One [shr_fexp] step on a mantissa that stands for a value of at most
    one: the value stays at most one, and it is one only if it was one
    before, exactly. *)
Lemma shr_fexp_le_one q e l :
  0 <= q <= 2 ^ (- e) -> e <= -52 ->
  let mrs := fst (shr_fexp prec emax q e l) in
  let e' := snd (shr_fexp prec emax q e l) in
  e' <= -52 /\
  0 <= shr_m mrs <= 2 ^ (- e') /\
  (shr_m mrs = 2 ^ (- e') ->
   q = 2 ^ (- e) /\ (l = loc_Exact -> loc_of_shr_record mrs = loc_Exact)).
Proof.
  intros [Hq0 Hq] He. unfold shr_fexp.
  assert (Hrec : shr_m (shr_record_of_loc q l) = q)
    by (destruct l as [|[| |]]; reflexivity).
  set (n := fexp prec emax (Zdigits2 q + e) - e).
  pose proof (shr_spec (shr_record_of_loc q l) e n) as Hs.
  rewrite Hrec in Hs. specialize (Hs Hq0). cbv zeta in Hs.
  destruct Hs as (He' & Hm & Hex).
  set (k := Z.max 0 n) in *.
  assert (Hd : Zdigits2 q + e <= 1).
  { pose proof (Zdigits2_le q (- e) Hq0 ltac:(lia) Hq). lia. }
  assert (Hk : 0 <= k <= -52 - e).
  { subst k n. rewrite fexp_eq. lia. }
  cbv zeta. rewrite He', Hm.
  assert (Hpow : 2 ^ (- e) = 2 ^ (- (e + k)) * 2 ^ k).
  { rewrite <- Z.pow_add_r by lia. f_equal. lia. }
  assert (Hkpos : 0 < 2 ^ k) by (apply Z.pow_pos_nonneg; lia).
  split; [lia|]. split.
  - split; [apply Z.div_pos; lia|].
    apply Z.div_le_upper_bound; [lia|]. rewrite Hpow in Hq. lia.
  - intros Heq.
    pose proof (Z.mul_div_le q (2 ^ k) Hkpos) as Hle. rewrite Heq in Hle.
    assert (Hq' : q = 2 ^ (- e)) by lia.
    split; [assumption|]. intros ->. apply Hex; try reflexivity.
    rewrite Hq', Hpow. apply Z.mod_mul. lia.
Qed.

(** Rounding to nearest a value of at most one gives at most one. *)
Lemma binary_round_aux_le_one q e l :
  0 <= q <= 2 ^ (- e) -> e <= -52 -> (q = 2 ^ (- e) -> l = loc_Exact) ->
  SFleb (binary_round_aux prec emax false q e l) SFone = true.
Proof.
  intros Hq He Hl. unfold binary_round_aux.
  pose proof (shr_fexp_le_one q e l Hq He) as H1. cbv zeta in H1.
  destruct (shr_fexp prec emax q e l) as [mrs1 e1]. cbn [fst snd] in H1.
  destruct H1 as (He1 & Hm1 & Hone1).
  pose proof (round_nearest_even_bounds (shr_m mrs1) (loc_of_shr_record mrs1))
    as [Hr Hrex].
  set (m1 := round_nearest_even (shr_m mrs1) (loc_of_shr_record mrs1)) in *.
  assert (Hm1' : 0 <= m1 <= 2 ^ (- e1)).
  { destruct (Z.eq_dec (shr_m mrs1) (2 ^ (- e1))) as [Heq | Hne].
    - destruct (Hone1 Heq) as [Hq' Hloc]. rewrite Hrex by auto. lia.
    - lia. }
  pose proof (shr_fexp_le_one m1 e1 loc_Exact Hm1' He1) as H2. cbv zeta in H2.
  destruct (shr_fexp prec emax m1 e1 loc_Exact) as [mrs2 e2]. cbn [fst snd] in H2.
  destruct H2 as (He2 & Hm2 & _).
  destruct (shr_m mrs2) as [|p|p] eqn:Hp; [reflexivity| |lia].
  replace (e2 <=? emax - prec) with true
    by (symmetry; apply Z.leb_le; change (emax - prec) with 971; lia).
  unfold SFleb, SFone, SFcompare.
  destruct (Z.compare_spec e2 (-52)) as [-> | Hlt | Hgt]; [|reflexivity|lia].
  assert (E : 2 ^ (- -52) = 4503599627370496) by (vm_compute; reflexivity).
  rewrite E in Hm2. rewrite Pos.compare_cont_spec. unfold Pos.switch_Eq.
  destruct (Pos.compare_spec p 4503599627370496); try reflexivity.
  lia.
Qed.

Lemma new_location_zero n : new_location n 0 = loc_Exact.
Proof.
  unfold new_location, new_location_even, new_location_odd.
  destruct (Z.even n); reflexivity.
Qed.

Lemma div_eucl_div_mod a b q r :
  Z.div_eucl a b = (q, r) -> q = a / b /\ r = a mod b.
Proof. unfold Z.div, Z.modulo. intros ->. auto. Qed.

(** The digits of a bounded mantissa: at most 53, and exactly 53 above the
    least exponent. *)
Lemma bounded_digits m e :
  bounded prec emax m e = true ->
  -1074 <= e /\ Zdigits2 (Z.pos m) <= 53 /\ (-1074 < e -> Zdigits2 (Z.pos m) = 53).
Proof.
  unfold bounded, canonical_mantissa. intros H. apply andb_prop in H as [H _].
  apply Z.eqb_eq in H. rewrite fexp_eq in H. cbn [Zdigits2]. lia.
Qed.

Lemma Zdigits2_bounds q :
  0 < q -> 2 ^ (Zdigits2 q - 1) <= q < 2 ^ Zdigits2 q.
Proof.
  intros Hq. rewrite Zdigits2_log2 by assumption.
  replace (Z.log2 q + 1 - 1) with (Z.log2 q) by lia.
  pose proof (Z.log2_spec q Hq). lia.
Qed.

(** The quotient of a positive float by a larger one is at most one. *)
Lemma SFdiv_le_one mx ex my ey :
  bounded prec emax mx ex = true -> bounded prec emax my ey = true ->
  SFleb (S754_finite false mx ex) (S754_finite false my ey) = true ->
  SFleb (SFdiv prec emax (S754_finite false mx ex) (S754_finite false my ey))
        SFone = true.
Proof.
  intros Hbx Hby Hle.
  destruct (bounded_digits _ _ Hbx) as (Hex & Hdx & Hnx).
  destruct (bounded_digits _ _ Hby) as (Hey & Hdy & Hny).
  pose proof (Zdigits2_bounds (Z.pos mx) ltac:(lia)) as Hmx.
  pose proof (Zdigits2_bounds (Z.pos my) ltac:(lia)) as Hmy.
  assert (Hord : ex < ey \/ (ex = ey /\ Z.pos mx <= Z.pos my)).
  { unfold SFleb, SFcompare in Hle.
    destruct (Z.compare_spec ex ey); [right|left; lia|discriminate Hle].
    split; [assumption|]. rewrite Pos.compare_cont_spec in Hle. unfold Pos.switch_Eq in Hle.
    destruct (Pos.compare_spec mx my); try discriminate Hle; lia. }
  (* mantissas, scaled to a common exponent *)
  assert (Hval : forall k, 0 <= k -> Z.pos mx * 2 ^ k <= Z.pos my * 2 ^ (k + (ey - ex))).
  { intros k Hk. rewrite Z.pow_add_r by lia.
    assert (0 < 2 ^ k) by (apply Z.pow_pos_nonneg; lia).
    destruct Hord as [Hlt | [-> Hm]].
    - rewrite (Hny ltac:(lia)) in Hmy.
      assert (Z.pos mx < 2 ^ 53).
      { eapply Z.lt_le_trans; [apply Hmx|]. apply Z.pow_le_mono_r; lia. }
      assert (2 ^ 1 <= 2 ^ (ey - ex)) by (apply Z.pow_le_mono_r; lia).
      change (2 ^ 1) with 2 in *. change (2 ^ (53 - 1)) with 4503599627370496 in Hmy.
      change (2 ^ 53) with 9007199254740992 in *.
      assert (Z.pos mx <= Z.pos my * 2 ^ (ey - ex)) by nia.
      replace (Z.pos my * (2 ^ k * 2 ^ (ey - ex)))
        with (Z.pos my * 2 ^ (ey - ex) * 2 ^ k) by ring.
      apply Z.mul_le_mono_nonneg_r; lia.
    - rewrite Z.sub_diag. change (2 ^ 0) with 1. rewrite Z.mul_1_r.
      apply Z.mul_le_mono_nonneg_r; lia. }
  assert (HD : Zdigits2 (Z.pos mx) + ex - (Zdigits2 (Z.pos my) + ey) <= 0).
  { destruct Hord as [Hlt | [-> Hm]].
    - rewrite (Hny ltac:(lia)). lia.
    - rewrite !Zdigits2_log2 by lia.
      pose proof (Z.log2_le_mono (Z.pos mx) (Z.pos my) Hm). lia. }
  cbn [SFdiv xorb]. unfold SFdiv_core_binary.
  set (e' := Z.min (fexp prec emax (Zdigits2 (Z.pos mx) + ex - (Zdigits2 (Z.pos my) + ey)))
                   (ex - ey)).
  assert (He' : e' <= -53 /\ e' <= ex - ey) by (subst e'; rewrite fexp_eq; lia).
  set (s := ex - ey - e').
  assert (Hs : 0 <= s) by (subst s; lia).
  set (m' := match s with
             | 0 => Z.pos mx
             | Z.pos _ => Z.shiftl (Z.pos mx) s
             | Z.neg _ => 0
             end).
  assert (Hm' : m' = Z.pos mx * 2 ^ s).
  { subst m'. destruct s as [|p|p] eqn:Es; [cbn; lia| |lia].
    now rewrite Z.shiftl_mul_pow2 by lia. }
  destruct (Z.div_eucl m' (Z.pos my)) as [q r] eqn:E.
  apply div_eucl_div_mod in E as [-> ->].
  pose proof (Z.div_mod m' (Z.pos my) ltac:(lia)) as Hdm.
  pose proof (Z.mod_pos_bound m' (Z.pos my) ltac:(lia)) as Hrb.
  set (q := m' / Z.pos my) in *. set (r := m' mod Z.pos my) in *.
  assert (Hbound : m' <= Z.pos my * 2 ^ (- e')).
  { rewrite Hm'. replace (- e') with (s + (ey - ex)) by (subst s; lia).
    now apply Hval. }
  assert (Hq0 : 0 <= q) by (apply Z.div_pos; lia).
  assert (Hqle : q <= 2 ^ (- e')) by (apply Z.div_le_upper_bound; lia).
  apply binary_round_aux_le_one; [lia | lia |].
  intros Heq. replace r with 0 by nia. apply new_location_zero.
Qed.

(** A positive finite float divided by itself is one. *)
Lemma SFdiv_self m e :
  SFdiv prec emax (S754_finite false m e) (S754_finite false m e) = SFone.
Proof.
  cbn [SFdiv xorb]. unfold SFdiv_core_binary.
  rewrite !Z.sub_diag.
  change (Z.min (fexp prec emax 0) 0) with (-53).
  change (0 - -53) with 53.
  cbv beta iota zeta.
  rewrite Z.shiftl_mul_pow2 by lia.
  destruct (Z.div_eucl (Z.pos m * 2 ^ 53) (Z.pos m)) as [q r] eqn:E.
  apply div_eucl_div_mod in E as [Hq Hr].
  rewrite Z.mul_comm, Z.div_mul in Hq by lia.
  rewrite Z.mul_comm, Z.mod_mul in Hr by lia.
  subst q r. rewrite new_location_zero.
  vm_compute. reflexivity.
Qed.

Lemma SFsqrt_sign x :
  SFsqrt prec emax x = S754_nan \/
  SFleb (S754_zero false) (SFsqrt prec emax x) = true.
Proof.
  destruct x as [s|[|]| |[|] m e]; cbn [SFsqrt]; auto.
  destruct (SFsqrt_core_binary prec emax (Z.pos m) e) as [[mz ez] lz].
  unfold binary_round_aux.
  destruct (shr_fexp prec emax mz ez lz) as [mrs1 e1].
  destruct (shr_fexp prec emax _ e1 loc_Exact) as [mrs2 e2].
  destruct (shr_m mrs2); auto.
  destruct (e2 <=? emax - prec); auto.
Qed.

Local Open Scope float_scope.

Lemma Prim2SF_zero : Prim2SF 0 = S754_zero false.
Proof. reflexivity. Qed.

Lemma Prim2SF_one : Prim2SF 1 = SFone.
Proof. reflexivity. Qed.

Lemma Prim2SF_infinity : Prim2SF infinity = S754_infinity false.
Proof. reflexivity. Qed.

(** A square root is NaN or not negative. *)
Lemma sqrt_sign x : is_nan (sqrt x) = true \/ (0 <=? sqrt x) = true.
Proof.
  unfold is_nan. rewrite eqb_spec, leb_spec, sqrt_spec, Prim2SF_zero.
  unfold SF64sqrt.
  destruct (SFsqrt_sign (Prim2SF x)) as [-> | H]; auto.
Qed.

(** Dividing by a finite positive float at least as large gives at most one. *)
Lemma div_le_one v m :
  (0 <=? v) = true -> (v <=? m) = true ->
  (0 <? m) = true -> (m <? infinity) = true ->
  (v / m <=? 1) = true.
Proof.
  rewrite !leb_spec, !ltb_spec, div_spec, Prim2SF_zero, Prim2SF_one, Prim2SF_infinity.
  unfold SF64div.
  pose proof (Prim2SF_valid v) as Vv. pose proof (Prim2SF_valid m) as Vm.
  destruct (Prim2SF v) as [[|]|[|]| |[|] mv ev],
           (Prim2SF m) as [[|]|[|]| |[|] mm em];
    intros H0 Hvm Hm0 Hminf;
    try discriminate H0; try discriminate Hvm; try discriminate Hm0;
    try discriminate Hminf; try reflexivity.
  now apply SFdiv_le_one.
Qed.

(** A finite positive float divided by itself is exactly one. *)
Lemma div_self m : (0 <? m) = true -> (m <? infinity) = true -> m / m = 1.
Proof.
  rewrite !ltb_spec, Prim2SF_zero, Prim2SF_infinity. intros Hm0 Hminf.
  apply Prim2SF_inj. rewrite div_spec, Prim2SF_one. unfold SF64div.
  destruct (Prim2SF m) as [[|]|[|]| |[|] mm em];
    try discriminate Hm0; try discriminate Hminf.
  apply SFdiv_self.
Qed.

End RoundingFacts.

(* ===================================================================== *)
(** ** The waveform worker: properties *)
(* ===================================================================== *)

Module WaveformFacts.

Import Waveform FloatOrder FloatOrderFacts RoundingFacts.
Local Open Scope float_scope.

(** *** [Math.max] *)

Lemma max2_num a b : num (max2 a b) -> num a /\ num b.
Proof.
  unfold num, max2.
  destruct (is_nan a), (is_nan b); cbn; auto; intros H; discriminate H.
Qed.

Lemma max2_spec a b :
  num a -> num b ->
  (max2 a b = a \/ max2 a b = b) /\
  (a <=? max2 a b) = true /\ (b <=? max2 a b) = true.
Proof.
  intros Ha Hb. unfold max2. rewrite Ha, Hb. cbn [orb].
  destruct (a <? b) eqn:Hlt.
  - split; [auto|]. split; [now apply ltb_leb | now apply leb_refl].
  - destruct ((a =? b) && get_sign a) eqn:He.
    + apply andb_prop in He as [He _].
      split; [auto|]. split; [now apply eqb_leb | now apply leb_refl].
    + split; [auto|]. split; [now apply leb_refl | now apply not_ltb_leb].
Qed.

Lemma fold_max2_num l : forall a,
  num (fold_left max2 l a) -> num a /\ Forall num l.
Proof.
  induction l as [|x l IH]; intros a H; cbn in *.
  - auto.
  - apply IH in H as [H1 H2]. apply max2_num in H1 as [Ha Hx]. auto.
Qed.

Lemma fold_max2_spec l : forall a,
  num a -> Forall num l ->
  num (fold_left max2 l a) /\
  (a <=? fold_left max2 l a) = true /\
  Forall (fun v => (v <=? fold_left max2 l a) = true) l /\
  (fold_left max2 l a = a \/ In (fold_left max2 l a) l).
Proof.
  induction l as [|x l IH]; intros a Ha Hl; cbn.
  - repeat split; auto. now apply leb_refl.
  - inversion Hl as [|? ? Hx Hl']; subst.
    destruct (max2_spec a x Ha Hx) as (Hsel & Hle_a & Hle_x).
    assert (Hm : num (max2 a x)) by (destruct Hsel as [-> | ->]; assumption).
    destruct (IH (max2 a x) Hm Hl') as (Hr & Hle & Hall & Hin).
    repeat split.
    + assumption.
    + eapply leb_trans; eassumption.
    + constructor; [eapply leb_trans; eassumption | assumption].
    + destruct Hin as [Hin | Hin]; [|auto].
      rewrite Hin. destruct Hsel as [-> | ->]; auto.
Qed.

Lemma waveformData_length channelData targetPoints :
  length (waveformData channelData targetPoints) = targetPoints.
Proof. unfold waveformData. now rewrite length_map, length_seq. Qed.

(** The two answers of the worker: the normalised envelope when the engine
    takes [targetPoints] arguments, the answer of the [catch] block when it
    does not. *)
Lemma onmessage_try engine channelData targetPoints :
  (targetPoints <= maxArguments engine)%nat ->
  onmessage engine channelData targetPoints
  = {| response_waveformData := normalizedData channelData targetPoints;
       response_error := None |}.
Proof.
  intros H. unfold onmessage. rewrite waveformData_length.
  apply Nat.ltb_ge in H. now rewrite H.
Qed.

Lemma onmessage_catch engine channelData targetPoints :
  (maxArguments engine < targetPoints)%nat ->
  onmessage engine channelData targetPoints
  = {| response_waveformData := [];
       response_error := Some (rangeErrorMessage engine) |}.
Proof.
  intros H. unfold onmessage. rewrite waveformData_length.
  apply Nat.ltb_lt in H. now rewrite H.
Qed.

Lemma onmessage_cases engine channelData targetPoints :
  onmessage engine channelData targetPoints
  = {| response_waveformData := normalizedData channelData targetPoints;
       response_error := None |}
  \/ onmessage engine channelData targetPoints
     = {| response_waveformData := [];
          response_error := Some (rangeErrorMessage engine) |}.
Proof.
  destruct (Nat.le_gt_cases targetPoints (maxArguments engine)) as [H | H].
  - left. now apply onmessage_try.
  - right. now apply onmessage_catch.
Qed.

(** C6, as the code has it: whatever the samples (none included), when the
    number of points asked for is one the engine takes as a number of
    arguments, the worker answers with exactly that many values and with no
    error; when it is larger, [Math.max(...waveformData)] throws and the
    worker answers with no value and the message of the error. *)
Theorem onmessage_length (engine : Engine) (channelData : list float)
    (targetPoints : nat) :
  ((targetPoints <= maxArguments engine)%nat ->
   length (response_waveformData (onmessage engine channelData targetPoints))
   = targetPoints
   /\ response_error (onmessage engine channelData targetPoints) = None)
  /\ ((maxArguments engine < targetPoints)%nat ->
      onmessage engine channelData targetPoints
      = {| response_waveformData := [];
           response_error := Some (rangeErrorMessage engine) |}).
Proof.
  split.
  - intros H. rewrite onmessage_try by assumption.
    split; [|reflexivity]. cbn [response_waveformData].
    unfold normalizedData.
    destruct (0 <? maxAmplitude channelData targetPoints);
      rewrite ?length_map; apply waveformData_length.
  - apply onmessage_catch.
Qed.

Lemma onmessage_length_witness :
  length (response_waveformData (onmessage engine_65536 [0.5; 0.25; -1; 0.125] 2))
  = 2%nat
  /\ response_error (onmessage engine_65536 [0.5; 0.25; -1; 0.125] 2) = None.
Proof.
  apply (onmessage_length engine_65536 [0.5; 0.25; -1; 0.125] 2).
  cbn [maxArguments engine_65536]. lia.
Defined.

(** C6 as stated fails for a number of points that the engine does not
    take as a number of arguments: asked for 200000 points, an engine that
    takes 65536 arguments answers with no value at all. *)
Lemma onmessage_too_many_points :
  onmessage engine_65536 [0.5; 0.25] (Z.to_nat 200000)
  = {| response_waveformData := [];
       response_error := Some "Maximum call stack size exceeded."%string |}
  /\ length (response_waveformData
               (onmessage engine_65536 [0.5; 0.25] (Z.to_nat 200000)))
     <> Z.to_nat 200000.
Proof.
  assert (H : (maxArguments engine_65536 < Z.to_nat 200000)%nat)
    by (cbn [maxArguments engine_65536]; lia).
  rewrite (onmessage_catch engine_65536 [0.5; 0.25] (Z.to_nat 200000) H).
  split; [reflexivity|]. cbn [response_waveformData length]. lia.
Qed.

(** The chunks: with at least [targetPoints] samples every chunk holds
    [samplesPerPoint] samples, at least one; with fewer, every chunk is
    empty. *)
Lemma chunk_bounds (len targetPoints i : nat) :
  (i < targetPoints)%nat ->
  let samplesPerPoint := (len / targetPoints)%nat in
  let start := (i * samplesPerPoint)%nat in
  let end_ := Nat.min (start + samplesPerPoint) len in
  (start <= end_ <= len)%nat
  /\ (targetPoints <= len -> end_ - start = samplesPerPoint /\ 1 <= samplesPerPoint)%nat
  /\ (len < targetPoints -> end_ = start)%nat.
Proof.
  intros Hi samplesPerPoint start end_.
  assert (H : (targetPoints * samplesPerPoint <= len)%nat)
    by (apply Nat.Div0.mul_div_le).
  assert (Hfit : (start + samplesPerPoint <= len)%nat) by (subst start; nia).
  subst end_. rewrite Nat.min_l by assumption.
  split; [lia|]. split.
  - intros Hlen. split; [lia|].
    subst samplesPerPoint. apply Nat.div_str_pos. lia.
  - intros Hlen. subst start samplesPerPoint.
    rewrite Nat.div_small by assumption. lia.
Qed.

(** Every value of [waveformData] is a square root. *)
Lemma waveformData_sqrt channelData targetPoints v :
  In v (waveformData channelData targetPoints) -> exists x, v = sqrt x.
Proof.
  unfold waveformData. intros H. apply in_map_iff in H as (i & <- & _).
  unfold rms. eauto.
Qed.

Lemma waveformData_nonneg channelData targetPoints v :
  In v (waveformData channelData targetPoints) -> num v -> (0 <=? v) = true.
Proof.
  intros Hin Hnum. apply waveformData_sqrt in Hin as [x ->].
  destruct (sqrt_sign x) as [H | H]; [|assumption].
  unfold num in Hnum. congruence.
Qed.

Lemma map_const {A B} (b : B) (l : list A) :
  map (fun _ => b) l = repeat b (length l).
Proof. induction l; cbn; congruence. Qed.

Lemma fold_max2_nan l : fold_left max2 l nan = nan.
Proof. induction l; cbn; auto. Qed.

Lemma Math_max_repeat_nan n : (0 < n)%nat -> Math_max (repeat nan n) = nan.
Proof.
  destruct n as [|n]; [lia|]. intros _. unfold Math_max. cbn [repeat fold_left].
  apply fold_max2_nan.
Qed.

(** C7 (the code against the claim): when the input is shorter than
    [targetPoints], [samplesPerPoint] is 0, every chunk is empty and the value
    pushed for it is [sqrt (0 / 0)], which is NaN and not 0; the maximum is
    then NaN, the test [maxAmplitude > 0] fails and the answer is NaN at every
    point, on every engine that takes [targetPoints] arguments. *)
Theorem short_input_all_nan (engine : Engine) (channelData : list float)
    (targetPoints : nat) :
  (length channelData < targetPoints)%nat ->
  waveformData channelData targetPoints = repeat nan targetPoints
  /\ ((targetPoints <= maxArguments engine)%nat ->
      response_waveformData (onmessage engine channelData targetPoints)
      = repeat nan targetPoints)
  /\ (nan =? 0) = false /\ (0 <=? nan) = false /\ (nan <=? 1) = false.
Proof.
  intros Hlen.
  assert (Hw : waveformData channelData targetPoints = repeat nan targetPoints).
  { unfold waveformData. rewrite Nat.div_small by assumption.
    transitivity (map (fun _ : nat => nan) (seq 0 targetPoints)).
    - apply map_ext. intros i. unfold rms. rewrite Nat.mul_0_r. reflexivity.
    - now rewrite map_const, length_seq. }
  split; [assumption|]. split; [|repeat split].
  intros Hargs. rewrite onmessage_try by assumption. cbn [response_waveformData].
  unfold normalizedData, maxAmplitude. rewrite Hw, Math_max_repeat_nan by lia.
  reflexivity.
Qed.

Lemma short_input_all_nan_witness :
  waveformData [0.5; 0.25] 3 = [nan; nan; nan]
  /\ response_waveformData (onmessage engine_65536 [0.5; 0.25] 3)
     = [nan; nan; nan].
Proof.
  destruct (short_input_all_nan engine_65536 [0.5; 0.25] 3) as (H1 & H2 & _).
  - cbn. lia.
  - split; [exact H1|]. apply H2. cbn [maxArguments engine_65536]. lia.
Defined.

(** The largest of numbers that are at most one, one of them being one,
    is one. *)
Lemma Math_max_one l :
  Forall (fun y => (y <=? 1) = true) l -> In 1 l -> Math_max l = 1.
Proof.
  intros Hall Hin. unfold Math_max.
  assert (Hnum : Forall num l).
  { eapply Forall_impl; [|exact Hall]. intros y Hy. now apply leb_num in Hy. }
  destruct (fold_max2_spec l neg_infinity eq_refl Hnum) as (_ & _ & Hle & Hsel).
  set (r := fold_left max2 l neg_infinity) in *.
  assert (H1r : (1 <=? r) = true).
  { rewrite Forall_forall in Hle. now apply Hle. }
  assert (Hr1 : (r <=? 1) = true).
  { destruct Hsel as [Hr | Hr]; [rewrite Hr in H1r; discriminate H1r|].
    rewrite Forall_forall in Hall. now apply Hall. }
  eapply eqb_finite_eq; [exact Prim2SF_one|]. now apply leb_antisym.
Qed.

(** C8, as the code has it: when the largest value is positive and finite,
    every value is divided by it and the largest value of the answer is
    exactly 1; when it is zero, the values are returned as they are, and all
    of them are zero. *)
Theorem normalizedData_spec (channelData : list float) (targetPoints : nat) :
  let values := waveformData channelData targetPoints in
  let largest := maxAmplitude channelData targetPoints in
  ((0 <? largest) = true -> (largest <? infinity) = true ->
   normalizedData channelData targetPoints = map (fun val => val / largest) values
   /\ Math_max (normalizedData channelData targetPoints) = 1)
  /\
  ((largest =? 0) = true ->
   normalizedData channelData targetPoints = values
   /\ Forall (fun val => (val =? 0) = true) values).
Proof.
  intros values largest.
  assert (Hfacts : num largest ->
          Forall num values /\
          Forall (fun v => (v <=? largest) = true) values /\
          (largest = neg_infinity \/ In largest values)).
  { intros Hn. destruct (fold_max2_num values neg_infinity Hn) as [_ Hnum].
    destruct (fold_max2_spec values neg_infinity eq_refl Hnum) as (_ & _ & Hle & Hsel).
    auto. }
  split.
  - intros Hpos Hfin.
    assert (Heq : normalizedData channelData targetPoints
                  = map (fun val => val / largest) values).
    { unfold normalizedData. fold largest. now rewrite Hpos. }
    split; [assumption|]. rewrite Heq.
    destruct Hfacts as (Hnum & Hle & Hsel).
    { apply ltb_leb in Hpos. now apply leb_num in Hpos. }
    apply Math_max_one.
    + rewrite Forall_forall in *. intros y Hy.
      apply in_map_iff in Hy as (v & <- & Hv).
      apply div_le_one; auto.
      apply (waveformData_nonneg channelData targetPoints); auto.
    + destruct Hsel as [Hr | Hr]; [rewrite Hr in Hpos; discriminate Hpos|].
      apply in_map_iff. exists largest. split; [|assumption].
      now apply div_self.
  - intros Hzero.
    assert (Hle0 : (largest <=? 0) = true) by now apply eqb_leb.
    destruct Hfacts as (Hnum & Hle & _).
    { now apply leb_num in Hle0. }
    split.
    + unfold normalizedData. fold largest.
      destruct (0 <? largest) eqn:Hpos; [|reflexivity].
      apply ltb_not_leb in Hpos. congruence.
    + rewrite Forall_forall in *. intros v Hv.
      apply leb_antisym.
      * eapply leb_trans; [apply Hle; assumption | assumption].
      * apply (waveformData_nonneg channelData targetPoints); auto.
Qed.

Lemma normalizedData_spec_witness :
  Math_max (normalizedData [0.5; 0.25; -1; 0.125] 2) = 1
  /\ normalizedData [0; 0; 0; 0] 2 = [0; 0].
Proof.
  split.
  - apply (normalizedData_spec [0.5; 0.25; -1; 0.125] 2); reflexivity.
  - apply (normalizedData_spec [0; 0; 0; 0] 2). reflexivity.
Defined.

(** C8 as stated fails on an infinite sample: the largest value is
    [Infinity], which is positive, and [Infinity / Infinity] is NaN. *)
Lemma normalizedData_infinite_sample :
  (0 <? maxAmplitude [infinity] 1) = true
  /\ normalizedData [infinity] 1 = [nan]
  /\ Math_max (normalizedData [infinity] 1) <> 1.
Proof.
  split; [reflexivity|]. split; [reflexivity|].
  intros H. apply (f_equal is_nan) in H. discriminate H.
Qed.

End WaveformFacts.

(* ===================================================================== *)
(** ** Tests on rationals *)
(* ===================================================================== *)

Module NumberFacts.

Local Open Scope Q_scope.

Lemma Qgeb_true x y : Qgeb x y = true <-> y <= x.
Proof. apply Qle_bool_iff. Qed.

Lemma Qgeb_refl x : Qgeb x x = true.
Proof. apply Qgeb_true. lra. Qed.

Lemma Qltb_lt x y : Qltb x y = true <-> x < y.
Proof.
  unfold Qltb. rewrite negb_true_iff.
  destruct (Qle_bool y x) eqn:E.
  - apply Qle_bool_iff in E. split; [discriminate|]. intros H. lra.
  - split; [intros _|reflexivity]. apply Qnot_le_lt. intros H.
    apply Qle_bool_iff in H. congruence.
Qed.

Lemma Qltb_ge x y : Qltb x y = false <-> y <= x.
Proof. unfold Qltb. rewrite negb_false_iff. apply Qle_bool_iff. Qed.

End NumberFacts.

(* ===================================================================== *)
(** ** The playback provider: properties *)
(* ===================================================================== *)

Module PlaybackFacts.

Import Playback NumberFacts.
Local Open Scope Q_scope.

(** *** Lists updated in place *)

Lemma update_length {A} (f : A -> A) l : forall i, length (update i f l) = length l.
Proof. induction l as [|x l IH]; intros [|i]; cbn; auto. Qed.

Lemma nth_error_update_eq {A} (f : A -> A) l : forall i,
  nth_error (update i f l) i = option_map f (nth_error l i).
Proof. induction l as [|x l IH]; intros [|i]; cbn; auto. Qed.

Lemma nth_error_update_neq {A} (f : A -> A) l : forall i j,
  i <> j -> nth_error (update i f l) j = nth_error l j.
Proof.
  induction l as [|x l IH]; intros [|i] [|j] H; cbn; auto; try congruence.
Qed.

Lemma nth_error_snoc {A} (l : list A) x : nth_error (l ++ [x]) (length l) = Some x.
Proof. induction l; cbn; auto. Qed.

Lemma update_stop_stopped n l :
  forall src, nth_error (update n mark_stopped l) n = Some src -> stopped src = true.
Proof.
  intros src. rewrite nth_error_update_eq.
  destruct (nth_error l n); cbn; [|discriminate]. now intros [= <-].
Qed.

Lemma update_stop_keeps n m l :
  (forall src, nth_error l m = Some src -> stopped src = true) ->
  forall src, nth_error (update n mark_stopped l) m = Some src -> stopped src = true.
Proof.
  intros H. destruct (Nat.eq_dec n m) as [-> | Hne]; [apply update_stop_stopped|].
  intros src. rewrite nth_error_update_neq by assumption. apply H.
Qed.

Lemma filter_not_pending h fs : ~ In h (filter (fun h' => negb (Nat.eqb h' h)) fs).
Proof. rewrite filter_In. intros [_ H]. now rewrite Nat.eqb_refl in H. Qed.

Lemma filter_pending h h' fs :
  In h' (filter (fun x => negb (Nat.eqb x h)) fs) -> In h' fs.
Proof. rewrite filter_In. tauto. Qed.

(** *** [stopPlayback] *)

(** Name every field of a state. *)
Ltac open_state s :=
  let b := fresh "b" in
  destruct s as [playing looping time dur history ctxRef bufRef srcRef gainRef
                 fadeRef startRef pauseRef frameRef pointsRef loopingRef
                 scheduledRef nextRef b];
  destruct b as [ctxs srcs gns pending last waiting log];
  cbn in *.

(** Compute, leaving the arithmetic of times as it is written. *)
Ltac step := cbn -[Qplus Qminus Qopp Qmult Qle_bool Qgeb Qltb Qmax Qle Qlt].

Lemma stopPlayback_refs s :
  sourceNodeRef (stopPlayback s) = None
  /\ nextSourceRef (stopPlayback s) = None
  /\ animationFrameRef (stopPlayback s) = O
  /\ crossfadeScheduledRef (stopPlayback s) = false.
Proof.
  open_state s. unfold stopPlayback; cbn.
  destruct srcRef, nextRef, frameRef; cbn; auto.
Qed.

(** What [stopPlayback] leaves as it was. *)
Lemma stopPlayback_frame s :
  playingRecordingId (stopPlayback s) = playingRecordingId s
  /\ isLooping (stopPlayback s) = isLooping s
  /\ currentTime (stopPlayback s) = currentTime s
  /\ duration (stopPlayback s) = duration s
  /\ playHistory (stopPlayback s) = playHistory s
  /\ audioContextRef (stopPlayback s) = audioContextRef s
  /\ audioBufferRef (stopPlayback s) = audioBufferRef s
  /\ gainNodeRef (stopPlayback s) = gainNodeRef s
  /\ crossfadeGainNodeRef (stopPlayback s) = crossfadeGainNodeRef s
  /\ startTimeRef (stopPlayback s) = startTimeRef s
  /\ pauseTimeRef (stopPlayback s) = pauseTimeRef s
  /\ loopPointsRef (stopPlayback s) = loopPointsRef s
  /\ isLoopingRef (stopPlayback s) = isLoopingRef s.
Proof.
  open_state s. unfold stopPlayback; cbn.
  destruct srcRef, nextRef, frameRef; cbn; repeat split.
Qed.

Lemma stopPlayback_browser s :
  contexts (browser (stopPlayback s)) = contexts (browser s)
  /\ length (sources (browser (stopPlayback s))) = length (sources (browser s))
  /\ gains (browser (stopPlayback s)) = gains (browser s)
  /\ lastFrame (browser (stopPlayback s)) = lastFrame (browser s)
  /\ suspensions (browser (stopPlayback s)) = suspensions (browser s)
  /\ console (browser (stopPlayback s)) = console (browser s)
  /\ (forall h, In h (frames (browser (stopPlayback s))) -> In h (frames (browser s)))
  /\ (animationFrameRef s <> O ->
      ~ In (animationFrameRef s) (frames (browser (stopPlayback s)))).
Proof.
  open_state s. unfold stopPlayback; cbn.
  destruct srcRef, nextRef, frameRef; cbn;
    rewrite ?update_length; repeat split; auto; try congruence;
    try (intros h; apply filter_pending);
    try (intros _; apply filter_not_pending).
Qed.

Lemma stopPlayback_stops s :
  (forall n, sourceNodeRef s = Some n -> is_stopped n (stopPlayback s))
  /\ (forall n, nextSourceRef s = Some n -> is_stopped n (stopPlayback s)).
Proof.
  open_state s. unfold stopPlayback, is_stopped; cbn.
  split; intros x Hx; subst.
  - destruct nextRef, frameRef; cbn;
      repeat first [ apply update_stop_stopped | apply update_stop_keeps ].
  - destruct srcRef, frameRef; cbn;
      repeat first [ apply update_stop_stopped | apply update_stop_keeps ].
Qed.

Lemma stopPlayback_idempotent s : stopPlayback (stopPlayback s) = stopPlayback s.
Proof.
  open_state s. unfold stopPlayback; cbn.
  destruct srcRef, nextRef, frameRef; reflexivity.
Qed.

(** *** [startPlayback] *)


Lemma nth_error_snoc_old {A} (l : list A) x i v :
  nth_error l i = Some v -> nth_error (l ++ [x]) i = Some v.
Proof.
  intros H. rewrite nth_error_app1; [assumption|].
  apply nth_error_Some. congruence.
Qed.

Lemma nth_error_snoc_len {A} (l : list A) n v :
  length l = n -> nth_error (l ++ [v]) n = Some v.
Proof. intros <-. apply nth_error_snoc. Qed.





(** *** [updatePlayback] *)




(** C3, as the code has it: [stopPlayback] stops the current and the
    queued source and cancels the pending tick, whatever the state, and a
    second call changes nothing more; it leaves the playing id, the audio
    context and the buffer as they were, so [isPlaying] answers as before. *)
Theorem stopPlayback_spec (s : Provider) :
  sourceNodeRef (stopPlayback s) = None
  /\ nextSourceRef (stopPlayback s) = None
  /\ animationFrameRef (stopPlayback s) = O
  /\ (forall n, sourceNodeRef s = Some n \/ nextSourceRef s = Some n ->
                is_stopped n (stopPlayback s))
  /\ (animationFrameRef s <> O ->
      ~ In (animationFrameRef s) (frames (browser (stopPlayback s))))
  /\ stopPlayback (stopPlayback s) = stopPlayback s
  /\ (sourceNodeRef s = None -> nextSourceRef s = None ->
      animationFrameRef s = O -> crossfadeScheduledRef s = false ->
      stopPlayback s = s)
  /\ (forall id loop, isPlaying id loop (stopPlayback s) = isPlaying id loop s)
  /\ playingRecordingId (stopPlayback s) = playingRecordingId s
  /\ audioContextRef (stopPlayback s) = audioContextRef s
  /\ audioBufferRef (stopPlayback s) = audioBufferRef s
  /\ contexts (browser (stopPlayback s)) = contexts (browser s).
Proof.
  destruct (stopPlayback_refs s) as (H1 & H2 & H3 & _).
  destruct (stopPlayback_frame s) as (F1 & F2 & _ & _ & _ & F6 & F7 & _).
  destruct (stopPlayback_browser s) as (B1 & _ & _ & _ & _ & _ & _ & B8).
  destruct (stopPlayback_stops s) as (S1 & S2).
  repeat split; auto.
  - intros n [H | H]; auto.
  - apply stopPlayback_idempotent.
  - open_state s. now intros -> -> -> ->.
  - intros id loop. unfold isPlaying. now rewrite F1, F2.
Qed.

Lemma stopPlayback_spec_witness :
  is_stopped O (stopPlayback playing_A)
  /\ ~ In 1%nat (frames (browser (stopPlayback playing_A))).
Proof.
  destruct (stopPlayback_spec playing_A) as (_ & _ & _ & H4 & H5 & _).
  split.
  - apply H4. left. reflexivity.
  - apply H5. discriminate.
Defined.

(** C3 as stated fails: after [stopPlayback] on a playing session the id is
    still reported as playing and the audio context is still open. *)
Lemma stopPlayback_keeps_session :
  isPlaying "A" None playing_A = true
  /\ isPlaying "A" None (stopPlayback playing_A) = true
  /\ audioContextRef (stopPlayback playing_A) = Some O
  /\ context_state O (stopPlayback playing_A) = Some running.
Proof. repeat split. Qed.

(** *** The play history *)

Lemma startPlayback_run_history buf startFrom fadeIn now s :
  playHistory (fst (startPlayback_run buf startFrom fadeIn now s)) = playHistory s.
Proof.
  open_state s. unfold startPlayback_run, stopPlayback; step.
  destruct srcRef, nextRef, frameRef; step;
    destruct loopingRef, pointsRef; step;
    repeat match goal with
    | |- context [if ?b then _ else _] => destruct b; step
    end; reflexivity.
Qed.

Lemma startPlayback_history startFrom fadeIn now s :
  playHistory (fst (startPlayback startFrom fadeIn now s)) = playHistory s.
Proof.
  unfold startPlayback.
  destruct (audioContextRef s) as [c|]; [|open_state s; reflexivity].
  destruct (audioBufferRef s) as [buf|]; [|open_state s; reflexivity].
  destruct (gainNodeRef s) as [g|]; [|open_state s; reflexivity].
  destruct (context_state c s) as [[| |]|]; try (open_state s; reflexivity).
  apply startPlayback_run_history.
Qed.

Lemma resume_history k now s : playHistory (fst (resume k now s)) = playHistory s.
Proof.
  unfold resume. rewrite startPlayback_run_history. open_state s. reflexivity.
Qed.

Lemma close_current_context_history s :
  playHistory (close_current_context s) = playHistory s.
Proof.
  unfold close_current_context.
  destruct (audioContextRef s); [|reflexivity].
  destruct (context_state _ _) as [[| |]|]; open_state s; reflexivity.
Qed.

Lemma playRecording_catch_history s :
  playHistory (playRecording_catch s) = playHistory s.
Proof. open_state s. reflexivity. Qed.

Lemma next_frame_history s h :
  playHistory (set_animationFrameRef h (on_browser requestAnimationFrame s))
  = playHistory s.
Proof. open_state s. reflexivity. Qed.

Lemma unique_In ids x : In x (unique ids) <-> In x ids.
Proof.
  induction ids as [|id rest IH]; cbn; [tauto|].
  rewrite filter_In, IH. destruct (String.eqb_spec x id) as [-> | Hne]; cbn.
  - tauto.
  - intuition congruence.
Qed.

Lemma unique_NoDup ids : NoDup (unique ids).
Proof.
  induction ids as [|id rest IH]; cbn; constructor.
  - rewrite filter_In, String.eqb_refl. cbn. intros [_ H]. discriminate H.
  - now apply NoDup_filter.
Qed.

Section Play.

Variable Blob : Type.
Variable decodeAudioData : Blob -> option AudioBuffer.

Abbreviation play := (playRecording Blob decodeAudioData).

(** C2: a call of [playRecording] for the recording that is playing, with
    the loop flag it plays with, is a stop.  The source is stopped, the audio
    context closed, the pending tick cancelled; no context, source or tick is
    created; the refs are cleared and no recording is reported as playing. *)
Theorem playRecording_toggle (s : Provider) (id : string) (audioBlob : Blob)
    (loop : bool) (loopPoints : option LoopPoints) (dateNow : Z) (now : Q) :
  playingRecordingId s = Some id -> isLooping s = loop ->
  let s' := fst (play id audioBlob loop loopPoints dateNow now s) in
  snd (play id audioBlob loop loopPoints dateNow now s) = Fulfilled
  /\ (forall n, sourceNodeRef s = Some n -> is_stopped n s')
  /\ (forall c st, audioContextRef s = Some c -> context_state c s = Some st ->
                   context_state c s' = Some closed)
  /\ (animationFrameRef s <> O -> ~ In (animationFrameRef s) (frames (browser s')))
  /\ sourceNodeRef s' = None /\ animationFrameRef s' = O
  /\ audioContextRef s' = None /\ audioBufferRef s' = None /\ gainNodeRef s' = None
  /\ length (contexts (browser s')) = length (contexts (browser s))
  /\ length (sources (browser s')) = length (sources (browser s))
  /\ lastFrame (browser s') = lastFrame (browser s)
  /\ playHistory s' = playHistory s
  /\ playingRecordingId s' = None /\ isLooping s' = false /\ isLoopingRef s' = false
  /\ (forall id' loop', isPlaying id' loop' s' = false).
Proof.
  intros Hid Hloop. open_state s. subst playing looping.
  unfold playRecording; cbn. rewrite String.eqb_refl, eqb_reflx; cbn.
  unfold stopPlayback, close_current_context, context_state, is_stopped; cbn.
  destruct srcRef as [x|], nextRef as [y|], frameRef as [|h], ctxRef as [c|]; cbn;
    try (destruct (nth_error ctxs c) as [[| |]|] eqn:Ec; cbn);
    rewrite ?update_length;
    (split; [reflexivity|]);
    (split; [intros n Hn; try discriminate Hn; try injection Hn as <-;
             repeat first [ apply update_stop_stopped | apply update_stop_keeps ]|]);
    (split; [intros c' st Hc Hst; try discriminate Hc; try injection Hc as <-;
             rewrite ?nth_error_update_eq, ?Hst; cbn; congruence|]);
    (split; [intros Hh; try congruence; apply filter_not_pending|]);
    repeat split; try reflexivity;
    intros id' [loop'|]; reflexivity.
Qed.

Lemma not_toggle (s : Provider) (id : string) (loop : bool) :
  ~ (playingRecordingId s = Some id /\ isLooping s = loop) ->
  match playingRecordingId s with
  | Some id' => String.eqb id' id
  | None => false
  end && Bool.eqb (isLooping s) loop = false.
Proof.
  intros H. destruct (playingRecordingId s) as [id'|]; [|reflexivity].
  destruct (String.eqb_spec id' id) as [-> | Hne]; [|reflexivity].
  destruct (Bool.eqb (isLooping s) loop) eqn:E; [|reflexivity].
  apply eqb_prop in E. exfalso. auto.
Qed.

(** C4, as the code has it: when the bytes do not decode, the provider
    tears down what was playing, starts nothing, logs the failure to the
    console and lets the returned promise be fulfilled; no recording is
    reported as playing afterward and the play history is unchanged. *)
Theorem playRecording_decode_failure (s : Provider) (id : string)
    (audioBlob : Blob) (loop : bool) (loopPoints : option LoopPoints)
    (dateNow : Z) (now : Q) :
  ~ (playingRecordingId s = Some id /\ isLooping s = loop) ->
  decodeAudioData audioBlob = None ->
  let s' := fst (play id audioBlob loop loopPoints dateNow now s) in
  snd (play id audioBlob loop loopPoints dateNow now s) = Fulfilled
  /\ console (browser s') = console (browser s) ++ ["Error playing audio:"%string]
  /\ playingRecordingId s' = None /\ isLooping s' = false /\ isLoopingRef s' = false
  /\ (forall id' loop', isPlaying id' loop' s' = false)
  /\ sourceNodeRef s' = None /\ animationFrameRef s' = O
  /\ (forall n, sourceNodeRef s = Some n -> is_stopped n s')
  /\ (forall c st, audioContextRef s = Some c -> context_state c s = Some st ->
                   context_state c s' = Some closed)
  /\ (animationFrameRef s <> O -> ~ In (animationFrameRef s) (frames (browser s')))
  /\ length (sources (browser s')) = length (sources (browser s))
  /\ lastFrame (browser s') = lastFrame (browser s)
  /\ playHistory s' = playHistory s.
Proof.
  intros Hnot Hdec. cbv zeta. unfold playRecording.
  rewrite (not_toggle s id loop Hnot), Hdec. clear Hnot.
  open_state s.
  unfold playRecording_catch, stopPlayback, close_current_context, context_state,
    is_stopped; step.
  destruct srcRef as [x|], nextRef as [y|], frameRef as [|h], ctxRef as [c|]; step;
    try (destruct (nth_error ctxs c) as [[| |]|] eqn:Ec; step);
    rewrite ?update_length;
    do 2 (split; [reflexivity|]);
    do 3 (split; [reflexivity|]);
    (split; [intros id' [loop'|]; reflexivity|]);
    do 2 (split; [reflexivity|]);
    (split; [intros n Hn; try discriminate Hn; try injection Hn as <-;
             repeat first [ apply update_stop_stopped | apply update_stop_keeps ]|]);
    (split; [intros c' st Hc Hst; try discriminate Hc; try injection Hc as <-;
             apply nth_error_snoc_old;
             rewrite ?nth_error_update_eq, ?Hst; cbn; congruence|]);
    (split; [intros Hh; try congruence; apply filter_not_pending|]);
    repeat split; reflexivity.
Qed.

(** C9: a play whose bytes decode puts the entry (id, [Date.now()]) at the
    head of the history, in place of the older entries of that recording and
    within the 1000 entries kept; and the ids given as recently played are,
    each once, the ids of the entries whose timestamp is later than seven
    days before the [Date.now()] read for the list. *)
Theorem play_history_spec :
  (forall (s : Provider) (id : string) (audioBlob : Blob) (loop : bool)
          (loopPoints : option LoopPoints) (dateNow : Z) (now : Q)
          (audioBuffer : AudioBuffer),
     ~ (playingRecordingId s = Some id /\ isLooping s = loop) ->
     decodeAudioData audioBlob = Some audioBuffer ->
     let s' := fst (play id audioBlob loop loopPoints dateNow now s) in
     playHistory s'
     = firstn 1000 ({| recordingId := id; timestamp := dateNow |}
                    :: filter (fun e => negb (String.eqb (recordingId e) id))
                              (playHistory s))
     /\ hd_error (playHistory s') = Some {| recordingId := id; timestamp := dateNow |})
  /\ (forall (dateNow : Z) (s : Provider) (id : string),
        In id (recentlyPlayedRecordings dateNow s)
        <-> exists e, In e (playHistory s) /\ recordingId e = id
                      /\ (dateNow - 7 * 24 * 60 * 60 * 1000 < timestamp e)%Z)
  /\ (forall (dateNow : Z) (s : Provider),
        NoDup (recentlyPlayedRecordings dateNow s)).
Proof.
  split; [|split].
  - intros s id audioBlob loop loopPoints dateNow now audioBuffer Hnot Hdec.
    cbv zeta.
    assert (H : playHistory (fst (play id audioBlob loop loopPoints dateNow now s))
                = firstn 1000 ({| recordingId := id; timestamp := dateNow |}
                     :: filter (fun e => negb (String.eqb (recordingId e) id))
                               (playHistory s))).
    { pose proof (close_current_context_history (stopPlayback s)) as Hc.
      pose proof (stopPlayback_frame s) as (_ & _ & _ & _ & F5 & _).
      rewrite F5 in Hc.
      unfold playRecording. rewrite (not_toggle s id loop Hnot), Hdec.
      match goal with
      | |- context [startPlayback ?a ?b ?c ?d] =>
          pose proof (startPlayback_history a b c d) as H1;
          destruct (startPlayback a b c d) as [s1 [| |k]]
      end; cbn [fst] in H1; cbv beta iota zeta;
        try (pose proof (resume_history k now s1) as H2;
             destruct (resume k now s1) as [s2 [| |k2]]; cbn [fst] in H2;
             rewrite H1 in H2; clear H1; rename H2 into H1);
        cbv beta iota zeta; cbn [fst];
        rewrite ?playRecording_catch_history, ?next_frame_history, H1;
        destruct (close_current_context (stopPlayback s)); cbn in *;
        now subst. }
    split; [exact H|]. rewrite H. reflexivity.
  - intros dateNow s id. unfold recentlyPlayedRecordings.
    rewrite unique_In, in_map_iff. split.
    + intros (e & He & Hin). apply filter_In in Hin as [Hin Ht].
      exists e. repeat split; auto. now apply Z.ltb_lt.
    + intros (e & Hin & He & Ht). exists e. split; [assumption|].
      apply filter_In. split; [assumption|]. now apply Z.ltb_lt.
  - intros dateNow s. apply unique_NoDup.
Qed.

End Play.

Lemma playRecording_decode_failure_witness :
  snd failed_A = Fulfilled
  /\ console (browser (fst failed_A)) = ["Error playing audio:"%string]
  /\ isPlaying "A" None (fst failed_A) = false.
Proof.
  pose proof (playRecording_decode_failure (list nat) decode_example mount
                "A"%string [] false None 1000%Z 0) as H.
  cbv zeta in H. destruct H as (H1 & H2 & _ & _ & _ & H6 & _).
  - intros [H _]. discriminate H.
  - reflexivity.
  - split; [exact H1|]. split; [exact H2|]. apply H6.
Defined.

(** C4 as stated fails: after a play whose bytes do not decode, the audio
    context created for the attempt is still open and still held by the
    provider, and the promise returned to the caller is fulfilled. *)
Lemma decode_failure_keeps_context :
  decode_example [] = None
  /\ snd failed_A = Fulfilled
  /\ audioContextRef (fst failed_A) = Some O
  /\ context_state O (fst failed_A) = Some running.
Proof. repeat split. Qed.

Lemma play_history_spec_witness :
  playHistory playing_A = [{| recordingId := "A"; timestamp := 1000 |}]
  /\ hd_error (playHistory playing_A)
     = Some {| recordingId := "A"; timestamp := 1000 |}.
Proof.
  refine (proj1 (play_history_spec (list nat) decode_example) mount "A"%string
                [1%nat] false None 1000%Z 0 {| buffer_duration := 10 |} _ eq_refl).
  intros [H _]. discriminate H.
Defined.

Lemma playRecording_toggle_witness :
  snd (play_example "A" [1%nat] false None 2000 1 playing_A) = Fulfilled
  /\ context_state O (fst (play_example "A" [1%nat] false None 2000 1 playing_A))
     = Some closed
  /\ isPlaying "A" None (fst (play_example "A" [1%nat] false None 2000 1 playing_A))
     = false.
Proof.
  pose proof (playRecording_toggle (list nat) decode_example playing_A "A"
                [1%nat] false None 2000 1 eq_refl eq_refl) as H.
  cbv zeta in H. destruct H as (H1 & _ & H3 & H).
  split; [exact H1|]. split; [exact (H3 O running eq_refl eq_refl)|]. apply H.
Defined.

End PlaybackFacts.

(* ===================================================================== *)
(** ** Lists: windows, positions, repetitions *)
(* ===================================================================== *)

Module ListFacts.

Lemma In_firstn {A} (x : A) l : forall n, In x (firstn n l) -> In x l.
Proof.
  induction l as [|y l IH]; intros [|n]; cbn; try tauto.
  intros [H | H]; [now left | right; eauto].
Qed.

Lemma In_skipn {A} (x : A) l : forall n, In x (skipn n l) -> In x l.
Proof.
  induction l as [|y l IH]; intros [|n]; cbn; try tauto.
  intros H. right. eauto.
Qed.

Lemma map_nth_seq {A B} (g : A -> B) (d : A) (l : list A) :
  map (fun i => g (nth i l d)) (seq 0 (length l)) = map g l.
Proof.
  rewrite <- (map_map (fun i => nth i l d) g). f_equal.
  apply nth_ext with (d := d) (d' := d).
  - now rewrite length_map, length_seq.
  - intros n Hn. rewrite length_map, length_seq in Hn.
    rewrite (nth_indep _ d (nth 0 l d)) by (now rewrite length_map, length_seq).
    rewrite (map_nth (fun i => nth i l d) (seq 0 (length l)) 0%nat n).
    now rewrite seq_nth.
Qed.

Lemma NoDup_map_filter {A B} (f : A -> B) (p : A -> bool) l :
  NoDup (map f l) -> NoDup (map f (filter p l)).
Proof.
  induction l as [|x l IH]; cbn; [auto|]. intros H.
  inversion H as [|? ? Hx Hl]; subst. destruct (p x); cbn; auto.
  constructor; auto. intros Hin. apply Hx.
  apply in_map_iff in Hin as (y & Hy & Hin). apply filter_In in Hin as [Hin _].
  apply in_map_iff. eauto.
Qed.

Lemma NoDup_firstn {A} n (l : list A) : NoDup l -> NoDup (firstn n l).
Proof.
  revert n. induction l as [|x l IH]; intros [|n] H; cbn; try constructor.
  - inversion H; subst. intros Hin. apply In_firstn in Hin. contradiction.
  - inversion H; subst. auto.
Qed.

End ListFacts.

(* ===================================================================== *)
(** ** The envelope, chunk by chunk: properties *)
(* ===================================================================== *)

Module EnvelopeFacts.

Import Waveform Envelope FloatOrder FloatOrderFacts RoundingFacts WaveformFacts.
Import ListFacts.
Local Open Scope float_scope.

Lemma length_concat_chunks (chunks : list (list float)) k :
  Forall (fun c => length c = k) chunks ->
  length (concat chunks) = (length chunks * k)%nat.
Proof.
  induction 1 as [|c cs Hc _ IH]; cbn; [reflexivity|].
  rewrite length_app, IH, Hc. reflexivity.
Qed.

Lemma chunk_at (chunks : list (list float)) (rest : list float) k :
  Forall (fun c => length c = k) chunks ->
  forall i, (i < length chunks)%nat ->
  firstn k (skipn (i * k) (concat chunks ++ rest)) = nth i chunks [].
Proof.
  induction 1 as [|c cs Hc _ IH]; intros i Hi; cbn in Hi; [lia|].
  cbn [concat]. rewrite <- app_assoc. destruct i as [|j]; cbn [Nat.mul nth].
  - cbn [skipn]. rewrite firstn_app, Hc, Nat.sub_diag. cbn [firstn].
    rewrite app_nil_r. rewrite <- Hc. apply firstn_all.
  - rewrite skipn_app, Hc.
    replace (k + j * k - k)%nat with (j * k)%nat by lia.
    rewrite skipn_all2 by lia. cbn [app]. apply IH. lia.
Qed.

(** X1: the envelope of a signal cut into [targetPoints] chunks of one
    length, followed by fewer than [targetPoints] samples: point [i] is the
    RMS of chunk [i], and the samples after the last chunk are not read. *)
Theorem waveformData_chunks (chunks : list (list float)) (rest : list float)
    (k : nat) :
  Forall (fun c => length c = k) chunks ->
  (length rest < length chunks)%nat ->
  waveformData (concat chunks ++ rest) (length chunks) = map chunk_rms chunks
  /\ (forall engine,
        onmessage engine (concat chunks ++ rest) (length chunks)
        = onmessage engine (concat chunks) (length chunks)).
Proof.
  intros Hk Hrest.
  assert (Hw : forall rest', (length rest' < length chunks)%nat ->
            waveformData (concat chunks ++ rest') (length chunks)
            = map chunk_rms chunks).
  { clear rest Hrest. intros rest Hrest.
    unfold waveformData.
    rewrite length_app, (length_concat_chunks chunks k Hk).
    assert (Hq : ((length chunks * k + length rest) / length chunks = k)%nat).
    { symmetry. apply (Nat.div_unique _ _ _ (length rest)); lia. }
    rewrite Hq. rewrite <- (map_nth_seq chunk_rms [] chunks).
    apply map_ext_in. intros i Hi. apply in_seq in Hi.
    unfold rms, sumSquares, chunk_rms.
    rewrite length_app, (length_concat_chunks chunks k Hk).
    assert (Hend : Nat.min (i * k + k) (length chunks * k + length rest)
                   = (i * k + k)%nat) by nia.
    rewrite Hend.
    replace (i * k + k - i * k)%nat with k by lia.
    replace (Z.of_nat (i * k + k) - Z.of_nat (i * k))%Z with (Z.of_nat k) by lia.
    rewrite (chunk_at chunks rest k Hk i) by lia.
    assert (Hlen : length (nth i chunks []) = k).
    { rewrite Forall_forall in Hk. apply Hk. apply nth_In. lia. }
    now rewrite Hlen. }
  split; [now apply Hw|].
  assert (H0 : waveformData (concat chunks) (length chunks) = map chunk_rms chunks).
  { rewrite <- (app_nil_r (concat chunks)). apply Hw. cbn. lia. }
  intros engine. unfold onmessage, normalizedData, maxAmplitude.
  now rewrite (Hw rest Hrest), H0.
Qed.

Lemma waveformData_chunks_witness :
  waveformData [0.5; 0.25; -1; 0.125; 3] 2
  = [chunk_rms [0.5; 0.25]; chunk_rms [-1; 0.125]].
Proof.
  apply (waveformData_chunks [[0.5; 0.25]; [-1; 0.125]] [3] 2).
  - repeat constructor.
  - cbn. lia.
Defined.

(** *** Polarity *)

Lemma SFmul_opp x : SFmul prec emax (SFopp x) (SFopp x) = SFmul prec emax x x.
Proof. destruct x as [[|]|[|]| |[|] m e]; reflexivity. Qed.

Lemma mul_opp x : (- x) * (- x) = x * x.
Proof.
  apply Prim2SF_inj. rewrite !mul_spec, opp_spec. apply SFmul_opp.
Qed.

Lemma sumSquares_opp channelData start end_ :
  sumSquares (map PrimFloat.opp channelData) start end_
  = sumSquares channelData start end_.
Proof.
  unfold sumSquares. rewrite skipn_map, firstn_map.
  generalize (firstn (end_ - start) (skipn start channelData)).
  intros l. generalize 0. induction l as [|x l IH]; intros a; cbn; [reflexivity|].
  now rewrite mul_opp, IH.
Qed.

(** X2: inverting the polarity of the signal changes nothing in the answer:
    a sample enters the envelope through its square only. *)
Theorem onmessage_polarity (engine : Engine) (channelData : list float)
    (targetPoints : nat) :
  onmessage engine (map PrimFloat.opp channelData) targetPoints
  = onmessage engine channelData targetPoints.
Proof.
  assert (Hw : waveformData (map PrimFloat.opp channelData) targetPoints
               = waveformData channelData targetPoints).
  { unfold waveformData. rewrite length_map. apply map_ext. intros i.
    unfold rms. now rewrite length_map, sumSquares_opp. }
  unfold onmessage, normalizedData, maxAmplitude. now rewrite Hw.
Qed.

(** A quotient of a float that is not negative by a positive one is NaN
    or not negative. *)
Lemma div_sign v m :
  (0 <=? v) = true -> (0 <? m) = true ->
  is_nan (v / m) = true \/ (0 <=? v / m) = true.
Proof.
  unfold is_nan.
  rewrite eqb_spec, !leb_spec, !ltb_spec, div_spec, Prim2SF_zero.
  unfold SF64div.
  destruct (Prim2SF v) as [[|]|[|]| |[|] mv ev],
           (Prim2SF m) as [[|]|[|]| |[|] mm em];
    intros H0 Hm0;
    try discriminate H0; try discriminate Hm0; auto.
  cbn [SFdiv xorb].
  destruct (SFdiv_core_binary prec emax (Z.pos mv) ev (Z.pos mm) em) as [[mz ez] lz].
  unfold binary_round_aux.
  destruct (shr_fexp prec emax mz ez lz) as [mrs1 e1].
  destruct (shr_fexp prec emax _ e1 loc_Exact) as [mrs2 e2].
  destruct (shr_m mrs2); auto.
  destruct (e2 <=? emax - prec)%Z; auto.
Qed.

Lemma div_unit v m :
  (0 <=? v) = true -> (v <=? m) = true ->
  (0 <? m) = true -> (m <? infinity) = true ->
  (0 <=? v / m) = true /\ (v / m <=? 1) = true.
Proof.
  intros H0 Hvm Hm Hfin.
  pose proof (div_le_one v m H0 Hvm Hm Hfin) as H1. split; [|assumption].
  destruct (div_sign v m H0 Hm) as [Hn | H]; [|assumption].
  apply leb_num in H1 as [Hnum _]. unfold num in Hnum. congruence.
Qed.

Lemma not_num_Exists l : forall a,
  num a -> is_nan (fold_left max2 l a) = true ->
  Exists (fun v => is_nan v = true) l.
Proof.
  induction l as [|x l IH]; intros a Ha H; cbn in H.
  - unfold num in Ha. congruence.
  - destruct (is_nan x) eqn:Hx; [now left|]. right.
    apply (IH (max2 a x)); [|assumption].
    destruct (max2_spec a x Ha Hx) as ([-> | ->] & _); assumption.
Qed.

Lemma infinity_eq x : num x -> (0 <? x) = true -> (x <? infinity) = false -> x = infinity.
Proof.
  unfold num. rewrite is_nan_rank, !ltb_rank. unfold frank.
  intros Hn H0 Hinf. apply Prim2SF_inj. rewrite Prim2SF_infinity.
  rewrite Prim2SF_zero in H0. rewrite Prim2SF_infinity in Hinf.
  destruct (Prim2SF x) as [[|]|[|]| |[|] m e]; cbn in *; try discriminate; reflexivity.
Qed.

(** X3: every answer of the worker lies within [0, 1] at every point,
    unless it holds a NaN. *)
Theorem onmessage_range (engine : Engine) (channelData : list float)
    (targetPoints : nat) :
  let answer := response_waveformData (onmessage engine channelData targetPoints) in
  Forall (fun v => (0 <=? v) = true /\ (v <=? 1) = true) answer
  \/ Exists (fun v => is_nan v = true) answer.
Proof.
  destruct (onmessage_cases engine channelData targetPoints) as [-> | ->];
    cbn [response_waveformData]; [|left; constructor].
  unfold normalizedData.
  set (values := waveformData channelData targetPoints).
  set (largest := maxAmplitude channelData targetPoints).
  destruct (is_nan largest) eqn:Hnan.
  - right.
    assert (H : (0 <? largest) = false).
    { rewrite ltb_rank. rewrite is_nan_rank in Hnan.
      destruct (frank 0); [|reflexivity]. destruct (frank largest); congruence. }
    rewrite H. apply (not_num_Exists values neg_infinity); [reflexivity | exact Hnan].
  - destruct (fold_max2_num values neg_infinity Hnan) as [_ Hnum].
    destruct (fold_max2_spec values neg_infinity eq_refl Hnum) as (_ & _ & Hle & Hsel).
    change (Forall (fun v => (v <=? largest) = true) values) in Hle.
    change (largest = neg_infinity \/ In largest values) in Hsel.
    assert (Hpos : forall v, In v values -> (0 <=? v) = true).
    { intros v Hv. apply (waveformData_nonneg channelData targetPoints); [assumption|].
      rewrite Forall_forall in Hnum. now apply Hnum. }
    destruct (0 <? largest) eqn:H0.
    + destruct (largest <? infinity) eqn:Hfin.
      * left. rewrite Forall_forall in *. intros y Hy.
        apply in_map_iff in Hy as (v & <- & Hv).
        apply div_unit; auto.
      * right. apply infinity_eq in Hfin; [|assumption|assumption].
        destruct Hsel as [Hr | Hr]; [rewrite Hr in H0; discriminate H0|].
        apply Exists_exists. exists (largest / largest). split.
        -- apply in_map_iff. exists largest. auto.
        -- rewrite Hfin. reflexivity.
    + left. apply not_ltb_leb in H0; [|reflexivity|assumption].
      rewrite Forall_forall in *. intros v Hv. split; [now apply Hpos|].
      apply (leb_trans v largest 1); [now apply Hle|].
      apply (leb_trans largest 0 1); [assumption | reflexivity].
Qed.

End EnvelopeFacts.

(* ===================================================================== *)
(** ** The envelope of a regular input: no NaN *)
(* ===================================================================== *)

Module EnvelopeNumbers.

Import Waveform FloatOrder FloatOrderFacts RoundingFacts WaveformFacts EnvelopeFacts.
Import ListFacts.
Local Open Scope Z_scope.

Lemma shr_fexp_nonneg q e l :
  0 <= q -> 0 <= shr_m (fst (shr_fexp prec emax q e l)).
Proof.
  intros Hq. unfold shr_fexp.
  assert (Hrec : shr_m (shr_record_of_loc q l) = q)
    by (destruct l as [|[| |]]; reflexivity).
  pose proof (shr_spec (shr_record_of_loc q l) e
                (fexp prec emax (Zdigits2 q + e) - e)) as Hs.
  rewrite Hrec in Hs. destruct (Hs Hq) as (_ & -> & _).
  apply Z.div_pos; [assumption|]. apply Z.pow_pos_nonneg; lia.
Qed.

(** Rounding a mantissa that is not negative gives a float that is not
    negative, and no NaN. *)
Lemma binary_round_aux_nonneg m e l :
  0 <= m ->
  SFleb (S754_zero false) (binary_round_aux prec emax false m e l) = true.
Proof.
  intros Hm. unfold binary_round_aux.
  pose proof (shr_fexp_nonneg m e l Hm) as H1.
  destruct (shr_fexp prec emax m e l) as [mrs1 e1]. cbn [fst] in H1.
  pose proof (round_nearest_even_bounds (shr_m mrs1) (loc_of_shr_record mrs1))
    as [Hr _].
  set (m1 := round_nearest_even (shr_m mrs1) (loc_of_shr_record mrs1)) in *.
  assert (Hm1 : 0 <= m1) by lia.
  pose proof (shr_fexp_nonneg m1 e1 loc_Exact Hm1) as H2.
  destruct (shr_fexp prec emax m1 e1 loc_Exact) as [mrs2 e2]. cbn [fst] in H2.
  destruct (shr_m mrs2) as [|p|p]; [reflexivity| |lia].
  destruct (e2 <=? emax - prec); reflexivity.
Qed.

Lemma SFmul_self_nonneg x :
  x <> S754_nan -> SFleb (S754_zero false) (SFmul prec emax x x) = true.
Proof.
  destruct x as [[|]|[|]| |[|] m e]; intros Hx; try reflexivity; try congruence;
    cbn [SFmul xorb]; now apply binary_round_aux_nonneg.
Qed.

Lemma SFadd_nonneg x y :
  SFleb (S754_zero false) x = true -> SFleb (S754_zero false) y = true ->
  SFleb (S754_zero false) (SFadd prec emax x y) = true.
Proof.
  destruct x as [[|]|[|]| |[|] mx ex], y as [[|]|[|]| |[|] my ey];
    intros Hx Hy; try discriminate Hx; try discriminate Hy; try reflexivity.
  cbn [SFadd cond_Zopp]. unfold binary_normalize.
  set (a := Z.pos (fst (shl_align mx ex (Z.min ex ey)))).
  set (b := Z.pos (fst (shl_align my ey (Z.min ex ey)))).
  destruct (a + b) as [|p|p] eqn:E; [reflexivity| |subst a b; lia].
  unfold binary_round.
  destruct (shl_align p (Z.min ex ey) _) as [mz ez].
  now apply binary_round_aux_nonneg.
Qed.

Lemma SFdiv_nonneg x m e :
  SFleb (S754_zero false) x = true ->
  SFleb (S754_zero false) (SFdiv prec emax x (S754_finite false m e)) = true.
Proof.
  destruct x as [[|]|[|]| |[|] mx ex]; intros Hx; try discriminate Hx;
    try reflexivity.
  cbn [SFdiv xorb]. unfold SFdiv_core_binary.
  match goal with
  | |- context [Z.div_eucl ?a ?b] =>
      assert (Ha : 0 <= a);
      [|destruct (Z.div_eucl a b) as [q r] eqn:E;
        apply div_eucl_div_mod in E as [-> _];
        apply binary_round_aux_nonneg; apply Z.div_pos; lia]
  end.
  destruct (ex - e - _) as [|s|s]; try lia.
  rewrite Z.shiftl_mul_pow2 by lia.
  apply Z.mul_nonneg_nonneg; [lia|]. apply Z.pow_nonneg. lia.
Qed.

Lemma SFsqrt_nonneg x :
  SFleb (S754_zero false) x = true ->
  SFleb (S754_zero false) (SFsqrt prec emax x) = true.
Proof.
  destruct x as [[|]|[|]| |[|] mx ex]; intros Hx; try discriminate Hx;
    try reflexivity.
  cbn [SFsqrt]. unfold SFsqrt_core_binary.
  match goal with
  | |- context [Z.sqrtrem ?a] =>
      pose proof (Z.sqrtrem_spec a) as Hs;
      assert (Ha : 0 <= a);
      [|specialize (Hs Ha); destruct (Z.sqrtrem a) as [q r];
        apply binary_round_aux_nonneg; lia]
  end.
  destruct (ex - 2 * _) as [|s|s]; try lia.
  rewrite Z.shiftl_mul_pow2 by lia.
  apply Z.mul_nonneg_nonneg; [lia|]. apply Z.pow_nonneg. lia.
Qed.

Lemma shl_align_spec mx ex ex' :
  let '(mz, ez) := shl_align mx ex ex' in
  ez = Z.min ex ex' /\ Z.pos mz = Z.pos mx * 2 ^ (ex - ez).
Proof.
  unfold shl_align. destruct (ex' - ex) as [|d|d] eqn:E.
  - split; [lia|]. replace (ex - ex) with 0 by lia. cbn. lia.
  - split; [lia|]. replace (ex - ex) with 0 by lia. cbn. lia.
  - split; [lia|]. replace (ex - ex') with (Z.pos d) by lia.
    change (Pos.iter xO mx d) with (shift_pos d mx).
    rewrite shift_pos_correct. change (Z.pow_pos 2 d) with (2 ^ Z.pos d). lia.
Qed.

(** An integer from 1 up to 2^53 converts to a positive finite float. *)
Lemma binary_round_integer p :
  Zdigits2 (Z.pos p) <= 53 ->
  exists m e, binary_round prec emax false p 0 = S754_finite false m e.
Proof.
  intros HD. unfold binary_round.
  change (Z.pos (digits2_pos p)) with (Zdigits2 (Z.pos p)).
  set (D := Zdigits2 (Z.pos p)) in *.
  assert (HD1 : 1 <= D).
  { subst D. rewrite Zdigits2_log2 by lia. pose proof (Z.log2_nonneg (Z.pos p)). lia. }
  rewrite Z.add_0_r, fexp_eq.
  replace (Z.max (D - 53) (-1074)) with (D - 53) by lia.
  pose proof (shl_align_spec p 0 (D - 53)) as Hal.
  destruct (shl_align p 0 (D - 53)) as [mz ez]. destruct Hal as [Hez Hmz].
  replace (Z.min 0 (D - 53)) with (D - 53) in Hez by lia. subst ez.
  replace (0 - (D - 53)) with (53 - D) in Hmz by lia.
  assert (Hdig : Zdigits2 (Z.pos mz) = 53).
  { assert (Hpos : 0 < Z.pos p * 2 ^ (53 - D))
      by (apply Z.mul_pos_pos; [lia|]; apply Z.pow_pos_nonneg; lia).
    rewrite Hmz, Zdigits2_log2 by assumption.
    rewrite Z.log2_mul_pow2 by lia. subst D. rewrite Zdigits2_log2 by lia. lia. }
  exists mz, (D - 53).
  unfold binary_round_aux, shr_fexp. rewrite Hdig, fexp_eq.
  replace (Z.max (53 + (D - 53) - 53) (-1074) - (D - 53)) with 0 by lia.
  cbn [shr shr_record_of_loc shr_m loc_of_shr_record round_nearest_even].
  rewrite Hdig, fexp_eq.
  replace (Z.max (53 + (D - 53) - 53) (-1074) - (D - 53)) with 0 by lia.
  cbn [shr shr_record_of_loc shr_m].
  replace (D - 53 <=? emax - prec) with true; [reflexivity|].
  symmetry. apply Z.leb_le. change (emax - prec) with 971. lia.
Qed.

Local Open Scope float_scope.

Lemma number_of_Z_positive k :
  (1 <= k < 2 ^ 53)%Z ->
  exists m e, Prim2SF (number_of_Z k) = S754_finite false m e.
Proof.
  intros [H1 H2]. destruct k as [|p|p]; try lia. cbn [number_of_Z].
  rewrite of_uint63_spec, Uint63.of_Z_spec.
  rewrite Z.mod_small.
  2:{ split; [lia|]. eapply Z.lt_trans; [exact H2|]. reflexivity. }
  cbn [binary_normalize]. apply binary_round_integer.
  rewrite Zdigits2_log2 by reflexivity.
  assert (Z.log2 (Z.pos p) < 53); [|lia].
  apply Z.log2_lt_pow2; [reflexivity | assumption].
Qed.

Lemma mul_self_nonneg x : num x -> (0 <=? x * x) = true.
Proof.
  unfold num. rewrite is_nan_rank, leb_spec, mul_spec, Prim2SF_zero. unfold frank.
  intros Hx. apply SFmul_self_nonneg. intros E. rewrite E in Hx. discriminate Hx.
Qed.

Lemma add_nonneg x y : (0 <=? x) = true -> (0 <=? y) = true -> (0 <=? x + y) = true.
Proof.
  rewrite !leb_spec, add_spec, Prim2SF_zero. apply SFadd_nonneg.
Qed.

Lemma div_positive_nonneg x c m e :
  Prim2SF c = S754_finite false m e -> (0 <=? x) = true -> (0 <=? x / c) = true.
Proof.
  intros Hc. rewrite !leb_spec, div_spec, Prim2SF_zero, Hc. apply SFdiv_nonneg.
Qed.

Lemma sqrt_nonneg x : (0 <=? x) = true -> (0 <=? sqrt x) = true.
Proof.
  rewrite !leb_spec, sqrt_spec, Prim2SF_zero. apply SFsqrt_nonneg.
Qed.

Lemma sum_nonneg l : forall a,
  (0 <=? a) = true -> Forall num l ->
  (0 <=? fold_left (fun sum x => sum + x * x) l a) = true.
Proof.
  induction l as [|x l IH]; intros a Ha Hl; cbn [fold_left]; [assumption|].
  inversion Hl as [|? ? Hx Hl']; subst.
  apply IH; [|assumption]. apply add_nonneg; [assumption|].
  now apply mul_self_nonneg.
Qed.

(** With at least [targetPoints] samples, none of them NaN, every value of
    the envelope before normalisation is a number and is not negative. *)
Lemma waveformData_numbers channelData targetPoints :
  (1 <= targetPoints <= length channelData)%nat ->
  (Z.of_nat (length channelData) < 2 ^ 53)%Z ->
  Forall num channelData ->
  Forall (fun v => (0 <=? v) = true) (waveformData channelData targetPoints).
Proof.
  intros [HN Hlen] Hbig Hnum. unfold waveformData.
  apply Forall_forall. intros v Hv. apply in_map_iff in Hv as (i & <- & Hi).
  apply in_seq in Hi.
  destruct (chunk_bounds (length channelData) targetPoints i ltac:(lia))
    as (Hb & Hfull & _).
  cbv zeta in Hb, Hfull. destruct (Hfull Hlen) as [Hk Hk1].
  unfold rms.
  set (k := (length channelData / targetPoints)%nat) in *.
  set (first := (i * k)%nat) in *.
  set (last := Nat.min (first + k) (length channelData)) in *.
  destruct (number_of_Z_positive (Z.of_nat last - Z.of_nat first)) as (m & e & Hc);
    [lia|].
  apply sqrt_nonneg. apply (div_positive_nonneg _ _ m e Hc).
  unfold sumSquares. apply sum_nonneg; [reflexivity|].
  apply Forall_forall. intros x Hx. apply In_firstn, In_skipn in Hx.
  rewrite Forall_forall in Hnum. now apply Hnum.
Qed.

(** The normalised envelope of at least [targetPoints] samples, none of
    them NaN. *)
Lemma normalizedData_numbers (channelData : list float) (targetPoints : nat) :
  (1 <= targetPoints <= length channelData)%nat ->
  (Z.of_nat (length channelData) < 2 ^ 53)%Z ->
  Forall num channelData ->
  let answer := normalizedData channelData targetPoints in
  Forall (fun v => (0 <=? v) = true) (waveformData channelData targetPoints)
  /\ Forall num (waveformData channelData targetPoints)
  /\ (0 <=? maxAmplitude channelData targetPoints) = true
  /\ ((maxAmplitude channelData targetPoints <? infinity) = true ->
      Forall (fun v => (0 <=? v) = true /\ (v <=? 1) = true) answer)
  /\ (Exists (fun v => is_nan v = true) answer ->
      maxAmplitude channelData targetPoints = infinity).
Proof.
  intros HN Hbig Hsamples. cbv zeta.
  pose proof (waveformData_numbers channelData targetPoints HN Hbig Hsamples) as Hpos.
  unfold normalizedData.
  set (values := waveformData channelData targetPoints) in *.
  set (largest := maxAmplitude channelData targetPoints).
  assert (Hnum : Forall num values).
  { eapply Forall_impl; [|exact Hpos]. intros v Hv. now apply leb_num in Hv. }
  destruct (fold_max2_spec values neg_infinity eq_refl Hnum) as (Hl & _ & Hle & Hsel).
  change (num largest) in Hl.
  change (Forall (fun v => (v <=? largest) = true) values) in Hle.
  change (largest = neg_infinity \/ In largest values) in Hsel.
  assert (Hl0 : (0 <=? largest) = true).
  { destruct values as [|v0 rest] eqn:Ev.
    - exfalso. assert (E : length values = targetPoints)
        by apply waveformData_length.
      rewrite Ev in E. cbn in E. lia.
    - inversion Hpos; subst. inversion Hle; subst.
      eapply leb_trans; eassumption. }
  assert (Hunit : (largest <? infinity) = true ->
                  Forall (fun v => (0 <=? v) = true /\ (v <=? 1) = true)
                         (if 0 <? largest
                          then map (fun val => val / largest) values
                          else values)).
  { intros Hfin. destruct (0 <? largest) eqn:H0.
    - rewrite Forall_forall in *. intros y Hy.
      apply in_map_iff in Hy as (v & <- & Hv). apply div_unit; auto.
    - apply not_ltb_leb in H0; [|reflexivity|assumption].
      rewrite Forall_forall in *. intros v Hv. split; [now apply Hpos|].
      apply (leb_trans v largest 1); [now apply Hle|].
      apply (leb_trans largest 0 1); [assumption | reflexivity]. }
  split; [assumption|]. split; [assumption|]. split; [assumption|].
  split; [assumption|].
  intros Hnan. destruct (largest <? infinity) eqn:Hfin.
  - exfalso. specialize (Hunit eq_refl). apply Exists_exists in Hnan as (v & Hv & Hvn).
    rewrite Forall_forall in Hunit. destruct (Hunit v Hv) as [H0 _].
    apply leb_num in H0 as [_ H0]. unfold num in H0. congruence.
  - destruct (0 <? largest) eqn:H0; [now apply infinity_eq|].
    exfalso. apply Exists_exists in Hnan as (v & Hv & Hvn).
    rewrite Forall_forall in Hnum. specialize (Hnum v Hv). unfold num in Hnum.
    congruence.
Qed.

(** X4: with at least [targetPoints] samples (one point at least), none of
    them NaN, no value of the envelope is NaN before normalisation, and the
    answer lies within [0, 1] at every point unless the largest value is
    infinite (an infinite sample, or a sum of squares past the largest
    float). *)
Theorem onmessage_numbers (engine : Engine) (channelData : list float)
    (targetPoints : nat) :
  (1 <= targetPoints <= length channelData)%nat ->
  (Z.of_nat (length channelData) < 2 ^ 53)%Z ->
  Forall num channelData ->
  let answer := response_waveformData (onmessage engine channelData targetPoints) in
  Forall (fun v => (0 <=? v) = true) (waveformData channelData targetPoints)
  /\ Forall num (waveformData channelData targetPoints)
  /\ (0 <=? maxAmplitude channelData targetPoints) = true
  /\ ((maxAmplitude channelData targetPoints <? infinity) = true ->
      Forall (fun v => (0 <=? v) = true /\ (v <=? 1) = true) answer)
  /\ (Exists (fun v => is_nan v = true) answer ->
      maxAmplitude channelData targetPoints = infinity).
Proof.
  intros HN Hbig Hsamples.
  pose proof (normalizedData_numbers channelData targetPoints HN Hbig Hsamples)
    as H.
  cbv zeta in *. destruct H as (H1 & H2 & H3 & H4 & H5).
  destruct (onmessage_cases engine channelData targetPoints) as [-> | ->];
    cbn [response_waveformData]; repeat split; try assumption.
  - intros _. constructor.
  - intros Hnan. inversion Hnan.
Qed.

Lemma onmessage_numbers_witness :
  Forall (fun v => (0 <=? v) = true /\ (v <=? 1) = true)
         (response_waveformData
            (onmessage engine_65536 [0.5; 0.25; -1; 0.125; 3] 2)).
Proof.
  refine (proj1 (proj2 (proj2 (proj2
            (onmessage_numbers engine_65536 [0.5; 0.25; -1; 0.125; 3] 2
                               _ _ _)))) _).
  - cbn. lia.
  - reflexivity.
  - repeat constructor.
  - reflexivity.
Defined.

End EnvelopeNumbers.

(* ===================================================================== *)
(** ** Rounding against a bound, and signs *)
(* ===================================================================== *)

Module RoundingBounds.

Import FloatOrder FloatOrderFacts RoundingFacts.
Local Open Scope Z_scope.

(** The digits of a number of at most [b * 2 ^ n]. *)
Lemma Zdigits2_mul_pow2 q b n :
  0 <= q -> 0 < b -> 0 <= n -> q <= b * 2 ^ n -> Zdigits2 q <= Zdigits2 b + n.
Proof.
  intros Hq Hb Hn Hle. destruct (Z.eq_dec q 0) as [-> | Hne].
  - cbn [Zdigits2]. rewrite Zdigits2_log2 by assumption.
    pose proof (Z.log2_nonneg b). lia.
  - rewrite !Zdigits2_log2 by lia.
    assert (H : Z.log2 q <= Z.log2 (b * 2 ^ n)) by (apply Z.log2_le_mono; lia).
    rewrite Z.log2_mul_pow2 in H by lia. lia.
Qed.

(** One [shr_fexp] step on a mantissa that stands for a value of at most
    [b * 2 ^ eb], a bound that is representable: the value stays at most the
    bound, and it is the bound only if it was so before, exactly. *)
Lemma shr_fexp_le_bound q e l b eb :
  0 <= q -> e <= eb -> -1074 <= eb -> 0 < b -> Zdigits2 b <= 53 ->
  q <= b * 2 ^ (eb - e) ->
  let mrs := fst (shr_fexp prec emax q e l) in
  let e' := snd (shr_fexp prec emax q e l) in
  e <= e' <= eb /\
  0 <= shr_m mrs <= b * 2 ^ (eb - e') /\
  (shr_m mrs = b * 2 ^ (eb - e') ->
   q = b * 2 ^ (eb - e) /\ (l = loc_Exact -> loc_of_shr_record mrs = loc_Exact)).
Proof.
  intros Hq0 He Heb Hb Hdb Hq. unfold shr_fexp.
  assert (Hrec : shr_m (shr_record_of_loc q l) = q)
    by (destruct l as [|[| |]]; reflexivity).
  set (n := fexp prec emax (Zdigits2 q + e) - e).
  pose proof (shr_spec (shr_record_of_loc q l) e n) as Hs.
  rewrite Hrec in Hs. specialize (Hs Hq0). cbv zeta in Hs.
  destruct Hs as (He' & Hm & Hex).
  set (k := Z.max 0 n) in *.
  pose proof (Zdigits2_mul_pow2 q b (eb - e) Hq0 Hb ltac:(lia) Hq) as Hd.
  assert (Hk : 0 <= k <= eb - e).
  { subst k n. rewrite fexp_eq. lia. }
  cbv zeta. rewrite He', Hm.
  assert (Hpow : 2 ^ (eb - e) = 2 ^ (eb - (e + k)) * 2 ^ k).
  { rewrite <- Z.pow_add_r by lia. f_equal. lia. }
  assert (Hkpos : 0 < 2 ^ k) by (apply Z.pow_pos_nonneg; lia).
  split; [lia|]. split.
  - split; [apply Z.div_pos; lia|].
    apply Z.div_le_upper_bound; [lia|]. rewrite Hpow in Hq. lia.
  - intros Heq.
    pose proof (Z.mul_div_le q (2 ^ k) Hkpos) as Hle. rewrite Heq in Hle.
    assert (Hq' : q = b * 2 ^ (eb - e)) by (rewrite Hpow in *; lia).
    split; [assumption|]. intros ->. apply Hex; try reflexivity.
    rewrite Hq', Hpow, Z.mul_assoc. apply Z.mod_mul. lia.
Qed.

(** Rounding to nearest a value of at most a float gives at most that
    float. *)
Lemma binary_round_aux_le_bound q e l mb eb :
  bounded prec emax mb eb = true ->
  0 <= q -> e <= eb -> q <= Z.pos mb * 2 ^ (eb - e) ->
  (q = Z.pos mb * 2 ^ (eb - e) -> l = loc_Exact) ->
  SFleb (binary_round_aux prec emax false q e l) (S754_finite false mb eb) = true.
Proof.
  intros Hb Hq0 He Hq Hl.
  destruct (bounded_digits _ _ Hb) as (Heb & Hdb & _).
  assert (Hemax : eb <= 971).
  { unfold bounded in Hb. apply andb_prop in Hb as [_ Hb]. apply Z.leb_le in Hb.
    exact Hb. }
  unfold binary_round_aux.
  pose proof (shr_fexp_le_bound q e l (Z.pos mb) eb Hq0 He Heb ltac:(lia) Hdb Hq) as H1.
  cbv zeta in H1.
  destruct (shr_fexp prec emax q e l) as [mrs1 e1]. cbn [fst snd] in H1.
  destruct H1 as (He1 & Hm1 & Hone1).
  pose proof (round_nearest_even_bounds (shr_m mrs1) (loc_of_shr_record mrs1))
    as [Hr Hrex].
  set (m1 := round_nearest_even (shr_m mrs1) (loc_of_shr_record mrs1)) in *.
  assert (Hm1' : 0 <= m1 <= Z.pos mb * 2 ^ (eb - e1)).
  { destruct (Z.eq_dec (shr_m mrs1) (Z.pos mb * 2 ^ (eb - e1))) as [Heq | Hne].
    - destruct (Hone1 Heq) as [Hq' Hloc]. rewrite Hrex by auto. lia.
    - lia. }
  pose proof (shr_fexp_le_bound m1 e1 loc_Exact (Z.pos mb) eb
                ltac:(lia) ltac:(lia) Heb ltac:(lia) Hdb ltac:(lia)) as H2.
  cbv zeta in H2.
  destruct (shr_fexp prec emax m1 e1 loc_Exact) as [mrs2 e2]. cbn [fst snd] in H2.
  destruct H2 as (He2 & Hm2 & _).
  destruct (shr_m mrs2) as [|p|p] eqn:Hp; [reflexivity| |lia].
  replace (e2 <=? emax - prec) with true
    by (symmetry; apply Z.leb_le; change (emax - prec) with 971; lia).
  unfold SFleb, SFcompare.
  destruct (Z.compare_spec e2 eb) as [-> | Hlt | Hgt]; [|reflexivity|lia].
  rewrite Z.sub_diag in Hm2. change (2 ^ 0) with 1 in Hm2.
  rewrite Pos.compare_cont_spec. unfold Pos.switch_Eq.
  destruct (Pos.compare_spec p mb); try reflexivity.
  lia.
Qed.

(** A float of at most one, as a mantissa and an exponent. *)
Lemma le_one_mantissa mc ec :
  bounded prec emax mc ec = true ->
  SFleb (S754_finite false mc ec) SFone = true ->
  ec <= -52 /\ Z.pos mc <= 2 ^ (- ec).
Proof.
  intros Hbc. unfold SFleb. rewrite SFcompare_lex. unfold SFone, rank, lex.
  rewrite Z.compare_refl.
  destruct (Z.compare_spec ec (-52)) as [E | E | E];
    try (intros H; discriminate H).
  - rewrite E. change (2 ^ (- -52)) with 4503599627370496.
    destruct (Z.compare_spec (Z.pos mc) 4503599627370496) as [E' | E' | E'];
      intros H; try discriminate H; split; try apply Z.le_refl.
    + rewrite E'. apply Z.le_refl.
    + apply Z.lt_le_incl, E'.
  - intros _. split; [lia|].
    destruct (bounded_digits _ _ Hbc) as (_ & Hdc & _).
    pose proof (Zdigits2_bounds (Z.pos mc) ltac:(lia)) as Hmc.
    assert (Z.pos mc < 2 ^ 53).
    { eapply Z.lt_le_trans; [apply Hmc|]. apply Z.pow_le_mono_r; lia. }
    assert (2 ^ 53 <= 2 ^ (- ec)) by (apply Z.pow_le_mono_r; lia).
    lia.
Qed.

(** The product of a float of at most one and a positive float is at most
    that float. *)
Lemma SFmul_le mc ec md ed :
  bounded prec emax mc ec = true -> bounded prec emax md ed = true ->
  SFleb (S754_finite false mc ec) SFone = true ->
  SFleb (SFmul prec emax (S754_finite false mc ec) (S754_finite false md ed))
        (S754_finite false md ed) = true.
Proof.
  intros Hbc Hbd Hle.
  destruct (le_one_mantissa mc ec Hbc Hle) as [Hec52 Hmcle].
  cbn [SFmul xorb].
  apply binary_round_aux_le_bound; [assumption | lia | lia | | reflexivity].
  replace (ed - (ec + ed)) with (- ec) by lia.
  rewrite Pos2Z.inj_mul. rewrite (Z.mul_comm (Z.pos mc)).
  apply Z.mul_le_mono_nonneg_l; lia.
Qed.

End RoundingBounds.

Module RoundingSigns.

Import FloatOrder FloatOrderFacts RoundingFacts EnvelopeNumbers RoundingBounds.
Local Open Scope Z_scope.

(** Rounding a mantissa that is not negative never gives NaN. *)
Lemma binary_round_aux_num sx m e l :
  0 <= m -> binary_round_aux prec emax sx m e l <> S754_nan.
Proof.
  intros Hm. unfold binary_round_aux.
  pose proof (shr_fexp_nonneg m e l Hm) as H1.
  destruct (shr_fexp prec emax m e l) as [mrs1 e1]. cbn [fst] in H1.
  pose proof (round_nearest_even_bounds (shr_m mrs1) (loc_of_shr_record mrs1))
    as [Hr _].
  set (m1 := round_nearest_even (shr_m mrs1) (loc_of_shr_record mrs1)) in *.
  assert (Hm1 : 0 <= m1) by lia.
  pose proof (shr_fexp_nonneg m1 e1 loc_Exact Hm1) as H2.
  destruct (shr_fexp prec emax m1 e1 loc_Exact) as [mrs2 e2]. cbn [fst] in H2.
  destruct (shr_m mrs2) as [|p|p]; [discriminate| |lia].
  destruct (e2 <=? emax - prec); discriminate.
Qed.

Lemma binary_normalize_num m e s : binary_normalize prec emax m e s <> S754_nan.
Proof.
  destruct m as [|p|p]; cbn [binary_normalize]; [discriminate| |];
    unfold binary_round; destruct (shl_align p e _) as [mz ez];
    apply binary_round_aux_num; lia.
Qed.

Lemma SFsub_num x y :
  bounded_value x -> bounded_value y -> SFsub prec emax x y <> S754_nan.
Proof.
  destruct x as [[|]|[|]| |sx mx ex], y as [[|]|[|]| |sy my ey];
    cbn [bounded_value SFsub]; intros Hx Hy; try contradiction; try discriminate.
  apply binary_normalize_num.
Qed.

Lemma SFdiv_num x m e :
  x <> S754_nan -> SFdiv prec emax x (S754_finite false m e) <> S754_nan.
Proof.
  destruct x as [sx|sx| |sx mx ex]; cbn [SFdiv]; intros Hx;
    try discriminate; try congruence.
  unfold SFdiv_core_binary.
  match goal with
  | |- context [Z.div_eucl ?a ?b] =>
      assert (Ha : 0 <= a);
      [|destruct (Z.div_eucl a b) as [q r] eqn:E;
        apply div_eucl_div_mod in E as [-> _];
        apply binary_round_aux_num; apply Z.div_pos; lia]
  end.
  destruct (ex - e - _) as [|s|s]; try lia.
  rewrite Z.shiftl_mul_pow2 by lia.
  apply Z.mul_nonneg_nonneg; [lia|]. apply Z.pow_nonneg. lia.
Qed.

(** The order of two positive floats, on their mantissas brought to the
    lower exponent. *)
Lemma SFleb_aligned mx ex my ey :
  bounded prec emax mx ex = true -> bounded prec emax my ey = true ->
  SFleb (S754_finite false my ey) (S754_finite false mx ex) = true ->
  Z.pos my * 2 ^ (ey - Z.min ex ey) <= Z.pos mx * 2 ^ (ex - Z.min ex ey).
Proof.
  intros Hbx Hby.
  destruct (bounded_digits _ _ Hbx) as (Hex & Hdx & Hnx).
  destruct (bounded_digits _ _ Hby) as (Hey & Hdy & Hny).
  pose proof (Zdigits2_bounds (Z.pos mx) ltac:(lia)) as Hmx.
  pose proof (Zdigits2_bounds (Z.pos my) ltac:(lia)) as Hmy.
  unfold SFleb. rewrite SFcompare_lex. unfold rank, lex.
  rewrite Z.compare_refl.
  destruct (Z.compare_spec ey ex) as [E | E | E];
    try (intros H; discriminate H).
  - subst ey. rewrite Z.min_id, Z.sub_diag. change (2 ^ 0) with 1.
    destruct (Z.compare_spec (Z.pos my) (Z.pos mx)) as [E' | E' | E'];
      intros H; try discriminate H; lia.
  - intros _. rewrite Z.min_r by lia. rewrite Z.sub_diag. change (2 ^ 0) with 1.
    rewrite (Hnx ltac:(lia)) in Hmx.
    assert (Z.pos my < 2 ^ 53).
    { eapply Z.lt_le_trans; [apply Hmy|]. apply Z.pow_le_mono_r; lia. }
    assert (2 ^ 1 <= 2 ^ (ex - ey)) by (apply Z.pow_le_mono_r; lia).
    change (2 ^ 1) with 2 in *. change (2 ^ (53 - 1)) with 4503599627370496 in Hmx.
    change (2 ^ 53) with 9007199254740992 in *.
    nia.
Qed.

(** Subtracting a positive float from a larger one gives a float that is
    not negative. *)
Lemma SFsub_nonneg mx ex my ey :
  bounded prec emax mx ex = true -> bounded prec emax my ey = true ->
  SFleb (S754_finite false my ey) (S754_finite false mx ex) = true ->
  SFleb (S754_zero false)
        (SFsub prec emax (S754_finite false mx ex) (S754_finite false my ey)) = true.
Proof.
  intros Hbx Hby Hle.
  pose proof (SFleb_aligned mx ex my ey Hbx Hby Hle) as Hal.
  cbn [SFsub cond_Zopp].
  pose proof (shl_align_spec mx ex (Z.min ex ey)) as Hx.
  pose proof (shl_align_spec my ey (Z.min ex ey)) as Hy.
  destruct (shl_align mx ex (Z.min ex ey)) as [ax ezx].
  destruct (shl_align my ey (Z.min ex ey)) as [ay ezy].
  destruct Hx as [Hezx Hax], Hy as [Hezy Hay]. cbn [fst].
  assert (Ex : ezx = Z.min ex ey) by lia. assert (Ey : ezy = Z.min ex ey) by lia.
  subst ezx ezy. rewrite Ex in Hax. rewrite Ey in Hay. clear Ex Ey.
  unfold binary_normalize.
  destruct (Z.pos ax - Z.pos ay) as [|p|p] eqn:E; [reflexivity| |lia].
  unfold binary_round.
  destruct (shl_align p (Z.min ex ey) _) as [mz ez].
  now apply binary_round_aux_nonneg.
Qed.

End RoundingSigns.

(* ===================================================================== *)
(** ** The loop editor: properties *)
(* ===================================================================== *)

Module LoopEditorFacts.

Import Waveform FloatOrder FloatOrderFacts RoundingFacts WaveformFacts.
Import EnvelopeNumbers RoundingBounds RoundingSigns LoopEditor.
Local Open Scope float_scope.

(** *** [Math.min], and numbers between two others *)

Lemma min2_spec a b :
  num a -> num b ->
  (min2 a b = a \/ min2 a b = b) /\
  (min2 a b <=? a) = true /\ (min2 a b <=? b) = true.
Proof.
  intros Ha Hb. unfold min2. rewrite Ha, Hb. cbn [orb].
  destruct (a <? b) eqn:Hlt.
  - split; [auto|]. split; [now apply leb_refl | now apply ltb_leb].
  - destruct ((a =? b) && get_sign a) eqn:He.
    + apply andb_prop in He as [He _].
      split; [auto|]. split; [now apply leb_refl | now apply eqb_leb].
    + split; [auto|]. split; [now apply not_ltb_leb | now apply leb_refl].
Qed.

Lemma between_num lo hi x : between lo hi x -> num x.
Proof. intros [H _]. now apply leb_num in H. Qed.

Lemma ltb_leb_false x y : (x <? y) = true -> (y <=? x) = true -> False.
Proof. intros H1 H2. apply ltb_not_leb in H1. congruence. Qed.

Lemma min2_nearest lo hi t :
  (lo <=? t) = true -> (lo <=? hi) = true -> nearest lo hi t (min2 t hi).
Proof.
  intros Ht Hhi.
  destruct (leb_num _ _ Ht) as [_ Hnt]. destruct (leb_num _ _ Hhi) as [_ Hnh].
  destruct (min2_spec t hi Hnt Hnh) as (Hsel & Hle_t & Hle_h).
  repeat split.
  - destruct Hsel as [-> | ->]; assumption.
  - assumption.
  - intros Hlt. exfalso. eapply ltb_leb_false; eassumption.
  - intros [_ Hth]. apply leb_antisym; [assumption|].
    destruct Hsel as [-> | ->]; [now apply leb_refl | assumption].
  - intros Hlt. destruct Hsel as [E | E]; [|assumption].
    exfalso. rewrite E in Hle_h. eapply ltb_leb_false; eassumption.
Qed.

Lemma max2_nearest lo hi t :
  (t <=? hi) = true -> (lo <=? hi) = true -> nearest lo hi t (max2 t lo).
Proof.
  intros Ht Hlo.
  destruct (leb_num _ _ Ht) as [Hnt _]. destruct (leb_num _ _ Hlo) as [Hnl _].
  destruct (max2_spec t lo Hnt Hnl) as (Hsel & Hle_t & Hle_l).
  repeat split.
  - assumption.
  - destruct Hsel as [-> | ->]; assumption.
  - intros Hlt. destruct Hsel as [E | E]; [|assumption].
    exfalso. rewrite E in Hle_l. eapply ltb_leb_false; eassumption.
  - intros [Hlt _]. apply leb_antisym; [|assumption].
    destruct Hsel as [-> | ->]; [now apply leb_refl | assumption].
  - intros Hlt. exfalso. eapply ltb_leb_false; eassumption.
Qed.

(** *** Numbers that are finite *)

Lemma finite_bounded x : finite x -> bounded_value (Prim2SF x).
Proof.
  unfold finite. rewrite !ltb_spec.
  change (Prim2SF neg_infinity) with (S754_infinity true).
  rewrite Prim2SF_infinity.
  destruct (Prim2SF x) as [[|]|[|]| |[|] m e]; cbn; intros [H1 H2];
    try discriminate H1; try discriminate H2; exact I.
Qed.

Lemma num_not_nan x : num x <-> Prim2SF x <> S754_nan.
Proof.
  unfold num. rewrite is_nan_rank. unfold frank.
  destruct (Prim2SF x) as [[|]|[|]| |[|] m e]; cbn; split; congruence.
Qed.

Lemma sub_finite_num x y : finite x -> finite y -> num (x - y).
Proof.
  intros Hx Hy. apply num_not_nan. rewrite sub_spec.
  apply SFsub_num; now apply finite_bounded.
Qed.

Lemma div_positive_num x w :
  num x -> (0 <? w) = true -> (w <? infinity) = true -> num (x / w).
Proof.
  rewrite !num_not_nan, div_spec, !ltb_spec, Prim2SF_zero, Prim2SF_infinity.
  intros Hx H0 Hinf.
  destruct (Prim2SF w) as [[|]|[|]| |[|] m e];
    try discriminate H0; try discriminate Hinf.
  now apply SFdiv_num.
Qed.

(** *** The time under the pointer *)

Lemma clickPosition_bounds q :
  num q -> between 0 1 (max2 0 (min2 1 q)).
Proof.
  intros Hq.
  assert (H1 : num 1) by reflexivity. assert (H0 : num 0) by reflexivity.
  destruct (min2_spec 1 q H1 Hq) as (Hsel & Hle1 & _).
  assert (Hm : num (min2 1 q)) by (destruct Hsel as [-> | ->]; assumption).
  destruct (max2_spec 0 (min2 1 q) H0 Hm) as (Hsel' & Hle0 & _).
  split; [assumption|].
  destruct Hsel' as [-> | ->]; [reflexivity | assumption].
Qed.

(** The product of a number of [[0, 1]] and a finite duration lies in
    [[0, duration]]. *)
Lemma mul_unit_bounds c duration :
  between 0 1 c -> (0 <=? duration) = true -> (duration <? infinity) = true ->
  between 0 duration (c * duration).
Proof.
  unfold between.
  rewrite !leb_spec, !ltb_spec, mul_spec, Prim2SF_zero, Prim2SF_one, Prim2SF_infinity.
  unfold SF64mul.
  pose proof (Prim2SF_valid c) as Vc. pose proof (Prim2SF_valid duration) as Vd.
  destruct (Prim2SF c) as [[|]|[|]| |[|] mc ec],
           (Prim2SF duration) as [[|]|[|]| |[|] md ed];
    intros [Hc0 Hc1] Hd0 Hdinf;
    try discriminate Hc0; try discriminate Hc1; try discriminate Hd0;
    try discriminate Hdinf; try (split; reflexivity).
  split.
  - cbn [SFmul xorb]. apply binary_round_aux_nonneg. lia.
  - now apply SFmul_le.
Qed.

Lemma newTime_bounds duration clientX rect_left rect_width :
  (0 <=? duration) = true -> (duration <? infinity) = true ->
  finite clientX -> finite rect_left ->
  finite rect_width -> (0 <? rect_width) = true ->
  between 0 duration (newTime duration clientX rect_left rect_width).
Proof.
  intros Hd0 Hdinf Hx Hl [_ Hw] Hw0. unfold newTime.
  apply mul_unit_bounds; try assumption.
  apply clickPosition_bounds. apply div_positive_num; try assumption.
  now apply sub_finite_num.
Qed.

(** *** The limits the handlers compute *)

(** With an end of at least 0.1 s, the limit [end - MIN_LOOP_DURATION] of
    the start is not negative. *)
Lemma start_limit_nonneg e :
  (MIN_LOOP_DURATION <=? e) = true -> (e <? infinity) = true ->
  (0 <=? e - MIN_LOOP_DURATION) = true.
Proof.
  rewrite !leb_spec, ltb_spec, sub_spec, Prim2SF_zero, Prim2SF_infinity.
  unfold SF64sub.
  pose proof (Prim2SF_valid e) as Ve.
  change (Prim2SF MIN_LOOP_DURATION)
    with (S754_finite false 7205759403792794 (-56)).
  destruct (Prim2SF e) as [[|]|[|]| |[|] me ee];
    intros Hle Hinf; try discriminate Hle; try discriminate Hinf.
  now apply SFsub_nonneg.
Qed.

Lemma end_limit_nonneg s :
  (0 <=? s) = true -> (0 <=? s + MIN_LOOP_DURATION) = true.
Proof. intros Hs. now apply add_nonneg. Qed.

(** The typed time, when the guard of the handler lets it pass. *)
Lemma guard_passes duration t :
  num duration ->
  is_nan t || (t <? 0) || (duration <? t) = false <-> between 0 duration t.
Proof.
  intros Hd. unfold between. split.
  - intros H. apply orb_false_elim in H as [H H3].
    apply orb_false_elim in H as [H1 H2].
    split; apply not_ltb_leb; auto; reflexivity.
  - intros [H1 H2].
    destruct (leb_num _ _ H1) as [_ Hn]. unfold num in Hn. rewrite Hn. cbn [orb].
    destruct (t <? 0) eqn:E1.
    { exfalso. eapply ltb_leb_false; eassumption. }
    destruct (duration <? t) eqn:E2; [|reflexivity].
    exfalso. eapply ltb_leb_false; eassumption.
Qed.

(** *** The edits *)

(** What an edit of the start stores, from the time [t] it asks for. *)
Lemma start_edit duration p t :
  (duration <? infinity) = true -> within duration p ->
  between 0 duration t ->
  (MIN_LOOP_DURATION <=? end_ p) = true ->
  let u := {| start := min2 t (end_ p - MIN_LOOP_DURATION); end_ := end_ p |} in
  within duration u /\ nearest 0 (end_ p - MIN_LOOP_DURATION) t (start u).
Proof.
  intros Hinf [Hs [He0 HeD]] [Ht0 HtD] Hmin u.
  assert (HeI : (end_ p <? infinity) = true).
  { destruct (end_ p <? infinity) eqn:E; [reflexivity|]. exfalso.
    destruct (leb_num _ _ HeD) as [Hne Hnd].
    apply not_ltb_leb in E; [|assumption|reflexivity].
    pose proof (leb_trans _ _ _ E HeD) as H.
    eapply ltb_leb_false; eassumption. }
  pose proof (start_limit_nonneg (end_ p) Hmin HeI) as Hlim.
  pose proof (min2_nearest 0 (end_ p - MIN_LOOP_DURATION) t Ht0 Hlim) as Hn.
  split; [|exact Hn].
  destruct Hn as ([Hu0 _] & _). split; [|split; assumption].
  split; [exact Hu0|]. cbn [start u].
  destruct (leb_num _ _ Ht0) as [_ Hnt]. destruct (leb_num _ _ Hlim) as [_ Hnl].
  destruct (min2_spec t (end_ p - MIN_LOOP_DURATION) Hnt Hnl) as (_ & Hle & _).
  eapply leb_trans; eassumption.
Qed.

(** What an edit of the end stores, from the time [t] it asks for. *)
Lemma end_edit duration p t :
  within duration p ->
  between 0 duration t ->
  (start p + MIN_LOOP_DURATION <=? duration) = true ->
  let u := {| start := start p; end_ := max2 t (start p + MIN_LOOP_DURATION) |} in
  within duration u /\ nearest (start p + MIN_LOOP_DURATION) duration t (end_ u).
Proof.
  intros [[Hs0 HsD] He] [Ht0 HtD] Hlim u.
  pose proof (max2_nearest (start p + MIN_LOOP_DURATION) duration t HtD Hlim) as Hn.
  split; [|exact Hn].
  destruct Hn as ([Hlo Hhi] & _). split; [split; assumption|].
  split; [|exact Hhi]. cbn [end_ u].
  eapply leb_trans; [|exact Hlo]. now apply end_limit_nonneg.
Qed.

(** The pair that an edit stores. *)
Lemma handle_stores duration dragging p e u :
  (0 <=? duration) = true -> (duration <? infinity) = true ->
  within duration p -> over_container e ->
  handle duration dragging (Some p) e = Some u ->
  match moved dragging e with
  | Some StartMarker =>
      end_ u = end_ p
      /\ ((MIN_LOOP_DURATION <=? end_ p) = true ->
          within duration u
          /\ nearest 0 (end_ p - MIN_LOOP_DURATION) (asked duration e) (start u))
  | Some EndMarker =>
      start u = start p
      /\ ((start p + MIN_LOOP_DURATION <=? duration) = true ->
          within duration u
          /\ nearest (start p + MIN_LOOP_DURATION) duration
                     (asked duration e) (end_ u))
  | None => False
  end.
Proof.
  intros Hd0 Hdinf Hp Hover.
  assert (Hnd : num duration) by (now apply leb_num in Hd0).
  assert (Hdrag : forall marker clientX l w,
            finite clientX -> finite l -> finite w -> (0 <? w) = true ->
            match marker with
            | StartMarker =>
                end_ (drag duration marker p clientX l w) = end_ p
                /\ ((MIN_LOOP_DURATION <=? end_ p) = true ->
                    within duration (drag duration marker p clientX l w)
                    /\ nearest 0 (end_ p - MIN_LOOP_DURATION)
                               (newTime duration clientX l w)
                               (start (drag duration marker p clientX l w)))
            | EndMarker =>
                start (drag duration marker p clientX l w) = start p
                /\ ((start p + MIN_LOOP_DURATION <=? duration) = true ->
                    within duration (drag duration marker p clientX l w)
                    /\ nearest (start p + MIN_LOOP_DURATION) duration
                               (newTime duration clientX l w)
                               (end_ (drag duration marker p clientX l w)))
            end).
  { intros marker clientX l w Hx Hl Hw Hw0.
    pose proof (newTime_bounds duration clientX l w Hd0 Hdinf Hx Hl Hw Hw0) as Ht.
    destruct marker; (split; [reflexivity|]); intros Hlim.
    - now apply start_edit.
    - now apply end_edit. }
  destruct e as [x l w | touches l w | mins secs | mins secs];
    cbn [handle moved asked].
  - unfold handleMouseMove. destruct dragging as [marker|]; [|discriminate].
    intros [= <-]. destruct Hover as (Hx & Hl & Hw & Hw0). now apply Hdrag.
  - unfold handleTouchMove. destruct dragging as [marker|]; [|discriminate].
    destruct touches as [|x rest]; [discriminate|].
    intros [= <-]. destruct Hover as (Hx & Hl & Hw & Hw0).
    inversion Hx; subst. cbn [hd]. now apply Hdrag.
  - unfold applyStartTime.
    destruct (is_nan _ || _ || _) eqn:E; [discriminate|].
    intros [= <-]. split; [reflexivity|]. intros Hlim.
    apply guard_passes in E; [|assumption]. now apply start_edit.
  - unfold applyEndTime.
    destruct (is_nan _ || _ || _) eqn:E; [discriminate|].
    intros [= <-]. split; [reflexivity|]. intros Hlim.
    apply guard_passes in E; [|assumption]. now apply end_edit.
Qed.




End LoopEditorFacts.

(* ===================================================================== *)
(** ** The loop editor as the user drives it: properties *)
(* ===================================================================== *)

Module LoopEditorSessionFacts.

Import Waveform FloatOrder FloatOrderFacts LoopEditor LoopEditorFacts LoopEditorSession.
Local Open Scope float_scope.

Lemma reworked_refl duration m p : within duration p -> reworked duration m p p.
Proof. intros H. split; [assumption|]. destruct m; auto. Qed.

(** One action on marker [m], from a state that has been reached by such
    actions. *)
Lemma perform_on_marker duration m p st a :
  (0 <=? duration) = true -> (duration <? infinity) = true ->
  within duration p -> ready duration p m ->
  on_marker m a ->
  (dragging st = None \/ dragging st = Some m) ->
  (exists u, tempLoopPoints st = Some u /\ reworked duration m p u) ->
  (dragging (perform duration st a) = None
   \/ dragging (perform duration st a) = Some m)
  /\ exists u, tempLoopPoints (perform duration st a) = Some u
               /\ reworked duration m p u.
Proof.
  intros Hd0 Hdinf Hp Hready Ha Hdrag (u & Hu & Hre).
  destruct a as [|confirmed|marker| |e]; cbn [on_marker] in Ha.
  - contradiction.
  - subst confirmed. cbn. eauto.
  - subst marker. cbn. eauto.
  - cbn. eauto.
  - cbn [perform dragging tempLoopPoints]. split; [assumption|].
    rewrite Hu. destruct Hre as [Hw Hre].
    assert (Hover : over_container e)
      by (destruct e; [assumption|assumption|exact I|exact I]).
    destruct (handle duration (dragging st) (Some u) e) as [v|] eqn:E;
      cbn [stored]; [|exists u; split; [reflexivity|]; split; assumption].
    exists v. split; [reflexivity|].
    pose proof (handle_stores duration (dragging st) u e v Hd0 Hdinf Hw Hover E)
      as Hedit.
    assert (Hm : moved (dragging st) e = Some m).
    { destruct e; cbn [moved] in *; try (subst m; reflexivity).
      - unfold handleMouseMove in E. destruct Hdrag as [H | H]; rewrite H in *;
          [discriminate E | reflexivity].
      - unfold handleTouchMove in E. destruct Hdrag as [H | H]; rewrite H in *;
          [discriminate E | reflexivity]. }
    rewrite Hm in Hedit.
    destruct m; cbn [ready] in Hready; destruct Hre as [Hsame Hother],
      Hedit as [Hkeep Hnew].
    + rewrite Hsame in Hnew. destruct (Hnew Hready) as [Hwv ([_ Hlim] & _)].
      split; [assumption|]. split; [congruence|]. right. assumption.
    + rewrite Hsame in Hnew. destruct (Hnew Hready) as [Hwv ([Hlim _] & _)].
      split; [assumption|]. split; [congruence|]. right. assumption.
Qed.

(** X5: working on one marker, however long, never moves the other bound
    and keeps both bounds in the buffer.  From a pair within [0, duration]
    whose edited bound has room (the end is at least 0.1 for the start
    marker, [start + 0.1] is at most [duration] for the end marker), after
    any sequence of presses and releases of that marker, pointer moves over
    the container, typed times for its bound and declined resets, the
    component still holds a pair; its other bound is the one it had, both
    bounds lie in [0, duration], and the edited bound is where it was or
    within the limit the handlers compute from the other bound. *)
Theorem editing_one_bound (duration : float) (m : Marker) (p : LoopPoints)
    (actions : list Action) (st : State) :
  (0 <=? duration) = true -> (duration <? infinity) = true ->
  within duration p -> ready duration p m ->
  Forall (on_marker m) actions ->
  dragging st = None \/ dragging st = Some m ->
  tempLoopPoints st = Some p ->
  exists u, tempLoopPoints (session duration actions st) = Some u
            /\ reworked duration m p u.
Proof.
  intros Hd0 Hdinf Hp Hready Hall Hdrag Hst.
  assert (H : exists u, tempLoopPoints st = Some u /\ reworked duration m p u).
  { exists p. split; [assumption|]. now apply reworked_refl. }
  clear Hst. revert st Hdrag H. unfold session.
  induction Hall as [|a actions Ha _ IH]; intros st Hdrag H; cbn [fold_left].
  - exact H.
  - destruct (perform_on_marker duration m p st a Hd0 Hdinf Hp Hready Ha Hdrag H)
      as [Hdrag' H'].
    now apply IH.
Qed.

Lemma editing_one_bound_witness :
  exists u,
    tempLoopPoints
      (session 10 [MouseDown StartMarker; Change (MouseMove 250 50 400);
                   Change (MouseMove 900 50 400); MouseUp;
                   Change (MouseMove 100 50 400);
                   Change (ApplyStart 0 0x1.3fae147ae147bp+3)]
               {| dragging := None;
                  tempLoopPoints := Some {| start := 2; end_ := 5 |} |})
    = Some u
    /\ reworked 10 StartMarker {| start := 2; end_ := 5 |} u.
Proof.
  apply editing_one_bound.
  - reflexivity.
  - reflexivity.
  - repeat split.
  - reflexivity.
  - repeat constructor.
  - now left.
  - reflexivity.
Defined.

End LoopEditorSessionFacts.

(* ===================================================================== *)
(** ** The provider from mount to unmount: properties *)
(* ===================================================================== *)

Module SessionFacts.

Import Playback Session NumberFacts PlaybackFacts ListFacts.
Local Open Scope Q_scope.

(** *** Lists of sources, contexts and frames *)

Lemma live_stop x srcs :
  live_at (Some x) srcs -> all_stopped (update x mark_stopped srcs).
Proof.
  intros H n src. destruct (Nat.eq_dec x n) as [-> | Hne].
  - apply update_stop_stopped.
  - rewrite nth_error_update_neq by assumption. intros Hn.
    destruct (stopped src) eqn:E; [reflexivity|].
    specialize (H n src Hn E). congruence.
Qed.

Lemma live_none srcs : live_at None srcs -> all_stopped srcs.
Proof.
  intros H n src Hn. destruct (stopped src) eqn:E; [reflexivity|].
  specialize (H n src Hn E). discriminate H.
Qed.

Lemma stopped_stop y srcs : all_stopped srcs -> all_stopped (update y mark_stopped srcs).
Proof. intros H n. apply update_stop_keeps. apply H. Qed.

Lemma stopped_live r srcs : all_stopped srcs -> live_at r srcs.
Proof. intros H n src Hn E. rewrite (H n src Hn) in E. discriminate E. Qed.

Lemma stopped_start srcs src :
  all_stopped srcs -> live_at (Some (length srcs)) (srcs ++ [src]).
Proof.
  intros H n src' Hn E. f_equal.
  destruct (Nat.lt_ge_cases n (length srcs)) as [Hlt | Hge].
  - rewrite nth_error_app1 in Hn by assumption.
    rewrite (H n src' Hn) in E. discriminate E.
  - assert (Hlen : (n < length (srcs ++ [src]))%nat)
      by (apply nth_error_Some; congruence).
    rewrite length_app in Hlen. cbn in Hlen. lia.
Qed.

Lemma open_close x ctxs :
  open_at (Some x) ctxs -> all_closed (update x (fun _ => closed) ctxs).
Proof.
  intros H c st. destruct (Nat.eq_dec x c) as [-> | Hne].
  - rewrite nth_error_update_eq. destruct (nth_error ctxs c); cbn; congruence.
  - rewrite nth_error_update_neq by assumption. intros Hc.
    destruct st; try reflexivity;
      (assert (E : Some x = Some c) by (apply (H c _ Hc); discriminate);
       congruence).
Qed.

Lemma open_closed x ctxs :
  open_at (Some x) ctxs -> nth_error ctxs x = Some closed -> all_closed ctxs.
Proof.
  intros H Hx c st Hc.
  destruct st; try reflexivity;
    (assert (E : Some x = Some c) by (apply (H c _ Hc); discriminate);
     congruence).
Qed.

Lemma open_none ctxs : open_at None ctxs -> all_closed ctxs.
Proof.
  intros H c st Hc.
  destruct st; try reflexivity;
    (assert (E : @None nat = Some c) by (apply (H c _ Hc); discriminate);
     discriminate E).
Qed.

Lemma closed_open r ctxs : all_closed ctxs -> open_at r ctxs.
Proof. intros H c st Hc Hst. now apply H in Hc. Qed.

Lemma closed_new ctxs :
  all_closed ctxs -> open_at (Some (length ctxs)) (ctxs ++ [running]).
Proof.
  intros H c st Hc Hst. f_equal.
  destruct (Nat.lt_ge_cases c (length ctxs)) as [Hlt | Hge].
  - rewrite nth_error_app1 in Hc by assumption. now apply H in Hc.
  - assert (Hlen : (c < length (ctxs ++ [running]))%nat)
      by (apply nth_error_Some; congruence).
    rewrite length_app in Hlen. cbn in Hlen. lia.
Qed.

(** Changing the state of a context that is not closed. *)
Lemma open_update r ctxs x st st' :
  open_at r ctxs -> nth_error ctxs x = Some st -> st <> closed ->
  open_at r (update x (fun _ => st') ctxs).
Proof.
  intros H Hx Hst c st0. destruct (Nat.eq_dec x c) as [-> | Hne].
  - intros _ _. now apply (H c st).
  - rewrite nth_error_update_neq by assumption. apply H.
Qed.

Lemma update_missing {A} (f : A -> A) l : forall x,
  nth_error l x = None -> update x f l = l.
Proof.
  induction l as [|a l IH]; intros [|x] H; cbn in *; try reflexivity;
    try discriminate. now rewrite IH.
Qed.

Lemma frames_cancel r fs :
  frames_at r fs -> filter (fun h' => negb (Nat.eqb h' r)) fs = [].
Proof.
  intros H. induction fs as [|h fs IH]; cbn; [reflexivity|].
  destruct (H h (or_introl eq_refl)) as [-> _]. rewrite Nat.eqb_refl. cbn.
  apply IH. intros h' Hh'. apply H. now right.
Qed.

Lemma frames_zero fs : frames_at O fs -> fs = [].
Proof.
  destruct fs as [|h fs]; [reflexivity|]. intros H.
  destruct (H h (or_introl eq_refl)) as [H1 H2]. congruence.
Qed.

Lemma frames_request lf : frames_at (S lf) [S lf].
Proof. intros h [<- | []]. split; [reflexivity | discriminate]. Qed.

Lemma frames_none r : frames_at r [].
Proof. intros h []. Qed.

(** *** [stopPlayback] leaves nothing playing *)

Lemma stopPlayback_quiet s : one_source s -> one_frame s -> quiet (stopPlayback s).
Proof.
  unfold one_source, one_frame, quiet.
  open_state s.
  intros Hs Hf. unfold stopPlayback; cbn.
  destruct srcRef as [x|], nextRef as [y|], frameRef as [|h]; cbn;
    repeat split;
    try (apply frames_zero; assumption);
    try (apply frames_cancel; assumption);
    repeat first [ apply live_stop; assumption | apply stopped_stop ];
    try (apply live_none; assumption).
Qed.


Lemma frames_filter r f fs : frames_at r fs -> frames_at r (filter f fs).
Proof. intros H h Hh. apply filter_In in Hh as [Hh _]. now apply H. Qed.

(** Compute, leaving the arithmetic of times and the cut of the history as
    they are written. *)
Ltac calc := cbn -[Qplus Qminus Qopp Qmult Qle_bool Qgeb Qltb Qmax Qle Qlt firstn].
Tactic Notation "calc" "in" hyp(H) :=
  cbn -[Qplus Qminus Qopp Qmult Qle_bool Qgeb Qltb Qmax Qle Qlt firstn] in H.

(** Name every field of a state, as [open_state], computing as [calc]. *)
Ltac open_play s :=
  let b := fresh "b" in
  destruct s as [playing looping time dur history ctxRef bufRef srcRef gainRef
                 fadeRef startRef pauseRef frameRef pointsRef loopingRef
                 scheduledRef nextRef b];
  destruct b as [ctxs srcs gns pending last waiting log];
  cbn -[Qplus Qminus Qopp Qmult Qle_bool Qgeb Qltb Qmax Qle Qlt firstn] in *.

Ltac open_inv :=
  unfold calm, invariant, quiet, one_source, one_frame, one_context, state_agrees in *.

Ltac stopped_sources :=
  repeat first [ apply live_stop; assumption | apply stopped_stop ];
  first [ assumption | apply live_none; assumption ].

Ltac closed_contexts :=
  first [ assumption
        | apply open_close; assumption
        | apply open_none; assumption
        | eapply open_closed; eassumption ].

Ltac close_inv :=
  repeat match goal with
  | |- _ /\ _ => split
  | |- live_at _ (_ ++ [_]) => apply stopped_start; stopped_sources
  | |- live_at _ _ => first [ assumption | apply stopped_live; stopped_sources ]
  | |- all_stopped _ => stopped_sources
  | |- frames_at _ [] => apply frames_none
  | H : ?l = [] |- frames_at _ ?l => rewrite H; apply frames_none
  | |- frames_at (S ?n) [S ?n] => apply frames_request
  | |- frames_at _ (filter _ _) => apply frames_filter; assumption
  | |- frames_at _ _ => assumption
  | |- open_at _ (_ ++ [running]) => apply closed_new; closed_contexts
  | |- open_at _ _ => first [ assumption | apply closed_open; closed_contexts ]
  | |- all_closed _ => closed_contexts
  | |- @eq (list nat) _ [] =>
      first [ reflexivity | assumption | apply frames_cancel; assumption
            | apply frames_zero; assumption ]
  | |- @eq bool _ _ => first [ reflexivity | assumption ]
  | |- forall id, None = Some id -> _ => intros ? ?; discriminate
  end.

Lemma stopPlayback_calm s :
  invariant s -> calm (stopPlayback s) /\ quiet (stopPlayback s).
Proof.
  intros H. pose proof H as (Hs & Hf & _). split; [|now apply stopPlayback_quiet].
  pose proof (stopPlayback_quiet s Hs Hf) as Hq. revert H Hq. open_inv.
  open_state s. intros (_ & _ & Hc & Ha1 & Ha2). unfold stopPlayback; cbn.
  destruct srcRef as [x|], nextRef as [y|], frameRef as [|h]; cbn;
    intros (_ & _ & _ & Hst & Hfr); close_inv; auto.
Qed.

Lemma startPlayback_run_calm buf startFrom fadeIn now s :
  invariant s -> calm (fst (startPlayback_run buf startFrom fadeIn now s)).
Proof.
  intros H. destruct (stopPlayback_calm s H) as [Hc Hq].
  unfold startPlayback_run. revert Hc Hq. generalize (stopPlayback s).
  clear s H. intros s. open_inv. open_state s.
  intros ((Hs & Hf & Hc & Ha1 & Ha2) & Hfr) (-> & -> & -> & Hst & _).
  subst pending. step.
  destruct loopingRef, pointsRef as [points|]; step;
    repeat match goal with
    | |- context [if ?b then _ else _] => destruct b; step
    end; close_inv; auto.
Qed.

(** A step that leaves sources, frames, contexts and the agreeing state
    where they are. *)
Ltac same_state s H :=
  solve [ revert H; open_inv; open_state s;
          intros ((Hs & Hf & Hc & Ha1 & Ha2) & Hfr); close_inv; auto ].

Lemma startPlayback_calm startFrom fadeIn now s :
  calm s -> calm (fst (startPlayback startFrom fadeIn now s)).
Proof.
  intros H. unfold startPlayback.
  destruct (audioContextRef s) as [c|]; [|same_state s H].
  destruct (audioBufferRef s) as [buf|]; [|same_state s H].
  destruct (gainNodeRef s) as [g|]; [|same_state s H].
  destruct (context_state c s) as [[| |]|]; try same_state s H.
  apply startPlayback_run_calm. apply H.
Qed.

Lemma startPlayback_detached_calm startFrom fadeIn now s :
  calm s -> calm (startPlayback_detached startFrom fadeIn now s).
Proof.
  intros H. apply (startPlayback_calm startFrom fadeIn now) in H.
  unfold startPlayback_detached.
  destruct (startPlayback startFrom fadeIn now s) as [s' [| |k]]; cbn [fst] in H;
    try assumption.
  same_state s' H.
Qed.

Lemma setCurrentTime_calm v s : calm s -> calm (setCurrentTime v s).
Proof. intros H. same_state s H. Qed.

Lemma rearm_invariant s :
  calm s ->
  invariant (s |> on_browser requestAnimationFrame
               |> set_animationFrameRef (S (lastFrame (browser s)))).
Proof.
  revert s. open_inv. intros s. open_state s.
  intros ((Hs & Hf & Hc & Ha1 & Ha2) & ->). close_inv; auto.
Qed.

Lemma ended_invariant s :
  calm s ->
  invariant (s |> setPlayingRecordingId None |> setIsLooping false
               |> setCurrentTime 0 |> set_isLoopingRef false).
Proof.
  revert s. open_inv. intros s. open_state s.
  intros ((Hs & Hf & Hc & Ha1 & Ha2) & ->). close_inv; auto.
Qed.

Lemma updatePlayback_invariant now s : calm s -> invariant (updatePlayback now s).
Proof.
  intros H. unfold updatePlayback.
  destruct (audioContextRef s) as [c|]; [|apply H].
  destruct (audioBufferRef s) as [buf|]; [|apply H].
  cbv zeta.
  pose proof (setCurrentTime_calm (position now s) s H) as H1.
  set (s1 := setCurrentTime (position now s) s) in *. clearbody s1.
  destruct (isLoopingRef s1), (loopPointsRef s1) as [points|].
  - apply rearm_invariant.
    destruct (Qgeb (position now s) (end_ points)); [|exact H1].
    apply startPlayback_detached_calm. apply stopPlayback_calm. apply H1.
  - now apply rearm_invariant.
  - destruct (Qgeb (position now s) (buffer_duration buf)).
    + apply ended_invariant. apply stopPlayback_calm. apply H1.
    + now apply rearm_invariant.
  - destruct (Qgeb (position now s) (buffer_duration buf)).
    + apply ended_invariant. apply stopPlayback_calm. apply H1.
    + now apply rearm_invariant.
Qed.

Lemma existsb_In h fs : existsb (Nat.eqb h) fs = true -> In h fs.
Proof.
  intros H. apply existsb_exists in H as (x & Hx & E).
  apply Nat.eqb_eq in E. now subst.
Qed.

Lemma animationFrame_invariant h now s :
  invariant s -> invariant (animationFrame h now s).
Proof.
  intros H. unfold animationFrame.
  destruct (existsb (Nat.eqb h) (frames (browser s))) eqn:E; [|exact H].
  apply existsb_In in E. apply updatePlayback_invariant.
  revert H E. open_inv. open_state s.
  intros (Hs & Hf & Hc & Ha1 & Ha2) E.
  destruct (Hf h E) as [-> _]. close_inv; auto.
Qed.

Lemma context_suspended_invariant c s :
  invariant s -> invariant (context_suspended c s).
Proof.
  intros H. unfold context_suspended.
  destruct (context_state c s) as [[| |]|] eqn:E; try exact H.
  revert H E. open_inv. unfold context_state. open_state s.
  intros (Hs & Hf & Hc & Ha1 & Ha2) E. close_inv; auto.
  eapply open_update; [eassumption | eassumption | discriminate].
Qed.

Lemma resume_invariant k now s :
  invariant s -> context_state (held_context k) s <> Some closed ->
  invariant (fst (resume k now s)).
Proof.
  intros H Hk. unfold resume. apply startPlayback_run_calm.
  revert H Hk. open_inv. unfold context_state. open_state s.
  intros (Hs & Hf & Hc & Ha1 & Ha2) Hk. close_inv; auto.
  destruct (nth_error ctxs (held_context k)) as [st|] eqn:E.
  - eapply open_update; [eassumption | eassumption | congruence].
  - now rewrite update_missing.
Qed.

Lemma resume_settled_invariant now s :
  invariant s -> invariant (resume_settled now s).
Proof.
  intros H. unfold resume_settled.
  destruct (suspensions (browser s)) as [|k rest] eqn:E; [exact H|].
  cbv zeta.
  match goal with
  | |- context [context_state _ ?t] =>
      assert (H1 : invariant t);
      [revert H; open_inv; open_state s; intros (Hs & Hf & Hc & Ha1 & Ha2);
       close_inv; auto | set (s1 := t) in *; clearbody s1]
  end.
  destruct (context_state (held_context k) s1) as [[| |]|] eqn:Ek;
    try exact H1; apply resume_invariant; auto; congruence.
Qed.

Lemma close_stop_idle s :
  invariant s ->
  let s0 := close_current_context (stopPlayback s) in
  calm s0 /\ quiet s0 /\ all_closed (contexts (browser s0)).
Proof.
  intros H. destruct (stopPlayback_calm s H) as [Hc Hq]. cbv zeta.
  revert Hc Hq. generalize (stopPlayback s). clear s H. intros s. open_inv.
  unfold close_current_context, context_state. open_state s.
  intros ((Hs & Hf & Hc & Ha1 & Ha2) & Hfr) (-> & -> & -> & Hst & _).
  destruct ctxRef as [c|]; step;
    [destruct (nth_error ctxs c) as [[| |]|] eqn:E; step|];
    close_inv; auto.
Qed.

Section PlayInvariant.

Variable Blob : Type.
Variable decodeAudioData : Blob -> option AudioBuffer.

Lemma playRecording_invariant id audioBlob loop loopPoints dateNow now s :
  invariant s ->
  invariant (fst (playRecording Blob decodeAudioData id audioBlob loop loopPoints
                                dateNow now s)).
Proof.
  intros H. destruct (close_stop_idle s H) as (Hc & Hq & Hcl). cbv zeta in *.
  unfold playRecording.
  match goal with
  | |- context [if ?b then _ else _] => destruct b
  end; cbv zeta; revert Hc Hq Hcl;
    generalize (close_current_context (stopPlayback s)); clear s H;
    intros s; open_inv; open_play s;
    intros ((Hs & Hf & Hc & Ha1 & Ha2) & ->) (-> & -> & -> & Hst & _) Hcl.
  - close_inv; auto.
  - destruct (decodeAudioData audioBlob) as [buf|]; calc; [|close_inv; auto].
    unfold startPlayback, context_state; calc. rewrite nth_error_snoc.
    unfold startPlayback_run, stopPlayback; calc.
    destruct loop, loopPoints as [points|]; calc;
      repeat match goal with
      | |- context [if ?b then _ else _] => destruct b; calc
      end; close_inv; auto;
      intros ? _; repeat eexists.
Qed.

Lemma react_invariant s ev :
  invariant s -> invariant (react Blob decodeAudioData s ev).
Proof.
  intros H. destruct ev as [id blob loop points dateNow now | | h now | c | now];
    cbn [react].
  - now apply playRecording_invariant.
  - now apply stopPlayback_calm.
  - now apply animationFrame_invariant.
  - now apply context_suspended_invariant.
  - now apply resume_settled_invariant.
Qed.

Lemma run_invariant events : forall s,
  invariant s -> invariant (run Blob decodeAudioData events s).
Proof.
  unfold run. induction events as [|ev events IH]; intros s H; cbn [fold_left].
  - exact H.
  - apply IH. now apply react_invariant.
Qed.

End PlayInvariant.

Lemma mount_invariant : invariant mount.
Proof.
  open_inv. cbn. close_inv.
  - intros n src Hn. destruct n; discriminate Hn.
  - intros c st Hc. destruct c; discriminate Hc.
Qed.

Section Run.

Variable Blob : Type.
Variable decodeAudioData : Blob -> option AudioBuffer.

(** X8: from the mount on, whatever consumers and the browser do, one event
    after the other: at most one source is not stopped, at most one frame is
    requested, at most one context is not closed, each being the one the
    provider's ref names; and the React state agrees with the refs. *)
Theorem provider_invariant (events : list (Event Blob)) :
  let s := run Blob decodeAudioData events mount in
  invariant s
  /\ (forall n m a b,
        nth_error (sources (browser s)) n = Some a ->
        nth_error (sources (browser s)) m = Some b ->
        stopped a = false -> stopped b = false -> n = m)
  /\ (forall h h', In h (frames (browser s)) -> In h' (frames (browser s)) -> h = h')
  /\ (forall c d st st',
        nth_error (contexts (browser s)) c = Some st ->
        nth_error (contexts (browser s)) d = Some st' ->
        st <> closed -> st' <> closed -> c = d).
Proof.
  cbv zeta.
  pose proof (run_invariant Blob decodeAudioData events mount mount_invariant) as H.
  split; [exact H|]. destruct H as (Hs & Hf & Hc & _).
  split; [|split].
  - intros n m a b Hn Hm Ha Hb.
    pose proof (Hs n a Hn Ha) as E1. pose proof (Hs m b Hm Hb) as E2. congruence.
  - intros h h' Hh Hh'.
    destruct (Hf h Hh) as [E1 _]. destruct (Hf h' Hh') as [E2 _]. congruence.
  - intros c d st st' Hc1 Hc2 Hst Hst'.
    pose proof (Hc c st Hc1 Hst) as E1. pose proof (Hc d st' Hc2 Hst') as E2.
    congruence.
Qed.

Lemma unmount_released s :
  invariant s ->
  released (unmount s)
  /\ sourceNodeRef (unmount s) = None /\ animationFrameRef (unmount s) = O
  /\ audioContextRef (unmount s) = None /\ audioBufferRef (unmount s) = None
  /\ gainNodeRef (unmount s) = None /\ crossfadeGainNodeRef (unmount s) = None.
Proof.
  intros H. destruct (close_stop_idle s H) as (Hc & Hq & Hcl). cbv zeta in *.
  unfold unmount, released. revert Hc Hq Hcl.
  generalize (close_current_context (stopPlayback s)). clear s H.
  intros s; open_inv; open_state s.
  intros ((Hs & Hf & Hc & Ha1 & Ha2) & ->) (-> & -> & -> & Hst & _) Hcl.
  repeat split; assumption.
Qed.

(** X9: when the provider unmounts, after whatever happened since it
    mounted, nothing is left behind: every source is stopped, every audio
    context is closed, no frame is requested, and the refs are cleared. *)
Theorem unmount_releases (events : list (Event Blob)) :
  let s := unmount (run Blob decodeAudioData events mount) in
  released s
  /\ sourceNodeRef s = None /\ animationFrameRef s = O
  /\ audioContextRef s = None /\ audioBufferRef s = None
  /\ gainNodeRef s = None /\ crossfadeGainNodeRef s = None.
Proof.
  cbv zeta. apply unmount_released. apply run_invariant. apply mount_invariant.
Qed.

End Run.

(** *** The play history along the events *)

Lemma startPlayback_detached_history startFrom fadeIn now s :
  playHistory (startPlayback_detached startFrom fadeIn now s) = playHistory s.
Proof.
  unfold startPlayback_detached.
  pose proof (startPlayback_history startFrom fadeIn now s) as H.
  destruct (startPlayback startFrom fadeIn now s) as [s' [| |k]]; cbn [fst] in H;
    try assumption.
  rewrite <- H. open_state s'. reflexivity.
Qed.

Lemma stopPlayback_history s : playHistory (stopPlayback s) = playHistory s.
Proof. apply stopPlayback_frame. Qed.

Lemma updatePlayback_history now s : playHistory (updatePlayback now s) = playHistory s.
Proof.
  unfold updatePlayback.
  destruct (audioContextRef s) as [c|]; [|reflexivity].
  destruct (audioBufferRef s) as [buf|]; [|reflexivity].
  cbv zeta.
  assert (H1 : playHistory (setCurrentTime (position now s) s) = playHistory s)
    by (open_state s; reflexivity).
  set (s1 := setCurrentTime (position now s) s) in *. clearbody s1.
  assert (Hend : forall s2, playHistory (s2 |> setPlayingRecordingId None
                                            |> setIsLooping false
                                            |> setCurrentTime 0
                                            |> set_isLoopingRef false)
                            = playHistory s2)
    by (intros s2; open_state s2; reflexivity).
  destruct (isLoopingRef s1), (loopPointsRef s1) as [points|];
    repeat match goal with
    | |- context [if ?b then _ else _] => destruct b
    end;
    rewrite ?Hend, ?next_frame_history, ?startPlayback_detached_history,
      ?stopPlayback_history; assumption.
Qed.

Lemma animationFrame_history h now s :
  playHistory (animationFrame h now s) = playHistory s.
Proof.
  unfold animationFrame. destruct (existsb _ _); [|reflexivity].
  rewrite updatePlayback_history. open_state s. reflexivity.
Qed.

Lemma context_suspended_history c s :
  playHistory (context_suspended c s) = playHistory s.
Proof.
  unfold context_suspended.
  destruct (context_state c s) as [[| |]|]; try reflexivity.
  open_state s. reflexivity.
Qed.

Lemma resume_settled_history now s :
  playHistory (resume_settled now s) = playHistory s.
Proof.
  unfold resume_settled.
  destruct (suspensions (browser s)) as [|k rest]; [reflexivity|]. cbv zeta.
  match goal with
  | |- context [context_state _ ?t] =>
      assert (H1 : playHistory t = playHistory s) by (open_state s; reflexivity);
      set (s1 := t) in *; clearbody s1
  end.
  destruct (context_state _ s1) as [[| |]|]; rewrite ?resume_history; assumption.
Qed.

Section PlayHistory.

Variable Blob : Type.
Variable decodeAudioData : Blob -> option AudioBuffer.

(** A call of [playRecording] leaves the history as it was or puts the new
    entry at its head. *)
Lemma playRecording_history id audioBlob loop loopPoints dateNow now s :
  let s' := fst (playRecording Blob decodeAudioData id audioBlob loop loopPoints
                               dateNow now s) in
  playHistory s' = playHistory s \/ playHistory s' = played id dateNow (playHistory s).
Proof.
  cbv zeta.
  pose proof (close_current_context_history (stopPlayback s)) as Hc.
  rewrite stopPlayback_history in Hc.
  unfold playRecording.
  match goal with
  | |- context [if ?b then _ else _] => destruct b
  end; cbv zeta.
  - left. rewrite <- Hc.
    destruct (close_current_context (stopPlayback s))
      as [? ? ? ? ? ? ? ? ? ? ? ? ? ? ? ? ? []].
    reflexivity.
  - destruct (decodeAudioData audioBlob) as [buf|].
    + right.
      match goal with
      | |- context [startPlayback ?a ?b ?c ?d] =>
          pose proof (startPlayback_history a b c d) as H1;
          destruct (startPlayback a b c d) as [s1 [| |k]]
      end; cbn [fst] in H1; cbv beta iota zeta;
        try (pose proof (resume_history k now s1) as H2;
             destruct (resume k now s1) as [s2 [| |k2]]; cbn [fst] in H2;
             rewrite H1 in H2; clear H1; rename H2 into H1);
        cbv beta iota zeta; cbn [fst];
        rewrite ?playRecording_catch_history, ?next_frame_history, H1;
        destruct (close_current_context (stopPlayback s))
          as [? ? ? ? ? ? ? ? ? ? ? ? ? ? ? ? ? []];
        cbn in *; now subst.
    + left. cbn [fst]. rewrite playRecording_catch_history, <- Hc.
      destruct (close_current_context (stopPlayback s))
        as [? ? ? ? ? ? ? ? ? ? ? ? ? ? ? ? ? []].
      reflexivity.
Qed.

Lemma react_history s ev :
  playHistory (react Blob decodeAudioData s ev) = playHistory s
  \/ exists id dateNow,
       playHistory (react Blob decodeAudioData s ev) = played id dateNow (playHistory s).
Proof.
  destruct ev as [id blob loop points dateNow now | | h now | c | now]; cbn [react].
  - destruct (playRecording_history id blob loop points dateNow now s) as [H | H];
      [now left | right; eauto].
  - left. apply stopPlayback_history.
  - left. apply animationFrame_history.
  - left. apply context_suspended_history.
  - left. apply resume_settled_history.
Qed.

End PlayHistory.

Lemma played_distinct id dateNow prev :
  distinct prev -> distinct (played id dateNow prev).
Proof.
  unfold distinct, played. intros H. rewrite <- firstn_map. apply NoDup_firstn.
  cbn [map recordingId]. constructor.
  - intros Hin. apply in_map_iff in Hin as (e & He & Hin).
    apply filter_In in Hin as [_ Hne]. rewrite He, String.eqb_refl in Hne.
    discriminate Hne.
  - now apply NoDup_map_filter.
Qed.

Lemma played_length id dateNow prev : (length (played id dateNow prev) <= 1000)%nat.
Proof. unfold played. rewrite length_firstn. lia. Qed.

Lemma unique_distinct ids : NoDup ids -> unique ids = ids.
Proof.
  induction 1 as [|id ids Hid _ IH]; cbn; [reflexivity|]. rewrite IH. f_equal.
  apply forallb_filter_id. apply forallb_forall. intros x Hx.
  destruct (String.eqb_spec x id) as [-> | Hne]; [contradiction | reflexivity].
Qed.

Section RunHistory.

Variable Blob : Type.
Variable decodeAudioData : Blob -> option AudioBuffer.

(** X10: the history never holds two entries for one recording, and never
    more than 1000 entries, once it is so (it is when the provider mounts
    with nothing stored); the list of recently played recordings is then the
    ids of the recent entries in the order of the history, last played
    first. *)
Theorem history_distinct (events : list (Event Blob)) (s : Provider) :
  distinct (playHistory s) ->
  let s' := run Blob decodeAudioData events s in
  distinct (playHistory s')
  /\ ((length (playHistory s) <= 1000)%nat -> (length (playHistory s') <= 1000)%nat)
  /\ (forall dateNow,
        recentlyPlayedRecordings dateNow s'
        = map recordingId
            (filter (fun entry =>
                       (dateNow - 7 * 24 * 60 * 60 * 1000 <? timestamp entry)%Z)
                    (playHistory s'))).
Proof.
  intros H. cbv zeta.
  assert (Hrun : distinct (playHistory (run Blob decodeAudioData events s))
                 /\ ((length (playHistory s) <= 1000)%nat ->
                     (length (playHistory (run Blob decodeAudioData events s))
                      <= 1000)%nat)).
  { revert s H. unfold run.
    induction events as [|ev events IH]; intros s H; cbn [fold_left]; [auto|].
    destruct (react_history Blob decodeAudioData s ev) as [E | (id & dateNow & E)].
    - destruct (IH (react Blob decodeAudioData s ev)) as [I1 I2];
        [now rewrite E|]. rewrite E in I2. auto.
    - destruct (IH (react Blob decodeAudioData s ev)) as [I1 I2];
        [rewrite E; now apply played_distinct|].
      split; [assumption|]. intros _. apply I2. rewrite E. apply played_length. }
  destruct Hrun as [H1 H2]. split; [assumption|]. split; [assumption|].
  intros dateNow. unfold recentlyPlayedRecordings. apply unique_distinct.
  now apply NoDup_map_filter.
Qed.

End RunHistory.

Lemma history_distinct_witness :
  distinct (playHistory
              (run (list nat) decode_example
                   [PlayRecording (list nat) "A" [1%nat] false None 1000 0;
                    PlayRecording (list nat) "B" [1%nat] false None 2000 0;
                    PlayRecording (list nat) "A" [1%nat] false None 3000 0]
                   mount)).
Proof.
  apply (history_distinct (list nat) decode_example).
  constructor.
Defined.

(** *** A play that starts, a play that fails *)

(** What [playRecording] has done before it creates a context. *)
Lemma close_stop_facts s :
  let s0 := close_current_context (stopPlayback s) in
  (sourceNodeRef s0 = None /\ nextSourceRef s0 = None /\ animationFrameRef s0 = O)
  /\ length (contexts (browser s0)) = length (contexts (browser s))
  /\ length (sources (browser s0)) = length (sources (browser s))
  /\ lastFrame (browser s0) = lastFrame (browser s)
  /\ console (browser s0) = console (browser s)
  /\ playHistory s0 = playHistory s
  /\ (forall c st, audioContextRef s = Some c -> context_state c s = Some st ->
                   nth_error (contexts (browser s0)) c = Some closed)
  /\ (forall n src, sourceNodeRef s = Some n ->
                    nth_error (sources (browser s0)) n = Some src ->
                    stopped src = true)
  /\ (animationFrameRef s <> O -> ~ In (animationFrameRef s) (frames (browser s0)))
  /\ (forall h, In h (frames (browser s0)) -> In h (frames (browser s))).
Proof.
  cbv zeta. open_state s.
  unfold stopPlayback, close_current_context, context_state; calc.
  destruct srcRef as [x|], nextRef as [y|], frameRef as [|h], ctxRef as [c|]; calc;
    try (destruct (nth_error ctxs c) as [[| |]|] eqn:Ec; step);
    rewrite ?update_length;
    (split; [repeat split|]);
    do 5 (split; [reflexivity|]);
    (split; [intros c' st Hc Hst; try discriminate Hc; try injection Hc as <-;
             rewrite ?nth_error_update_eq, ?Hst; cbn; congruence|]);
    (split; [intros n src Hn; try discriminate Hn; try injection Hn as <-;
             revert src;
             repeat first [ apply update_stop_stopped | apply update_stop_keeps ]|]);
    (split; [intros Hh; try congruence; apply filter_not_pending|]);
    intros h'; try apply filter_pending; auto.
Qed.

Section PlayStarts.

Variable Blob : Type.
Variable decodeAudioData : Blob -> option AudioBuffer.

Abbreviation play := (playRecording Blob decodeAudioData).

(** A play that starts, told from the state [s0] in which the context is
    created. *)
Lemma play_fresh s id audioBlob loop loopPoints dateNow now buf :
  ~ (playingRecordingId s = Some id /\ isLooping s = loop) ->
  decodeAudioData audioBlob = Some buf ->
  (forall p, loop = true -> loopPoints = Some p -> 0 <= start p <= end_ p) ->
  let s0 := close_current_context (stopPlayback s) in
  let s' := fst (play id audioBlob loop loopPoints dateNow now s) in
  snd (play id audioBlob loop loopPoints dateNow now s) = Fulfilled
  /\ contexts (browser s') = contexts (browser s0) ++ [running]
  /\ sources (browser s')
     = sources (browser s0)
       ++ [{| source_buffer := buf; offset := first_offset loop loopPoints;
              playDuration := first_duration loop loopPoints; stopped := false |}]
  /\ frames (browser s') = S (lastFrame (browser s0)) :: frames (browser s0)
  /\ lastFrame (browser s') = S (lastFrame (browser s0))
  /\ console (browser s') = console (browser s0)
  /\ audioContextRef s' = Some (length (contexts (browser s0)))
  /\ sourceNodeRef s' = Some (length (sources (browser s0)))
  /\ animationFrameRef s' = S (lastFrame (browser s0))
  /\ audioBufferRef s' = Some buf
  /\ playingRecordingId s' = Some id /\ isLooping s' = loop
  /\ isLoopingRef s' = loop /\ loopPointsRef s' = loopPoints
  /\ duration s' = buffer_duration buf /\ currentTime s' = 0
  /\ startTimeRef s' = now /\ pauseTimeRef s' = first_offset loop loopPoints
  /\ playHistory s' = played id dateNow (playHistory s0).
Proof.
  intros Hnot Hdec Hpoints. cbv zeta.
  remember (play id audioBlob loop loopPoints dateNow now s) as r eqn:E.
  unfold playRecording in E.
  rewrite (not_toggle s id loop Hnot), Hdec in E. clear Hnot. cbv zeta in E.
  destruct (close_stop_facts s) as ((F1 & F2 & F3) & _). cbv zeta in *.
  revert E F1 F2 F3. generalize (close_current_context (stopPlayback s)).
  clear s. intros s. open_play s. intros E -> -> ->.
  unfold startPlayback, context_state in E; calc in E. rewrite nth_error_snoc in E.
  unfold startPlayback_run, stopPlayback in E; calc in E.
  unfold played, first_offset, first_duration.
  destruct loop, loopPoints as [p|];
    try (destruct (Hpoints p eq_refl eq_refl) as [Hp1 Hp2];
         assert (E1 : Qltb (start p) 0 = false) by (now apply Qltb_ge);
         assert (E2 : Qltb (end_ p - start p) 0 = false) by (apply Qltb_ge; lra));
    calc in E; rewrite ?Qgeb_refl, ?E1, ?E2 in E; calc in E; subst r;
    calc; repeat split.
Qed.

(** X11: a play that starts.  The call is not a toggle, the bytes decode, and
    in loop mode the loop points, if any, have 0 <= start <= end.  Then what
    played before is stopped and its context closed; a new context runs and
    holds the one source started, from the loop start and for the length of
    the loop in loop mode with loop points, from 0 and to the end of the
    buffer otherwise (the loop points are not read in normal mode); the
    recording is reported as playing in that mode and in no other, with the
    duration of the buffer and the time 0; the tracked position is the offset
    of the source, and one frame is requested. *)
Theorem playRecording_starts (s : Provider) (id : string) (audioBlob : Blob)
    (loop : bool) (loopPoints : option LoopPoints) (dateNow : Z) (now : Q)
    (buf : AudioBuffer) :
  ~ (playingRecordingId s = Some id /\ isLooping s = loop) ->
  decodeAudioData audioBlob = Some buf ->
  (forall p, loop = true -> loopPoints = Some p -> 0 <= start p <= end_ p) ->
  let s' := fst (play id audioBlob loop loopPoints dateNow now s) in
  let c := length (contexts (browser s)) in
  let n := length (sources (browser s)) in
  snd (play id audioBlob loop loopPoints dateNow now s) = Fulfilled
  /\ audioContextRef s' = Some c /\ context_state c s' = Some running
  /\ (forall c0 st, audioContextRef s = Some c0 -> context_state c0 s = Some st ->
                    context_state c0 s' = Some closed)
  /\ audioBufferRef s' = Some buf
  /\ sourceNodeRef s' = Some n
  /\ nth_error (sources (browser s')) n
     = Some {| source_buffer := buf; offset := first_offset loop loopPoints;
               playDuration := first_duration loop loopPoints; stopped := false |}
  /\ length (sources (browser s')) = S n
  /\ (forall m, sourceNodeRef s = Some m -> (m < n)%nat -> is_stopped m s')
  /\ playingRecordingId s' = Some id /\ isLooping s' = loop
  /\ isLoopingRef s' = loop /\ loopPointsRef s' = loopPoints
  /\ isPlaying id (Some loop) s' = true
  /\ isPlaying id (Some (negb loop)) s' = false
  /\ (forall id' checkLoop, id' <> id -> isPlaying id' checkLoop s' = false)
  /\ duration s' = buffer_duration buf /\ currentTime s' = 0
  /\ position now s' == first_offset loop loopPoints
  /\ animationFrameRef s' = S (lastFrame (browser s))
  /\ In (animationFrameRef s') (frames (browser s')).
Proof.
  intros Hnot Hdec Hpoints. cbv zeta.
  destruct (play_fresh s id audioBlob loop loopPoints dateNow now buf
              Hnot Hdec Hpoints)
    as (P1 & P2 & P3 & P4 & P5 & P6 & P7 & P8 & P9 & P10 & P11 & P12 & P13 & P14
        & P15 & P16 & P17 & P18 & P19).
  destruct (close_stop_facts s) as (_ & F2 & F3 & F4 & _ & _ & F7 & F8 & _).
  cbv zeta in *.
  set (s' := fst (play id audioBlob loop loopPoints dateNow now s)) in *.
  set (s0 := close_current_context (stopPlayback s)) in *.
  rewrite F2 in P7. rewrite F3 in P8. rewrite F4 in P9.
  unfold context_state, is_stopped, isPlaying, position.
  rewrite P2, P3, P4, P7, P8, P9, P10, P11, P12, P13, P14, P15, P16, P17, P18.
  rewrite <- F2, <- F3, !nth_error_snoc, length_app, String.eqb_refl, eqb_reflx.
  repeat split; try reflexivity.
  - exact P1.
  - intros c0 st Hc Hst. apply nth_error_snoc_old. now apply (F7 c0 st).
  - cbn. lia.
  - intros m Hm Hlt src. rewrite nth_error_app1 by lia. now apply F8.
  - now destruct loop.
  - intros id' [l|] Hne; destruct (String.eqb_spec id id');
      first [ congruence | reflexivity ].
  - ring.
  - rewrite F4. now left.
Qed.

(** X12: a play in loop mode whose loop points have a negative start or an
    end before the start: the bytes decode, the history gets its entry and
    the duration is reported, then [source.start] throws.  The error is
    logged and swallowed; no source is started and no frame requested, no
    recording is reported as playing, and the context created for the play
    stays open. *)
Theorem playRecording_start_fails (s : Provider) (id : string) (audioBlob : Blob)
    (p : LoopPoints) (dateNow : Z) (now : Q) (buf : AudioBuffer) :
  ~ (playingRecordingId s = Some id /\ isLooping s = true) ->
  decodeAudioData audioBlob = Some buf ->
  start p < 0 \/ end_ p < start p ->
  let s' := fst (play id audioBlob true (Some p) dateNow now s) in
  let c := length (contexts (browser s)) in
  snd (play id audioBlob true (Some p) dateNow now s) = Fulfilled
  /\ console (browser s') = console (browser s) ++ ["Error playing audio:"%string]
  /\ length (sources (browser s')) = length (sources (browser s))
  /\ sourceNodeRef s' = None
  /\ animationFrameRef s' = O
  /\ lastFrame (browser s') = lastFrame (browser s)
  /\ (forall h, In h (frames (browser s')) -> In h (frames (browser s)))
  /\ playingRecordingId s' = None /\ isLooping s' = false /\ isLoopingRef s' = false
  /\ (forall id' checkLoop, isPlaying id' checkLoop s' = false)
  /\ playHistory s'
     = firstn 1000 ({| recordingId := id; timestamp := dateNow |}
                    :: filter (fun e => negb (String.eqb (recordingId e) id))
                              (playHistory s))
  /\ duration s' = buffer_duration buf
  /\ audioContextRef s' = Some c /\ context_state c s' = Some running.
Proof.
  intros Hnot Hdec Hbad. cbv zeta.
  destruct (close_stop_facts s)
    as ((F1 & F2 & F3) & G2 & G3 & G4 & G5 & G6 & _ & _ & _ & G10).
  cbv zeta in *.
  remember (play id audioBlob true (Some p) dateNow now s) as r eqn:E.
  unfold playRecording in E.
  rewrite (not_toggle s id true Hnot), Hdec in E. clear Hnot. cbv zeta in E.
  rewrite <- G2, <- G3, <- G4, <- G5, <- G6.
  assert (G10' : forall h,
            In h (frames (browser (close_current_context (stopPlayback s)))) ->
            In h (frames (browser s))) by exact G10.
  revert E F1 F2 F3. clear G2 G3 G4 G5 G6 G10.
  set (old := frames (browser s)) in *. clearbody old. revert G10'.
  generalize (close_current_context (stopPlayback s)).
  clear s. intros s. open_play s. intros G10 E -> -> ->.
  unfold startPlayback, context_state in E; calc in E. rewrite nth_error_snoc in E.
  unfold startPlayback_run, stopPlayback in E; calc in E.
  rewrite Qgeb_refl in E.
  assert (Ebad : Qltb (start p) 0 || Qltb (end_ p - start p) 0 = true).
  { apply orb_true_iff. rewrite !Qltb_lt. destruct Hbad; [left | right]; lra. }
  rewrite Ebad in E. calc in E. subst r. unfold context_state, isPlaying. calc.
  rewrite nth_error_snoc.
  repeat split; try reflexivity; try assumption.
  intros id' [l|]; reflexivity.
Qed.

End PlayStarts.

Lemma playRecording_start_fails_witness :
  isPlaying "B" None
            (fst (play_example "B" [1%nat] true (Some {| start := 5; end_ := 2 |})
                               2000 0 mount)) = false
  /\ playHistory (fst (play_example "B" [1%nat] true (Some {| start := 5; end_ := 2 |})
                                    2000 0 mount))
     = [{| recordingId := "B"; timestamp := 2000 |}].
Proof.
  pose proof (playRecording_start_fails (list nat) decode_example mount "B"
                [1%nat] {| start := 5; end_ := 2 |} 2000 0
                {| buffer_duration := 10 |}) as H.
  cbv zeta in H.
  destruct H as (_ & _ & _ & _ & _ & _ & _ & _ & _ & _ & H11 & H12 & _).
  - intros [H _]. discriminate H.
  - reflexivity.
  - right. reflexivity.
  - split; [apply H11 | exact H12].
Defined.

Lemma playRecording_starts_witness :
  sourceNodeRef (fst (play_example "B" [1%nat] true (Some {| start := 2; end_ := 5 |})
                                   2000 0 playing_A)) = Some 1%nat
  /\ nth_error (sources (browser (fst (play_example "B" [1%nat] true
                                         (Some {| start := 2; end_ := 5 |})
                                         2000 0 playing_A)))) 1
     = Some {| source_buffer := {| buffer_duration := 10 |}; offset := 2;
               playDuration := Some (5 - 2); stopped := false |}
  /\ is_stopped 0 (fst (play_example "B" [1%nat] true
                                     (Some {| start := 2; end_ := 5 |})
                                     2000 0 playing_A)).
Proof.
  pose proof (playRecording_starts (list nat) decode_example playing_A "B"
                [1%nat] true (Some {| start := 2; end_ := 5 |}) 2000 0
                {| buffer_duration := 10 |}) as H.
  cbv zeta in H.
  destruct H as (_ & _ & _ & _ & _ & H6 & H7 & _ & H9 & _).
  - intros [H _]. discriminate H.
  - reflexivity.
  - intros p _ [= <-]. split; discriminate.
  - split; [exact H6|]. split; [exact H7|]. apply H9; [reflexivity | cbn; lia].
Defined.

(** *** Ticks *)

Lemma Qgeb_false x y : x < y -> Qgeb x y = false.
Proof.
  intros H. unfold Qgeb. destruct (Qle_bool y x) eqn:E; [|reflexivity].
  apply Qle_bool_iff in E. lra.
Qed.

(** One tick before the boundary: the time shown is updated and the next
    frame requested, and nothing else changes. *)
Lemma tick_before c buf now s :
  audioContextRef s = Some c -> audioBufferRef s = Some buf ->
  In (animationFrameRef s) (frames (browser s)) ->
  before_boundary buf now s ->
  let s' := tick now s in
  (audioContextRef s' = Some c /\ audioBufferRef s' = Some buf
   /\ In (animationFrameRef s') (frames (browser s'))
   /\ isLoopingRef s' = isLoopingRef s /\ loopPointsRef s' = loopPointsRef s
   /\ startTimeRef s' = startTimeRef s /\ pauseTimeRef s' = pauseTimeRef s)
  /\ sources (browser s') = sources (browser s)
  /\ contexts (browser s') = contexts (browser s)
  /\ sourceNodeRef s' = sourceNodeRef s
  /\ playingRecordingId s' = playingRecordingId s
  /\ isLooping s' = isLooping s
  /\ currentTime s' = position now s.
Proof.
  intros Hc Hb Hin Hbefore. cbv zeta. unfold tick, animationFrame.
  assert (E : existsb (Nat.eqb (animationFrameRef s)) (frames (browser s)) = true).
  { apply existsb_exists. exists (animationFrameRef s). split; [assumption|].
    apply Nat.eqb_refl. }
  rewrite E. clear E Hin. revert Hc Hb Hbefore.
  unfold before_boundary, updatePlayback, position. open_state s. intros -> ->.
  step. destruct loopingRef, pointsRef as [points|]; intros Hbefore;
    try rewrite (Qgeb_false _ _ Hbefore); step;
    repeat split; now left.
Qed.

(** X13: ticks that all come before the boundary stop nothing: the source
    and the contexts are as they were, the recording is reported as playing
    as before, a frame is requested again, and the time shown is the
    position read by the last tick.  In loop mode without loop points this
    holds for ticks at any times: the session never ends by itself. *)
Theorem ticks_before_boundary (times : list Q) (s : Provider) (c : nat)
    (buf : AudioBuffer) :
  audioContextRef s = Some c -> audioBufferRef s = Some buf ->
  In (animationFrameRef s) (frames (browser s)) ->
  (forall now, In now times -> before_boundary buf now s) ->
  let s' := ticks times s in
  sources (browser s') = sources (browser s)
  /\ contexts (browser s') = contexts (browser s)
  /\ sourceNodeRef s' = sourceNodeRef s
  /\ playingRecordingId s' = playingRecordingId s
  /\ isLooping s' = isLooping s
  /\ In (animationFrameRef s') (frames (browser s'))
  /\ (forall now, position now s' = position now s)
  /\ (forall now, times <> [] -> currentTime s' = position (last times now) s).
Proof.
  cbv zeta. unfold ticks. revert s.
  induction times as [|t times IH]; intros s Hc Hb Hin Hbefore; cbn [fold_left].
  - repeat split; auto. intros now H. congruence.
  - destruct (tick_before c buf t s Hc Hb Hin (Hbefore t (or_introl eq_refl)))
      as ((T1 & T2 & T3 & T4 & T5 & T6 & T7) & T8 & T9 & T10 & T11 & T12 & T13).
    cbv zeta in *.
    assert (Hpos : forall now, position now (tick t s) = position now s).
    { intros now. unfold position. now rewrite T6, T7. }
    destruct (IH (tick t s) T1 T2 T3) as (I1 & I2 & I3 & I4 & I5 & I6 & I7 & I8).
    { intros now Hnow. unfold before_boundary. rewrite T4, T5, Hpos.
      apply Hbefore. now right. }
    rewrite I1, I2, I3, I4, I5. repeat split; auto.
    + intros now. now rewrite I7.
    + intros now _. destruct times as [|t' times'].
      * cbn. exact T13.
      * rewrite (I8 now) by discriminate. rewrite Hpos. reflexivity.
Qed.

Lemma ticks_before_boundary_witness :
  playingRecordingId (ticks [1; 2; 4] playing_A) = Some "A"%string
  /\ sourceNodeRef (ticks [1; 2; 4] playing_A) = Some 0%nat
  /\ currentTime (ticks [1; 2; 4] playing_A) = position 4 playing_A.
Proof.
  pose proof (ticks_before_boundary [1; 2; 4] playing_A O {| buffer_duration := 10 |}
                eq_refl eq_refl) as H.
  cbv zeta in H. destruct H as (_ & _ & H3 & H4 & _ & _ & _ & H8).
  - now left.
  - intros now [<- | [<- | [<- | []]]]; reflexivity.
  - split; [exact H4|]. split; [exact H3|]. apply (H8 0). discriminate.
Defined.

(** X14: a loop restart on a suspended context.  The tick stops the source
    and calls [startPlayback], which waits for [resume()], and requests the
    next frame.  When [resume()] settles, [startPlayback] goes on with its
    own [stopPlayback()], which cancels that frame: the source of the loop is
    started, the recording is still reported as playing, and no frame is
    requested any more, so no tick will run to restart the loop again. *)
Theorem suspended_restart_stops_ticking (s : Provider) (now now' : Q)
    (c g : nat) (buf : AudioBuffer) (p : LoopPoints) :
  audioContextRef s = Some c -> audioBufferRef s = Some buf ->
  gainNodeRef s = Some g -> context_state c s = Some suspended ->
  isLoopingRef s = true -> loopPointsRef s = Some p ->
  0 <= start p <= end_ p -> end_ p <= position now s ->
  suspensions (browser s) = [] -> frames (browser s) = [] ->
  let s1 := updatePlayback now s in
  let s2 := resume_settled now' s1 in
  let n := length (sources (browser s)) in
  (sourceNodeRef s1 = None
   /\ length (sources (browser s1)) = n
   /\ animationFrameRef s1 = S (lastFrame (browser s))
   /\ frames (browser s1) = [S (lastFrame (browser s))])
  /\ context_state c s2 = Some running
  /\ sourceNodeRef s2 = Some n
  /\ nth_error (sources (browser s2)) n
     = Some {| source_buffer := buf; offset := start p;
               playDuration := Some (end_ p - start p); stopped := false |}
  /\ playingRecordingId s2 = playingRecordingId s
  /\ animationFrameRef s2 = O
  /\ frames (browser s2) = []
  /\ (forall h now'', animationFrame h now'' s2 = s2).
Proof.
  intros Hc Hb Hg Hs Hloop Hpoints [Hp1 Hp2] Hpast Hsus Hfr. cbv zeta.
  remember (updatePlayback now s) as s1 eqn:E1.
  remember (resume_settled now' s1) as s2 eqn:E2.
  assert (X1 : Qltb (start p) 0 = false) by (now apply Qltb_ge).
  assert (X2 : Qltb (end_ p - start p) 0 = false) by (apply Qltb_ge; lra).
  apply Qgeb_true in Hpast.
  unfold updatePlayback in E1. rewrite Hc, Hb in E1. revert E1 E2.
  unfold context_state, position in *. open_state s.
  subst ctxRef bufRef gainRef loopingRef pointsRef waiting pending.
  step. rewrite Hpast.
  unfold stopPlayback, startPlayback_detached, startPlayback, context_state; step.
  destruct srcRef as [x|], nextRef as [y|], frameRef as [|h]; step;
    rewrite ?update_length, Hs; step; intros -> E2;
    unfold resume_settled, context_state, resume in E2; calc in E2;
    rewrite ?update_length, Hs in E2;
    unfold startPlayback_run, stopPlayback in E2; calc in E2;
    rewrite Qgeb_refl, X1, X2 in E2; calc in E2; subst s2;
    unfold animationFrame; step;
    rewrite ?update_length, ?nth_error_update_eq, ?Hs, ?Nat.eqb_refl; step;
    repeat split; try reflexivity;
    apply nth_error_snoc_len; rewrite ?update_length; reflexivity.
Qed.

Lemma suspended_restart_stops_ticking_witness :
  let s := on_browser (cancelAnimationFrame 1) (context_suspended 0 looping_B) in
  let s2 := resume_settled 4 (updatePlayback 3 s) in
  isPlaying "B" (Some true) s2 = true
  /\ sourceNodeRef s2 = Some 1%nat
  /\ frames (browser s2) = []
  /\ animationFrame 2 5 s2 = s2.
Proof.
  cbv zeta.
  pose proof (suspended_restart_stops_ticking
                (on_browser (cancelAnimationFrame 1) (context_suspended 0 looping_B))
                3 4 O O {| buffer_duration := 10 |} {| start := 2; end_ := 5 |}
                eq_refl eq_refl eq_refl eq_refl eq_refl eq_refl) as H.
  cbv zeta in H.
  destruct H as (_ & _ & H3 & _ & H5 & _ & H7 & H8).
  - split; discriminate.
  - discriminate.
  - reflexivity.
  - reflexivity.
  - split; [|split; [exact H3 | split; [exact H7 | apply H8]]].
    unfold isPlaying. rewrite H5. reflexivity.
Defined.

(** *** The progress bar of the player *)

Lemma no_progress d :
  0 <= (if Qltb 0 d then 0 / d * 100 else 0)
  /\ (if Qltb 0 d then 0 / d * 100 else 0) < 100.
Proof.
  destruct (Qltb 0 d) eqn:H0; [|split; lra].
  setoid_replace (0 / d * 100) with 0; [split; lra|].
  apply Qltb_lt in H0. field. lra.
Qed.

(** X15: in normal mode the progress bar of a player stays within its
    track: after a tick that read a position that is not negative, the width
    shown for any recording is at least 0 % and below 100 %; a position at or
    past the end of the buffer is never shown. *)
Theorem progress_after_tick (s : Provider) (now : Q) (id : string)
    (propDuration : Q) :
  state_agrees s -> isLoopingRef s = false -> 0 <= position now s ->
  let s' := updatePlayback now s in
  0 <= AudioPlayerWithLoop.progress id propDuration s'
  /\ AudioPlayerWithLoop.progress id propDuration s' < 100.
Proof.
  intros [_ Ha] Hloop Hpos. cbv zeta.
  unfold AudioPlayerWithLoop.progress, AudioPlayerWithLoop.duration,
    AudioPlayerWithLoop.currentTime,
    AudioPlayerWithLoop.playing_here.
  remember (updatePlayback now s) as s' eqn:E.
  unfold updatePlayback in E.
  destruct (playingRecordingId s) as [pid|] eqn:Hp.
  - destruct (Ha pid eq_refl) as (c & buf & Hc & Hb & Hd).
    rewrite Hc, Hb in E. revert E. unfold position in *.
    open_state s. subst. step.
    destruct (Qgeb (pauseRef + (now - startRef)) (buffer_duration buf)) eqn:Hend;
      intros ->; step.
    + destruct (stopPlayback _). step. apply no_progress.
    + assert (Hlt : pauseRef + (now - startRef) < buffer_duration buf).
      { unfold Qgeb in Hend. destruct (Qlt_le_dec (pauseRef + (now - startRef))
                                                  (buffer_duration buf)) as [H | H];
          [assumption|]. apply Qle_bool_iff in H. congruence. }
      destruct (String.eqb pid id); step.
      * assert (H0 : Qltb 0 (buffer_duration buf) = true) by (apply Qltb_lt; lra).
        rewrite H0, H0. apply Qltb_lt in H0.
        set (t := pauseRef + (now - startRef)) in *.
        set (d := buffer_duration buf) in *.
        assert (H1 : 0 <= t / d) by (apply Qle_shift_div_l; lra).
        assert (H2 : t / d < 1) by (apply Qlt_shift_div_r; lra).
        split; lra.
      * apply no_progress.
  - assert (Hs' : playingRecordingId s' = None).
    { subst s'. clear Ha.
      destruct (audioContextRef s) as [c|]; [|assumption].
      destruct (audioBufferRef s) as [buf|]; [|assumption].
      revert Hp Hloop. open_state s. intros -> ->. step.
      destruct (Qgeb _ _); [destruct (stopPlayback _)|]; reflexivity. }
    rewrite Hs'. step. apply no_progress.
Qed.

Lemma progress_after_tick_witness :
  AudioPlayerWithLoop.progress "A" 10 (updatePlayback 4 playing_A) < 100.
Proof.
  apply (progress_after_tick playing_A 4 "A" 10).
  - split; [reflexivity|]. intros id' _. exists O, {| buffer_duration := 10 |}.
    repeat split.
  - reflexivity.
  - discriminate.
Defined.

End SessionFacts.
